(** * yar: Yet Another Router

A shallow embedding of [router.go] and a verification of its
specification.  Go strings are byte strings ([string]); the
fixed-route table is a [gmap]; the pattern list is a [list] permuted in
place by [sort.Sort]; functions that can panic or fail return an
explicit outcome. *)

From Stdlib Require Import String Ascii ZArith Lia.
From stdpp Require Import base gmap strings list sorting.


(** ** Go strings *)

Module Strings.

(** [len(s)]. *)
Definition len (s : string) : nat := String.length s.

(** [s[n:]]. *)
Fixpoint drop (n : nat) (s : string) : string :=
  match n, s with
  | 0, _ => s
  | S _, EmptyString => EmptyString
  | S n', String _ s' => drop n' s'
  end.

(** [s[:n]]. *)
Fixpoint take (n : nat) (s : string) : string :=
  match n, s with
  | 0, _ => EmptyString
  | S _, EmptyString => EmptyString
  | S n', String c s' => String c (take n' s')
  end.

(** [s[i:j]]. *)
Definition slice (s : string) (i j : nat) : string := take (j - i) (drop i s).

(** [strings.HasPrefix(s, prefix)]. *)
Fixpoint HasPrefix (s prefix : string) {struct prefix} : bool :=
  match prefix, s with
  | EmptyString, _ => true
  | String _ _, EmptyString => false
  | String c p', String d s' => Ascii.eqb c d && HasPrefix s' p'
  end.

(** [strings.HasSuffix(s, suffix)]:
    [len(s) >= len(suffix) && s[len(s)-len(suffix):] == suffix]. *)
Definition HasSuffix (s suffix : string) : bool :=
  Nat.leb (len suffix) (len s) && String.eqb (drop (len s - len suffix) s) suffix.

(** [strings.TrimSuffix(s, suffix)]. *)
Definition TrimSuffix (s suffix : string) : string :=
  if HasSuffix s suffix then take (len s - len suffix) s else s.

(** [strings.Replace(s, old, new, 1)]: the first occurrence of [old]
    (searched from the left) is replaced; without an occurrence [s] is
    returned as it is. *)
Fixpoint Replace1 (s old new : string) : string :=
  if HasPrefix s old then new +:+ drop (len old) s
  else match s with
       | EmptyString => EmptyString
       | String c s' => String c (Replace1 s' old new)
       end.

End Strings.

(** ** The two expressions of the package *)

(** regexp to match variable declarations *)
Definition ParamRegex : string := "<([A-z0-9_]*?)>".
(** regexp to extract variables from the URI *)
Definition ParamMatch : string := "([A-z0-9_].*?)".

(** *** [regexp.QuoteMeta] *)
Module QuoteMeta.

(** The bytes [regexp.QuoteMeta] escapes: [\.+*?()|[]{}^$]. *)
Definition special (c : ascii) : bool :=
  existsb (Ascii.eqb c) (list_ascii_of_string "\.+*?()|[]{}^$").

Fixpoint QuoteMeta (s : string) : string :=
  match s with
  | EmptyString => EmptyString
  | String c s' =>
      if special c then String "\" (String c (QuoteMeta s'))
      else String c (QuoteMeta s')
  end.

End QuoteMeta.

(** *** The matcher of [ParamRegex]

    [ParamRegex] is a constant, so its matcher is written out: a ['<'],
    then bytes of the class [[A-z0-9_]], as few as possible, then a ['>'].
    The class is read as the regexp package reads it: the range [A-z] is
    the bytes 65 to 122, which besides the letters holds the six bytes
    between ['Z'] and ['a']. *)
Module Param.

(** The class [[A-z0-9_]]. *)
Definition class (c : ascii) : bool :=
  let n := nat_of_ascii c in
  (((65 <=? n) && (n <=? 122)) || ((48 <=? n) && (n <=? 57)) || (n =? 95))%nat.

(** [([A-z0-9_]*?)>] at the head of [s]: the captured name and what
    follows the ['>'].  The lazy star tries the ['>'] first. *)
Fixpoint name_at (s : string) : option (string * string) :=
  match s with
  | EmptyString => None
  | String c s' =>
      if Ascii.eqb c ">" then Some (EmptyString, s')
      else if class c then
        match name_at s' with
        | Some (n, rest) => Some (String c n, rest)
        | None => None
        end
      else None
  end.

(** A match of [ParamRegex] anchored at the head of [s]. *)
Definition match_at (s : string) : option (string * string) :=
  match s with
  | String "<" s' => name_at s'
  | _ => None
  end.

(** The text of a match: [<name>]. *)
Definition token (name : string) : string := "<" +:+ name +:+ ">".

(** [re.FindAllString(s, -1)] for [re = MustCompile(ParamRegex)]: the
    successive leftmost matches, the search resuming after each one.
    [fuel] bounds the number of positions tried. *)
Fixpoint FindAllString_from (fuel : nat) (s : string) : list string :=
  match fuel with
  | 0 => []
  | S fuel' =>
      match match_at s with
      | Some (n, rest) => token n :: FindAllString_from fuel' rest
      | None =>
          match s with
          | EmptyString => []
          | String _ s' => FindAllString_from fuel' s'
          end
      end
  end.

Definition FindAllString (s : string) : list string :=
  FindAllString_from (S (Strings.len s)) s.

End Param.


(** ** Package [sort]

    [sort.Sort] as the Go library has it since Go 1.19 (pattern-defeating
    quicksort), over the three methods of [sort.Interface].  Loops carry a
    bound on their number of iterations; indices are [nat], and every
    index that the Go code decrements stays non-negative there. *)
Module sort.

Class Interface (T : Type) := {
  Len : T → nat;
  Less : T → nat → nat → bool;
  Swap : T → nat → nat → T
}.

Inductive sortedHint := unknownHint | increasingHint | decreasingHint.

Definition sortedHint_eqb (x y : sortedHint) : bool :=
  match x, y with
  | unknownHint, unknownHint
  | increasingHint, increasingHint
  | decreasingHint, decreasingHint => true
  | _, _ => false
  end.

(** [bits.Len(uint(n))]: the number of bits of [n]. *)
Definition bits_Len (n : nat) : nat :=
  match n with 0 => 0 | _ => S (Nat.log2 n) end.

(** The generator [xorshift] on [uint64]. *)
Definition uint64 (x : Z) : Z := x mod 2 ^ 64.

Definition xorshift_Next (r : Z) : Z :=
  let r := Z.lxor r (uint64 (Z.shiftl r 13)) in
  let r := Z.lxor r (Z.shiftr r 7) in
  let r := Z.lxor r (uint64 (Z.shiftl r 17)) in
  r.

Definition nextPowerOfTwo (length : nat) : Z :=
  Z.shiftl 1 (Z.of_nat (bits_Len length)).

Section algorithms.
Context {T : Type} `{Interface T}.

(** [for j := i; j > a && data.Less(j, j-1); j-- { data.Swap(j, j-1) }] *)
Fixpoint insertionSort_shift (data : T) (a j : nat) : T :=
  match j with
  | 0 => data
  | S j' =>
      if (a <? j) && Less data j j'
      then insertionSort_shift (Swap data j j') a j'
      else data
  end.

(** [insertionSort] sorts [data[a:b]] using insertion sort. *)
Definition insertionSort (data : T) (a b : nat) : T :=
  fold_left (λ data i, insertionSort_shift data a i)
            (seq (a + 1) (b - (a + 1))) data.

(** [siftDown] implements the heap property on [data[lo:hi]]; [first]
    is the offset of the root of the heap. *)
Fixpoint siftDown_loop (fuel : nat) (data : T) (root hi first : nat) : T :=
  match fuel with
  | 0 => data
  | S fuel' =>
      let child := 2 * root + 1 in
      if hi <=? child then data
      else
        let child :=
          if (child + 1 <? hi) && Less data (first + child) (first + child + 1)
          then child + 1 else child in
        if negb (Less data (first + root) (first + child)) then data
        else siftDown_loop fuel' (Swap data (first + root) (first + child))
                           child hi first
  end.

Definition siftDown (data : T) (lo hi first : nat) : T :=
  siftDown_loop hi data lo hi first.

Definition heapSort (data : T) (a b : nat) : T :=
  let first := a in
  let lo := 0 in
  let hi := b - a in
  (* Build heap with greatest element at top:
     for i := (hi - 1) / 2; i >= 0; i-- *)
  let data :=
    fold_left (λ data i, siftDown data i hi first)
              (rev (seq 0 (S ((hi - 1) / 2)))) data in
  (* Pop elements, largest first, into end of data:
     for i := hi - 1; i >= 0; i-- *)
  fold_left (λ data i, siftDown (Swap data first (first + i)) lo i first)
            (rev (seq 0 hi)) data.

(** [for i <= j && p(i) { i++ }] *)
Fixpoint scan_up (fuel : nat) (p : nat → bool) (i j : nat) : nat :=
  match fuel with
  | 0 => i
  | S fuel' => if (i <=? j) && p i then scan_up fuel' p (S i) j else i
  end.

(** [for i <= j && p(j) { j-- }]; callers have [1 <= i], so that [j]
    is not decremented at 0. *)
Fixpoint scan_down (p : nat → bool) (i j : nat) : nat :=
  match j with
  | 0 => 0
  | S j' => if (i <=? j) && p j then scan_down p i j' else j
  end.

(** The closing loop of [partition]. *)
Fixpoint partition_loop (fuel : nat) (data : T) (a i j : nat) : T * nat :=
  match fuel with
  | 0 => (data, j)
  | S fuel' =>
      let i := scan_up (S j - i) (λ i, Less data i a) i j in
      let j := scan_down (λ j, negb (Less data j a)) i j in
      if j <? i then (data, j)
      else partition_loop fuel' (Swap data i j) a (S i) (j - 1)
  end.

(** [partition] does one quicksort partition: with [p = data[pivot]],
    [data[i] < p] before the new pivot index and [data[j] >= p] after
    it. *)
Definition partition (data : T) (a b pivot : nat) : T * nat * bool :=
  let data := Swap data a pivot in
  let i := a + 1 in
  let j := b - 1 in
  let i := scan_up (S j - i) (λ i, Less data i a) i j in
  let j := scan_down (λ j, negb (Less data j a)) i j in
  if j <? i then (Swap data j a, j, true)
  else
    let data := Swap data i j in
    let '(data, j) := partition_loop (b - a) data a (S i) (j - 1) in
    (Swap data j a, j, false).

Fixpoint partitionEqual_loop (fuel : nat) (data : T) (a i j : nat) : T * nat :=
  match fuel with
  | 0 => (data, i)
  | S fuel' =>
      let i := scan_up (S j - i) (λ i, negb (Less data a i)) i j in
      let j := scan_down (λ j, Less data a j) i j in
      if j <? i then (data, i)
      else partitionEqual_loop fuel' (Swap data i j) a (S i) (j - 1)
  end.

(** [partitionEqual] partitions [data[a:b]] into elements equal to
    [data[pivot]] followed by elements greater than it. *)
Definition partitionEqual (data : T) (a b pivot : nat) : T * nat :=
  let data := Swap data a pivot in
  partitionEqual_loop (b - a) data a (a + 1) (b - 1).

(** The body of the outer loop of [partialInsertionSort], after an
    out-of-order pair was found at [i]. *)
Fixpoint shift_left (data : T) (j : nat) : T :=
  (* for j := i - 1; j >= 1; j-- *)
  match j with
  | 0 => data
  | S j' => if negb (Less data j j') then data
            else shift_left (Swap data j j') j'
  end.

Fixpoint shift_right (fuel : nat) (data : T) (j b : nat) : T :=
  (* for j := i + 1; j < b; j++ *)
  match fuel with
  | 0 => data
  | S fuel' =>
      if j <? b then
        if negb (Less data j (j - 1)) then data
        else shift_right fuel' (Swap data j (j - 1)) (S j) b
      else data
  end.

Definition maxSteps : nat := 5.
Definition shortestShifting : nat := 50.

Fixpoint partialInsertionSort_loop (steps : nat) (data : T) (a b i : nat)
  : T * bool :=
  match steps with
  | 0 => (data, false)
  | S steps' =>
      let i := scan_up (b - i) (λ i, negb (Less data i (i - 1))) i (b - 1) in
      if i =? b then (data, true)
      else if b - a <? shortestShifting then (data, false)
      else
        let data := Swap data i (i - 1) in
        let data := if 2 <=? i - a then shift_left data (i - 1) else data in
        let data := if 2 <=? b - i then shift_right (b - i) data (i + 1) b
                    else data in
        partialInsertionSort_loop steps' data a b i
  end.

(** [partialInsertionSort] partially sorts a slice, returns true if the
    slice is sorted at the end. *)
Definition partialInsertionSort (data : T) (a b : nat) : T * bool :=
  partialInsertionSort_loop maxSteps data a b (a + 1).

(** [breakPatterns] scatters three elements around the middle. *)
Definition breakPatterns (data : T) (a b : nat) : T :=
  let length := b - a in
  if 8 <=? length then
    let modulus := nextPowerOfTwo length in
    let idx := a + (length / 4) * 2 - 1 in
    fst (fold_left
      (λ '(data, random) i,
         let random := xorshift_Next random in
         let other := Z.to_nat (Z.land random (modulus - 1)) in
         let other := if length <=? other then other - length else other in
         (Swap data (idx - 1 + i) (a + other), random))
      (seq 0 3) (data, Z.of_nat length))
  else data.

(** [order2] returns [x, y] where [data[x] <= data[y]]. *)
Definition order2 (data : T) (a b swaps : nat) : nat * nat * nat :=
  if Less data b a then (b, a, S swaps) else (a, b, swaps).

(** [median] returns [x] where [data[x]] is the median of
    [data[a]], [data[b]], [data[c]]. *)
Definition median (data : T) (a b c swaps : nat) : nat * nat :=
  let '(a, b, swaps) := order2 data a b swaps in
  let '(b, c, swaps) := order2 data b c swaps in
  let '(a, b, swaps) := order2 data a b swaps in
  (b, swaps).

Definition medianAdjacent (data : T) (a swaps : nat) : nat * nat :=
  median data (a - 1) a (a + 1) swaps.

Definition shortestNinther : nat := 50.
Definition maxSwaps : nat := 4 * 3.

Definition choosePivot (data : T) (a b : nat) : nat * sortedHint :=
  let l := b - a in
  let swaps := 0 in
  let i := a + l / 4 * 1 in
  let j := a + l / 4 * 2 in
  let k := a + l / 4 * 3 in
  let '(j, swaps) :=
    if 8 <=? l then
      let '(i, j, k, swaps) :=
        if shortestNinther <=? l then
          let '(i, swaps) := medianAdjacent data i swaps in
          let '(j, swaps) := medianAdjacent data j swaps in
          let '(k, swaps) := medianAdjacent data k swaps in
          (i, j, k, swaps)
        else (i, j, k, swaps) in
      median data i j k swaps
    else (j, swaps) in
  if swaps =? 0 then (j, increasingHint)
  else if swaps =? maxSwaps then (j, decreasingHint)
  else (j, unknownHint).

Fixpoint reverseRange_loop (fuel : nat) (data : T) (i j : nat) : T :=
  match fuel with
  | 0 => data
  | S fuel' =>
      if i <? j then reverseRange_loop fuel' (Swap data i j) (S i) (j - 1)
      else data
  end.

Definition reverseRange (data : T) (a b : nat) : T :=
  reverseRange_loop (b - a) data a (b - 1).

Definition maxInsertion : nat := 12.

(** [pdqsort] sorts [data[a:b]].  One unit of [fuel] is spent per
    iteration of its loop, and the recursive call restarts the two
    flags at [true]. *)
Fixpoint pdqsort (fuel : nat) (data : T) (a b limit : nat)
         (wasBalanced wasPartitioned : bool) : T :=
  match fuel with
  | 0 => data
  | S fuel' =>
      let length := b - a in
      if length <=? maxInsertion then insertionSort data a b
      else if limit =? 0 then heapSort data a b
      else
        let '(data, limit) :=
          if negb wasBalanced then (breakPatterns data a b, limit - 1)
          else (data, limit) in
        let '(pivot, hint) := choosePivot data a b in
        let '(data, pivot, hint) :=
          if sortedHint_eqb hint decreasingHint
          then (reverseRange data a b, (b - 1) - (pivot - a), increasingHint)
          else (data, pivot, hint) in
        let '(data, done) :=
          if wasBalanced && wasPartitioned && sortedHint_eqb hint increasingHint
          then partialInsertionSort data a b
          else (data, false) in
        if done then data
        else if (0 <? a) && negb (Less data (a - 1) pivot) then
          let '(data, mid) := partitionEqual data a b pivot in
          pdqsort fuel' data mid b limit wasBalanced wasPartitioned
        else
          let '(data, mid, alreadyPartitioned) := partition data a b pivot in
          let leftLen := mid - a in
          let rightLen := b - mid in
          let balanceThreshold := length / 8 in
          if leftLen <? rightLen then
            let data := pdqsort fuel' data a mid limit true true in
            pdqsort fuel' data (mid + 1) b limit
                    (balanceThreshold <=? leftLen) alreadyPartitioned
          else
            let data := pdqsort fuel' data (mid + 1) b limit true true in
            pdqsort fuel' data a mid limit
                    (balanceThreshold <=? rightLen) alreadyPartitioned
  end.

(** [Sort] sorts data in ascending order as determined by the [Less]
    method.  The sort is not guaranteed to be stable. *)
Definition Sort (data : T) : T :=
  let n := Len data in
  if n <=? 1 then data
  else pdqsort (S n) data 0 n (bits_Len n) true true.

End algorithms.

End sort.

(** ** Package [regexp]

    A compiled expression is determined by its source text, which
    [String] returns.  The matching engine itself is the regexp package's
    and is an interface here: which sources compile, and what
    [FindStringSubmatch] returns ([nil] is the empty list; a match is the
    matched text followed by the text of each capturing group). *)
Module regexp.

Record Regexp := { expr : string }.

Class Engine := {
  compiles : string → bool;
  submatch : string → string → list string
}.

(** [re.String()] *)
Definition String (re : Regexp) : string := expr re.

Section engine.
Context `{Engine}.

(** [regexp.MustCompile(str)]; [None] is its panic. *)
Definition MustCompile (str : string) : option Regexp :=
  if compiles str then Some {| expr := str |} else None.

(** [re.FindStringSubmatch(s)] *)
Definition FindStringSubmatch (re : Regexp) (s : string) : list string :=
  submatch (expr re) s.

(** [re.MatchString(s)]: whether [s] contains any match of [re]. *)
Definition MatchString (re : Regexp) (s : string) : bool :=
  match FindStringSubmatch re s with
  | [] => false
  | _ :: _ => true
  end.
End engine.

End regexp.

(** ** Packages [net/url] and [net/http] *)

(** [url.Values] maps a key to its values, in the order they were added. *)
Module url.

Abbreviation Values := (gmap string (list string)).

(** [v.Get]-style read of [v[key]], [nil] when absent. *)
Definition values (v : Values) (key : string) : list string :=
  default [] (v !! key).

(** [v.Add(key, value)]: [v[key] = append(v[key], value)]. *)
Definition Add (v : Values) (key value : string) : Values :=
  <[key := values v key ++ [value]]> v.

(** A query string is kept as the key/value pairs it decodes to, in
    their order in the string; [ParseQuery] adds them one by one. *)
Definition ParseQuery (query : list (string * string)) : Values :=
  fold_left (λ v kv, Add v kv.1 kv.2) query ∅.

(** [v.Encode()]: the keys in sorted order, every key with each of its
    values, the values of a key in their order. *)
Definition Encode (v : Values) : list (string * string) :=
  merge_sort String.le (map_to_list v).*1
  ≫= (λ k, (λ x, (k, x)) <$> values v k).

(** [copyValues(dst, src)]: each value of [src] is added to [dst]. *)
Definition copyValues (dst src : Values) : Values :=
  union_with (λ d s, Some (d ++ s)) dst src.

End url.

(** The part of [http.Request] the router and [Parse] read.  [RawQuery]
    is [URL.RawQuery], [Path] is [URL.Path], [PostForm] is the decoded
    body of a POST, PUT or PATCH request. *)
Record Request := {
  Method : string;
  Path : string;
  RawQuery : list (string * string);
  PostForm : list (string * string)
}.

(** [r.URL.Query()] *)
Definition URL_Query (r : Request) : url.Values := url.ParseQuery (RawQuery r).

(** [r.Form] after [r.ParseForm()] on a request not parsed before: the
    body values of a POST, PUT or PATCH request, then the query values. *)
Definition ParseForm (r : Request) : url.Values :=
  let postForm :=
    if String.eqb (Method r) "POST" || String.eqb (Method r) "PUT"
       || String.eqb (Method r) "PATCH"
    then url.ParseQuery (PostForm r) else ∅ in
  url.copyValues postForm (url.ParseQuery (RawQuery r)).

(** ** The router's data *)

(** The values of [http.HandlerFunc] the program handles: a function of
    the application (opaque, known by a name), the default [http.NotFound],
    and the method value [pr.ServeHTTP] of a [ParameterRoute]. *)
Inductive HandlerFunc : Type :=
  | UserFunc (name : string)
  | http_NotFound
  | pr_ServeHTTP (pr : ParameterRoute)
(** ParameterRoute is a route that has variables in the URI *)
with ParameterRoute : Type :=
  | Build_ParameterRoute (Func : HandlerFunc) (VarNames : list string)
                         (Regexp : regexp.Regexp).

Definition pr_Func (pr : ParameterRoute) : HandlerFunc :=
  match pr with Build_ParameterRoute f _ _ => f end.
Definition VarNames (pr : ParameterRoute) : list string :=
  match pr with Build_ParameterRoute _ vn _ => vn end.
Definition Regexp (pr : ParameterRoute) : regexp.Regexp :=
  match pr with Build_ParameterRoute _ _ re => re end.

(** Route is a route that contains a regexp and func to call *)
Record Route := {
  Pattern : regexp.Regexp;
  Func : HandlerFunc
}.

#[global] Instance Route_inhabited : Inhabited Route :=
  populate {| Pattern := {| regexp.expr := "" |}; Func := http_NotFound |}.

(** Routes is an array of routes that is sorted by regex length *)
Abbreviation Routes := (list Route).

Definition Routes_Len (r : Routes) : nat := length r.

Definition Routes_Swap (r : Routes) (i j : nat) : Routes :=
  <[j := r !!! i]> (<[i := r !!! j]> r).

Definition Routes_Less (r : Routes) (i j : nat) : bool :=
  Strings.len (regexp.String (Pattern (r !!! j)))
  <? Strings.len (regexp.String (Pattern (r !!! i))).

#[global] Instance Routes_Interface : sort.Interface Routes := {|
  sort.Len := Routes_Len;
  sort.Less := Routes_Less;
  sort.Swap := Routes_Swap
|}.

(** Router handles HTTP requests and works out what functions should be
    called based on matching *)
Record Router := {
  FixedRoutes : gmap string HandlerFunc;
  Routes_ : Routes;
  Strip : bool;
  Log : bool;
  CheckRegexp : bool;
  NotFound : HandlerFunc
}.

(** NewRouter returns a Router *)
Definition NewRouter : Router := {|
  FixedRoutes := ∅;
  Routes_ := [];
  Strip := false;
  Log := false;
  CheckRegexp := true;
  NotFound := http_NotFound
|}.

(** A Go [error]: [nil], or the message given to [errors.New]. *)
Abbreviation error := (option string).

(** What a method of the router does: it panics, or it returns a value
    and leaves the router in a state. *)
Inductive outcome (A : Type) : Type :=
  | Panics
  | Returns (a : A) (rtr : Router).
Arguments Panics {A}.
Arguments Returns {A} a rtr.

(** What running a handler on a request comes to.  A function of the
    application is opaque: that it ran, and on which request, is all that
    is recorded. *)
Inductive effect : Type :=
  | Ran (name : string) (r : Request)
  | Replied404
  | Panicked.

Section router.
Context `{regexp.Engine}.

(** *** Registration *)

Definition addFixedRoute (rtr : Router) (pattern : string) (f : HandlerFunc)
  : outcome error :=
  match FixedRoutes rtr !! pattern with
  | Some _ => Returns (Some ("Key exists: " +:+ pattern)) rtr
  | None =>
      Returns None
        {| FixedRoutes := <[pattern := f]> (FixedRoutes rtr);
           Routes_ := Routes_ rtr; Strip := Strip rtr; Log := Log rtr;
           CheckRegexp := CheckRegexp rtr; NotFound := NotFound rtr |}
  end.

Definition addRoute (rtr : Router) (pattern : string) (f : HandlerFunc)
  : outcome error :=
  match regexp.MustCompile pattern with
  | None => Panics
  | Some re =>
      if existsb (λ r, String.eqb (regexp.String (Pattern r)) (regexp.String re))
                 (Routes_ rtr)
      then Returns (Some ("Key exists: " +:+ pattern)) rtr
      else
        Returns None
          {| FixedRoutes := FixedRoutes rtr;
             Routes_ := sort.Sort (Routes_ rtr ++ [{| Pattern := re; Func := f |}]);
             Strip := Strip rtr; Log := Log rtr;
             CheckRegexp := CheckRegexp rtr; NotFound := NotFound rtr |}
  end.

(** The loop of [addProcessedParameterRoute]: every found token is
    replaced, once, in what the previous replacements left, and its name
    is recorded without the [<] and the [>]. *)
Definition substitute_step (acc : string * list string) (vn : string)
  : string * list string :=
  let '(newPattern, varNames) := acc in
  (Strings.Replace1 newPattern vn ParamMatch,
   varNames ++ [Strings.slice vn 1 (Strings.len vn - 1)]).

Definition substitute (pattern : string) (vars : list string)
  : string * list string :=
  fold_left substitute_step vars (pattern, []).

(** [re] is in both callers the compiled [ParamRegex], whose
    [FindAllString] is [Param.FindAllString].  The error of [addRoute] is
    dropped. *)
Definition addProcessedParameterRoute (rtr : Router) (pattern : string)
           (f : HandlerFunc) : outcome () :=
  let vars := Param.FindAllString pattern in
  let '(newPattern, varNames) := substitute pattern vars in
  match regexp.MustCompile newPattern with
  | None => Panics
  | Some re =>
      let pr := Build_ParameterRoute f varNames re in
      match addRoute rtr newPattern (pr_ServeHTTP pr) with
      | Panics => Panics
      | Returns _ rtr' => Returns () rtr'
      end
  end.

Definition addParameterRoute (rtr : Router) (pattern : string)
           (f : HandlerFunc) : outcome () :=
  addProcessedParameterRoute rtr pattern f.

(** [HandleFunc] has no result: the errors of [addFixedRoute] and
    [addRoute] are dropped. *)
Definition drop_error (o : outcome error) : outcome () :=
  match o with
  | Panics => Panics
  | Returns _ rtr => Returns () rtr
  end.

Definition HandleFunc (rtr : Router) (pattern : string) (f : HandlerFunc)
  : outcome () :=
  let vars := Param.FindAllString pattern in
  if 0 <? length vars then addProcessedParameterRoute rtr pattern f
  else if CheckRegexp rtr then
    let quoted := QuoteMeta.QuoteMeta pattern in
    if String.eqb quoted pattern
    then drop_error (addFixedRoute rtr pattern f)
    else drop_error (addRoute rtr pattern f)
  else drop_error (addFixedRoute rtr pattern f).

(** *** Dispatch *)

(** [for i, vn := range pr.VarNames { form.Add(vn, vars[i]) }]; [None]
    is the index-out-of-range panic of [vars[i]]. *)
Fixpoint add_vars (form : url.Values) (varNames vars : list string) (i : nat)
  : option url.Values :=
  match varNames with
  | [] => Some form
  | vn :: varNames' =>
      match vars !! i with
      | None => None
      | Some v => add_vars (url.Add form vn v) varNames' vars (S i)
      end
  end.

(** [f(w, r)], with [ParameterRoute.ServeHTTP] for the method value:
    it extracts the variables from the path and prepends them to the
    query of the request.  Slicing the [nil] of a failed match panics. *)
Fixpoint run (f : HandlerFunc) (r : Request) : effect :=
  match f with
  | UserFunc name => Ran name r
  | http_NotFound => Replied404
  | pr_ServeHTTP pr => ParameterRoute_ServeHTTP pr r
  end
with ParameterRoute_ServeHTTP (pr : ParameterRoute) (r : Request) : effect :=
  match pr with
  | Build_ParameterRoute Func VarNames Regexp =>
      match regexp.FindStringSubmatch Regexp (Path r) with
      | [] => Panicked
      | _ :: vars =>
          match add_vars ∅ VarNames vars 0 with
          | None => Panicked
          | Some form =>
              run Func {| Method := Method r; Path := Path r;
                          RawQuery := url.Encode form ++ RawQuery r;
                          PostForm := PostForm r |}
          end
      end
  end.

(** The path the router matches: only strip "/" if its not the entire
    path. *)
Definition stripped (rtr : Router) (path : string) : bool :=
  Strip rtr && (1 <? Strings.len path) && Strings.HasSuffix path "/".

Definition match_path (rtr : Router) (path : string) : string :=
  if stripped rtr path then Strings.TrimSuffix path "/" else path.

(** The scan of the pattern list: the calls made, each with its
    effect. *)
Fixpoint serve_routes (routes : Routes) (notFound : HandlerFunc)
         (path : string) (r : Request) : list (HandlerFunc * effect) :=
  match routes with
  | [] => [(notFound, run notFound r)]
  | rr :: routes' =>
      if regexp.MatchString (Pattern rr) path
      then [(Func rr, run (Func rr) r)]
      else serve_routes routes' notFound path r
  end.

(** [Router.ServeHTTP]: the lines it logs and the handlers it calls, in
    order, each with its effect. *)
Definition Router_ServeHTTP (rtr : Router) (r : Request)
  : list string * list (HandlerFunc * effect) :=
  let path := Path r in
  let logMsg := "requested: " +:+ path in
  let '(path, logMsg) :=
    if stripped rtr path then
      let path := Strings.TrimSuffix path "/" in
      (path, logMsg +:+ " (stripped to: " +:+ path +:+ ")")
    else (path, logMsg) in
  let logged := if Log rtr then [logMsg] else [] in
  match FixedRoutes rtr !! path with
  | Some f => (logged, [(f, run f r)])
  | None => (logged, serve_routes (Routes_ rtr) (NotFound rtr) path r)
  end.

End router.

(** *** Reading the variables back *)

(** The inner loop of [Parse]: the values without the first one equal to
    [x], if there is one. *)
Definition without_first (x : string) (values : list string)
  : option (list string) :=
  match list_find (λ v, x = v) values with
  | Some (i, _) => Some (take i values ++ drop (S i) values)
  | None => None
  end.

(** Parse parses r.URL.Query to extract the stored variables *)
Definition Parse (r : Request) : gmap string string * gmap string (list string) :=
  let m : gmap string string := (λ v : list string, v !!! 0) <$> URL_Query r in
  let form : gmap string (list string) :=
    map_imap
      (λ k values,
         match m !! k with
         | None => Some values
         | Some mValues =>
             if 1 <? Strings.len mValues then without_first mValues values
             else None
         end)
      (ParseForm r) in
  (m, form).

(** ** A reference engine

    The examples below need an engine to run.  This one covers the
    fragment of the regexp syntax the examples are written in, on ASCII
    text: literals, escaped punctuation, [.], classes with ranges, capturing
    groups, alternation, [*], [+], [?] and their lazy forms, [^] and [$]
    (without flags: begin and end of text).  It searches as the regexp
    package specifies: the leftmost match, and among those the one a
    backtracking search finds first.  A source outside the fragment is
    reported as not compiling. *)
Module RE2.

Inductive re : Type :=
  | Empty
  | Lit (c : ascii)
  | AnyCharNotNL
  | CharClass (neg : bool) (ranges : list (ascii * ascii))
  | BeginText
  | EndText
  | Capture (n : nat) (r : re)
  | Concat (r1 r2 : re)
  | Alternate (r1 r2 : re)
  | Star (greedy : bool) (r : re)
  | Quest (greedy : bool) (r : re).

Definition ch (c : ascii) (x : string) : bool :=
  match x with
  | String d EmptyString => Ascii.eqb c d
  | _ => false
  end.

Definition is_ascii (c : ascii) : bool := nat_of_ascii c <? 128.

(** *** Parsing *)

(** The items of a class up to its closing bracket. *)
Fixpoint parse_class (s : list ascii) (acc : list (ascii * ascii))
  : option (list (ascii * ascii) * list ascii) :=
  match s with
  | [] => None
  | c :: s1 =>
      if ch c "]" then
        match acc with [] => None | _ => Some (acc, s1) end
      else if ch c "[" || negb (is_ascii c) then None
      else if ch c "\" then
        match s1 with
        | d :: s2 =>
            if QuoteMeta.special d || ch d "-"
            then parse_class s2 (acc ++ [(d, d)]) else None
        | [] => None
        end
      else
        match s1 with
        | m :: d :: s2 =>
            if ch m "-" && negb (ch d "]") then
              if ch d "\" || ch d "[" || negb (is_ascii d) then None
              else if nat_of_ascii c <=? nat_of_ascii d
                   then parse_class s2 (acc ++ [(c, d)]) else None
            else parse_class s1 (acc ++ [(c, c)])
        | _ => parse_class s1 (acc ++ [(c, c)])
        end
  end.

Definition is_repeat (c : ascii) : bool := ch c "*" || ch c "+" || ch c "?".

(** A repetition operator after an atom, with its lazy mark; a second
    operator is refused. *)
Definition parse_op (r : re) (s : list ascii) : option (re * list ascii) :=
  match s with
  | c :: s1 =>
      if is_repeat c then
        let '(greedy, s2) :=
          match s1 with
          | q :: s2 => if ch q "?" then (false, s2) else (true, s1)
          | [] => (true, s1)
          end in
        let r' := if ch c "*" then Star greedy r
                  else if ch c "+" then Concat r (Star greedy r)
                  else Quest greedy r in
        match s2 with
        | d :: _ => if is_repeat d then None else Some (r', s2)
        | [] => Some (r', s2)
        end
      else Some (r, s)
  | [] => Some (r, s)
  end.

(** Alternation, concatenation and atoms, by recursive descent; [ng] is
    the number of groups opened so far. *)
Fixpoint parse_alt (fuel : nat) (s : list ascii) (ng : nat)
  : option (re * list ascii * nat) :=
  match fuel with
  | 0 => None
  | S fuel' =>
      match parse_concat fuel' s ng with
      | Some (r1, s1, ng1) =>
          match s1 with
          | c :: s2 =>
              if ch c "|" then
                match parse_alt fuel' s2 ng1 with
                | Some (r2, s3, ng2) => Some (Alternate r1 r2, s3, ng2)
                | None => None
                end
              else Some (r1, s1, ng1)
          | [] => Some (r1, s1, ng1)
          end
      | None => None
      end
  end
with parse_concat (fuel : nat) (s : list ascii) (ng : nat)
  : option (re * list ascii * nat) :=
  match fuel with
  | 0 => None
  | S fuel' =>
      match s with
      | [] => Some (Empty, s, ng)
      | c :: _ =>
          if ch c "|" || ch c ")" then Some (Empty, s, ng)
          else
            match parse_atom fuel' s ng with
            | Some (r1, s1, ng1) =>
                match parse_op r1 s1 with
                | Some (r1', s1') =>
                    match parse_concat fuel' s1' ng1 with
                    | Some (r2, s2, ng2) => Some (Concat r1' r2, s2, ng2)
                    | None => None
                    end
                | None => None
                end
            | None => None
            end
      end
  end
with parse_atom (fuel : nat) (s : list ascii) (ng : nat)
  : option (re * list ascii * nat) :=
  match fuel with
  | 0 => None
  | S fuel' =>
      match s with
      | [] => None
      | c :: s1 =>
          if ch c "(" then
            match s1 with
            | q :: _ =>
                if ch q "?" then None
                else
                  match parse_alt fuel' s1 (S ng) with
                  | Some (r, d :: s2, ng') =>
                      if ch d ")" then Some (Capture (S ng) r, s2, ng') else None
                  | _ => None
                  end
            | [] => None
            end
          else if ch c "[" then
            match s1 with
            | n :: s2 =>
                if ch n "^" then
                  match parse_class s2 [] with
                  | Some (rs, s3) => Some (CharClass true rs, s3, ng)
                  | None => None
                  end
                else
                  match parse_class s1 [] with
                  | Some (rs, s3) => Some (CharClass false rs, s3, ng)
                  | None => None
                  end
            | [] => None
            end
          else if ch c "." then Some (AnyCharNotNL, s1, ng)
          else if ch c "^" then Some (BeginText, s1, ng)
          else if ch c "$" then Some (EndText, s1, ng)
          else if ch c "\" then
            match s1 with
            | d :: s2 => if QuoteMeta.special d then Some (Lit d, s2, ng) else None
            | [] => None
            end
          else if is_repeat c || ch c ")" || ch c "|" || ch c "{" || ch c "}"
                  || ch c "]" || negb (is_ascii c)
          then None
          else Some (Lit c, s1, ng)
      end
  end.

(** The parsed expression and its number of capturing groups
    ([NumSubexp]). *)
Definition parse (src : string) : option (re * nat) :=
  let s := list_ascii_of_string src in
  match parse_alt (4 * length s + 8) s 0 with
  | Some (r, [], ng) => Some (r, ng)
  | _ => None
  end.

(** *** Matching *)

Definition in_ranges (c : ascii) (ranges : list (ascii * ascii)) : bool :=
  existsb (λ lh, (nat_of_ascii lh.1 <=? nat_of_ascii c)
                 && (nat_of_ascii c <=? nat_of_ascii lh.2)) ranges.

Abbreviation captures := (list (option string)).

(** A backtracking run of [r] at offset [pos], where [s] is the text
    left; [k] is what has to match afterwards.  Alternatives are tried in
    the order of preference: the left branch first, one more iteration
    first for a greedy operator and last for a lazy one.  An iteration of
    a star that consumes nothing is not repeated. *)
Fixpoint exec (r : re) (pos : nat) (s : list ascii) (caps : captures)
         (k : nat → list ascii → captures → option captures)
  : option captures :=
  match r with
  | Empty => k pos s caps
  | Lit c =>
      match s with
      | d :: s' => if Ascii.eqb c d then k (S pos) s' caps else None
      | [] => None
      end
  | AnyCharNotNL =>
      match s with
      | d :: s' => if Ascii.eqb d "010" then None else k (S pos) s' caps
      | [] => None
      end
  | CharClass neg ranges =>
      match s with
      | d :: s' => if xorb neg (in_ranges d ranges) then k (S pos) s' caps else None
      | [] => None
      end
  | BeginText => if pos =? 0 then k pos s caps else None
  | EndText => match s with [] => k pos s caps | _ :: _ => None end
  | Capture n r' =>
      exec r' pos s caps
           (λ pos' s' caps',
              k pos' s' (<[n := Some (string_of_list_ascii (take (pos' - pos) s))]> caps'))
  | Concat r1 r2 =>
      exec r1 pos s caps (λ pos' s' caps', exec r2 pos' s' caps' k)
  | Alternate r1 r2 =>
      match exec r1 pos s caps k with
      | Some c => Some c
      | None => exec r2 pos s caps k
      end
  | Star greedy r' =>
      (fix loop (n : nat) (pos : nat) (s : list ascii) (caps : captures)
         : option captures :=
         match n with
         | 0 => k pos s caps
         | S n' =>
             let again :=
               exec r' pos s caps
                    (λ pos' s' caps',
                       if pos' =? pos then None else loop n' pos' s' caps') in
             if greedy then
               match again with Some c => Some c | None => k pos s caps end
             else
               match k pos s caps with Some c => Some c | None => again end
         end) (length s) pos s caps
  | Quest greedy r' =>
      if greedy then
        match exec r' pos s caps k with
        | Some c => Some c
        | None => k pos s caps
        end
      else
        match k pos s caps with
        | Some c => Some c
        | None => exec r' pos s caps k
        end
  end.

(** The leftmost match: the start offsets are tried in order. *)
Fixpoint search (r : re) (ng : nat) (pos : nat) (s : list ascii)
  : option captures :=
  let here :=
    exec r pos s (replicate (S ng) None)
         (λ pos' _ caps,
            Some (<[0 := Some (string_of_list_ascii (take (pos' - pos) s))]> caps)) in
  match here with
  | Some caps => Some caps
  | None =>
      match s with
      | [] => None
      | _ :: s' => search r ng (S pos) s'
      end
  end.

Definition compiles (src : string) : bool :=
  match parse src with Some _ => true | None => false end.

(** The matched text and the text of each group, the empty string for a
    group that took no part; [nil] without a match. *)
Definition submatch (src s : string) : list string :=
  match parse src with
  | Some (r, ng) =>
      match search r ng 0 (list_ascii_of_string s) with
      | Some caps => default "" <$> caps
      | None => []
      end
  | None => []
  end.

Definition engine : regexp.Engine :=
  {| regexp.compiles := compiles; regexp.submatch := submatch |}.

End RE2.

(** ** Registration through the entry point, as the specification sees it *)

(** The three shapes of a declaration, decided as [HandleFunc] decides
    them: tokens first, then the metacharacter check when it is on. *)
Inductive RouteKind : Type :=
  | Literal (path : string)
  | PlainPattern (src : string)
  | VariablePattern (src : string) (varNames : list string).

Definition compile (checkRegexp : bool) (declaration : string) : RouteKind :=
  match Param.FindAllString declaration with
  | [] =>
      if checkRegexp && negb (String.eqb (QuoteMeta.QuoteMeta declaration) declaration)
      then PlainPattern declaration
      else Literal declaration
  | vars =>
      let '(src, varNames) := substitute declaration vars in
      VariablePattern src varNames
  end.

(** A registration of [declaration] meets a route already in the table:
    the same literal, or a pattern with the same source text. *)
Definition duplicate (rtr : Router) (declaration : string) : Prop :=
  match compile (CheckRegexp rtr) declaration with
  | Literal path => is_Some (FixedRoutes rtr !! path)
  | PlainPattern src | VariablePattern src _ =>
      ∃ rr, rr ∈ Routes_ rtr ∧ regexp.String (Pattern rr) = src
  end.

(** A function without results, as [HandleFunc] is, can make its caller
    see a failure only by panicking. *)
Definition raises {A : Type} (o : outcome A) : Prop := o = Panics.

(** The handler the specification's resolution order designates for a
    path: the fixed route of the path; otherwise the first pattern route,
    in stored order, whose matcher matches; otherwise the not-found
    handler. *)
Definition no_match `{regexp.Engine} (path : string) (routes : Routes) : Prop :=
  Forall (λ rr, regexp.MatchString (Pattern rr) path = false) routes.

Definition resolves `{regexp.Engine} (rtr : Router) (path : string)
           (h : HandlerFunc) : Prop :=
  match FixedRoutes rtr !! path with
  | Some f => h = f
  | None =>
      (∃ pre rr post,
          Routes_ rtr = pre ++ rr :: post ∧ no_match path pre
          ∧ regexp.MatchString (Pattern rr) path = true ∧ h = Func rr)
      ∨ (no_match path (Routes_ rtr) ∧ h = NotFound rtr)
  end.

(** *** Routers of the examples *)

Definition request (path : string) : Request :=
  {| Method := "GET"; Path := path; RawQuery := []; PostForm := [] |}.

(** What [HandleFunc] leaves of a router, the router itself where it
    panics. *)
Definition registered `{regexp.Engine} (rtr : Router) (declaration : string)
           (name : string) : Router :=
  match HandleFunc rtr declaration (UserFunc name) with
  | Returns _ rtr' => rtr'
  | Panics => rtr
  end.

Definition stripping (rtr : Router) : Router :=
  {| FixedRoutes := FixedRoutes rtr; Routes_ := Routes_ rtr; Strip := true;
     Log := Log rtr; CheckRegexp := CheckRegexp rtr; NotFound := NotFound rtr |}.

(** The test of the loop of [addRoute]. *)
Definition has_source (routes : Routes) (src : string) : bool :=
  existsb (λ r, String.eqb (regexp.String (Pattern r)) src) routes.

Definition router_a : Router :=
  registered (H := RE2.engine) NewRouter "/a" "first".

Definition router_api : Router :=
  registered (H := RE2.engine) NewRouter "/api[/]*$" "first".

Definition router_u : Router :=
  stripping (registered (H := RE2.engine) NewRouter "/u/<id>x$" "show").

(** ** The compiler of the specification

    The declaration is read once from the left.  Where a variable token
    stands, its name goes to the list of names and the wildcard group
    takes its place; any other byte is kept. *)
Module Spec.

Fixpoint replace_tokens_from (fuel : nat) (s : string) : string :=
  match fuel with
  | 0 => s
  | S fuel' =>
      match Param.match_at s with
      | Some (_, rest) => ParamMatch +:+ replace_tokens_from fuel' rest
      | None =>
          match s with
          | EmptyString => EmptyString
          | String c s' => String c (replace_tokens_from fuel' s')
          end
      end
  end.

Definition replace_tokens (declaration : string) : string :=
  replace_tokens_from (S (Strings.len declaration)) declaration.

Fixpoint token_names_from (fuel : nat) (s : string) : list string :=
  match fuel with
  | 0 => []
  | S fuel' =>
      match Param.match_at s with
      | Some (n, rest) => n :: token_names_from fuel' rest
      | None =>
          match s with
          | EmptyString => []
          | String _ s' => token_names_from fuel' s'
          end
      end
  end.

Definition token_names (declaration : string) : list string :=
  token_names_from (S (Strings.len declaration)) declaration.

(** The text of a declaration around its tokens: what stands before
    each token, and what follows the last one.  Two declarations with
    the same pieces differ only in the names of their variables. *)
Fixpoint pieces_from (fuel : nat) (s : string) : list string * string :=
  match fuel with
  | 0 => ([], s)
  | S fuel' =>
      match Param.match_at s with
      | Some (_, rest) =>
          let '(ps, tl) := pieces_from fuel' rest in (EmptyString :: ps, tl)
      | None =>
          match s with
          | EmptyString => ([], EmptyString)
          | String c s' =>
              match pieces_from fuel' s' with
              | ([], tl) => ([], String c tl)
              | (p :: ps, tl) => (String c p :: ps, tl)
              end
          end
      end
  end.

Definition pieces (declaration : string) : list string * string :=
  pieces_from (S (Strings.len declaration)) declaration.

(** The pieces with a text after each of them, and the tail. *)
Fixpoint weave (ps fillers : list string) (tl : string) : string :=
  match ps, fillers with
  | [], _ => tl
  | p :: ps', [] => p +:+ weave ps' [] tl
  | p :: ps', f :: fillers' => p +:+ f +:+ weave ps' fillers' tl
  end.

(** The pieces put together again, [filler] in the place of each
    token. *)
Definition assemble (filler : string) (ps : list string * string) : string :=
  foldr (λ p acc, p +:+ filler +:+ acc) ps.2 ps.1.

End Spec.

(** Bytes of a string. *)
Fixpoint all_bytes (P : ascii → bool) (s : string) : bool :=
  match s with
  | EmptyString => true
  | String c s' => P c && all_bytes P s'
  end.

(** No token of [ParamRegex] starts inside [done], where [s] follows. *)
Fixpoint token_free (done s : string) : Prop :=
  match done with
  | EmptyString => True
  | String c done' =>
      (∀ n, all_bytes Param.class n = true →
            Strings.HasPrefix (done +:+ s) (Param.token n) = false)
      ∧ token_free done' s
  end.

Definition not_paren (c : ascii) : bool := negb (Ascii.eqb c "(").
Definition not_lt (c : ascii) : bool := negb (Ascii.eqb c "<").

(** ** Slices under [sort.Sort] *)

(** [d[i], d[j] = d[j], d[i]] *)
Definition swap {A : Type} `{Inhabited A} (d : list A) (i j : nat) : list A :=
  <[j := d !!! i]> (<[i := d !!! j]> d).

(** [d'] comes from [d] by exchanges of elements at indices of [[a, b)]. *)
Inductive rearranged {A : Type} `{Inhabited A} (a b : nat)
  : list A → list A → Prop :=
| rearranged_refl d : rearranged a b d d
| rearranged_swap d d' i j :
    a ≤ i < b → a ≤ j < b → b ≤ length d →
    rearranged a b (swap d i j) d' → rearranged a b d d'.

(** [d[a:b]] is in ascending order of [key]. *)
Definition sorted_range {A : Type} `{Inhabited A} (key : A → Z)
             (d : list A) (a b : nat) : Prop :=
  ∀ i j, a ≤ i → i ≤ j → j < b → (key (d !!! i) ≤ key (d !!! j))%Z.

(** What [Routes.Less] orders by: the longer source first. *)
Definition Routes_key (r : Route) : Z :=
  (- Z.of_nat (Strings.len (regexp.String (Pattern r))))%Z.

(** The pattern list is ordered by descending length of the sources. *)
Definition descending (routes : Routes) : Prop :=
  ∀ i j x y, i ≤ j → routes !! i = Some x → routes !! j = Some y →
    Strings.len (regexp.String (Pattern y)) ≤ Strings.len (regexp.String (Pattern x)).

(** Entries with sources of equal length are in the same order in both
    lists. *)
Definition same_order_among_equals (before after : Routes) : Prop :=
  ∀ n, filter (λ r, Strings.len (regexp.String (Pattern r)) = n) after
       = filter (λ r, Strings.len (regexp.String (Pattern r)) = n) before.

(** Below [a] stands nothing greater than what [d[a:b]] holds. *)
Definition bounded_below {A : Type} `{Inhabited A} (key : A → Z)
             (d : list A) (a b : nat) : Prop :=
  0 < a → ∀ k, a ≤ k → k < b → (key (d !!! (a - 1)%nat) ≤ key (d !!! k))%Z.

(** In the heap of [hi] elements at offset [first], every node from [lo]
    on is no less than its children. *)
Definition heap_from {A : Type} `{Inhabited A} (key : A → Z)
             (d : list A) (first lo hi : nat) : Prop :=
  ∀ k c, lo ≤ k → c = 2 * k + 1 ∨ c = 2 * k + 2 → c < hi →
         (key (d !!! (first + c)%nat) ≤ key (d !!! (first + k)%nat))%Z.

(** The routers that calls of [addRoute] and [HandleFunc] lead to. *)
Inductive reaches `{regexp.Engine} : Router → Router → Prop :=
| reaches_refl rtr : reaches rtr rtr
| reaches_addRoute rtr rtr1 rtr2 pattern f e :
    addRoute rtr pattern f = Returns e rtr1 → reaches rtr1 rtr2 →
    reaches rtr rtr2
| reaches_HandleFunc rtr rtr1 rtr2 pattern f :
    HandleFunc rtr pattern f = Returns () rtr1 → reaches rtr1 rtr2 →
    reaches rtr rtr2.

(** Twelve patterns of four bytes, registered in this order, and a
    thirteenth of five. *)
Definition twelve_patterns : list string :=
  ["^/a$"; "^/b$"; "^/c$"; "^/d$"; "^/e$"; "^/f$";
   "^/g$"; "^/h$"; "^/i$"; "^/j$"; "^/k$"; "^/l$"].

Definition router_12 : Router :=
  fold_left (λ rtr p, registered (H := RE2.engine) rtr p p) twelve_patterns NewRouter.

Definition router_13 : Router :=
  registered (H := RE2.engine) router_12 "^/mm$" "^/mm$".

(** [NumSubexp] of the reference engine. *)
Definition RE2_NumSubexp (src : string) : nat :=
  match RE2.parse src with
  | Some (_, ng) => ng
  | None => 0
  end.

(** The route a variable declaration is registered as. *)
Definition variable_route (declaration : string) (f : HandlerFunc) : Route :=
  let re := {| regexp.expr := Spec.replace_tokens declaration |} in
  {| Pattern := re;
     Func := pr_ServeHTTP (Build_ParameterRoute f (Spec.token_names declaration) re) |}.

Definition router_x : Router :=
  registered (H := RE2.engine)
    (registered (H := RE2.engine) NewRouter "/x/<a>$" "first") "/x/<b>$" "second".

(** ** Queries, key by key *)

(** The values a sequence of key/value pairs gives to one key, in the
    order of the sequence. *)
Definition values_of (k : string) (q : list (string * string)) : list string :=
  (filter (λ kv, kv.1 = k) q).*2.

(** Whether [r.ParseForm] reads the body. *)
Definition has_body (r : Request) : bool :=
  String.eqb (Method r) "POST" || String.eqb (Method r) "PUT"
  || String.eqb (Method r) "PATCH".

(** The values of a key in the body, where [r.ParseForm] reads it. *)
Definition body_values (r : Request) (k : string) : list string :=
  if has_body r then values_of k (PostForm r) else [].

(** ** Slices

    [Parse] builds [form[k]] with [append(values[:i], values[i+1:]...)],
    where [values] is the slice that [r.Form] holds for [k]. *)
Module slice.

(** A slice of strings: the array it points into, from the first element
    of the slice on, and its length.  Its capacity is the length of that
    array. *)
Record t := { array : list string; len : nat }.

Definition elems (s : t) : list string := take (len s) (array s).

Definition cap (s : t) : nat := length (array s).

(** [s[:j]] *)
Definition upto (s : t) (j : nat) : t := {| array := array s; len := j |}.

(** Whether [append(s, xs...)] has room in the array of [s]. *)
Definition fits (s : t) (xs : list string) : bool :=
  len s + length xs <=? cap s.

(** [append(s, xs...)]: with room in the array of [s] the elements are
    written there, behind those of [s]; without, into a new array. *)
Definition append (s : t) (xs : list string) : t :=
  if fits s xs
  then {| array := take (len s) (array s) ++ xs
                   ++ drop (len s + length xs) (array s);
          len := len s + length xs |}
  else {| array := elems s ++ xs; len := len s + length xs |}.

End slice.

(** The body of the second loop of [Parse] for the key [k], [values]
    being the slice of [r.Form] for it: what [form[k]] is set to, if it
    is set, and the slice [r.Form[k]] as the loop leaves it. *)
Definition Parse_key (m : gmap string string) (k : string) (values : slice.t)
  : option slice.t * slice.t :=
  match m !! k with
  | None => (Some values, values)
  | Some mValues =>
      if 1 <? Strings.len mValues then
        match list_find (λ v, mValues = v) (slice.elems values) with
        | Some (i, _) =>
            let front := slice.upto values i in
            let back := drop (S i) (slice.elems values) in
            let s := slice.append front back in
            (Some s,
             if slice.fits front back
             then {| slice.array := slice.array s;
                     slice.len := slice.len values |}
             else values)
        | None => (None, values)
        end
      else (None, values)
  end.

(** ** Registrations *)

(** A byte that [regexp.QuoteMeta] leaves as it is. *)
Definition plain (c : ascii) : bool := negb (QuoteMeta.special c).

(** The sources of the pattern list, in its order. *)
Definition sources (rtr : Router) : list string :=
  (λ rr, regexp.String (Pattern rr)) <$> Routes_ rtr.

(** Every source of the pattern list compiles. *)
Definition sources_compile `{regexp.Engine} (rtr : Router) : Prop :=
  ∀ rr, rr ∈ Routes_ rtr →
        regexp.compiles (regexp.String (Pattern rr)) = true.

(** [rtr'] has the settings of [rtr] and every route of it. *)
Definition extends (rtr rtr' : Router) : Prop :=
  Strip rtr' = Strip rtr ∧ Log rtr' = Log rtr
  ∧ CheckRegexp rtr' = CheckRegexp rtr ∧ NotFound rtr' = NotFound rtr
  ∧ (∀ k h, FixedRoutes rtr !! k = Some h → FixedRoutes rtr' !! k = Some h)
  ∧ (∀ rr, rr ∈ Routes_ rtr → rr ∈ Routes_ rtr').

(** * Properties *)

(** ** Strings *)

Module StringFacts.
  Import Strings.

Lemma app_cons (c : ascii) (p q : string) :
  String c p +:+ q = String c (p +:+ q).
Proof. reflexivity. Qed.

Lemma app_nil_l (q : string) : "" +:+ q = q.
Proof. reflexivity. Qed.

Lemma app_nil_r (p : string) : p +:+ "" = p.
Proof. induction p as [|c p IH]; [done|]. by rewrite app_cons, IH. Qed.

Lemma app_assoc (p q r : string) : (p +:+ q) +:+ r = p +:+ (q +:+ r).
Proof. induction p as [|c p IH]; [done|]. by rewrite !app_cons, IH. Qed.

Lemma len_app (p q : string) : len (p +:+ q) = len p + len q.
Proof.
  induction p as [|c p IH]; [done|].
  rewrite app_cons. unfold len in *. simpl. lia.
Qed.

Lemma drop_app (p q : string) : drop (len p) (p +:+ q) = q.
Proof. induction p as [|c p IH]; [done|]. by rewrite app_cons. Qed.

Lemma take_app (p q : string) : take (len p) (p +:+ q) = p.
Proof.
  induction p as [|c p IH]; [by destruct q|].
  rewrite app_cons. simpl. by rewrite IH.
Qed.

Lemma take_drop (n : nat) (s : string) : take n s +:+ drop n s = s.
Proof.
  revert s; induction n as [|n IH]; intros [|c s]; simpl; try done.
  by rewrite app_cons, IH.
Qed.

Lemma HasSuffix_app (p q : string) : HasSuffix (p +:+ q) q = true.
Proof.
  unfold HasSuffix. rewrite len_app.
  replace (len p + len q - len q) with (len p) by lia.
  rewrite drop_app, String.eqb_refl.
  rewrite andb_true_r. apply Nat.leb_le. lia.
Qed.

Lemma TrimSuffix_app (p q : string) : TrimSuffix (p +:+ q) q = p.
Proof.
  unfold TrimSuffix. rewrite HasSuffix_app, len_app.
  replace (len p + len q - len q) with (len p) by lia.
  apply take_app.
Qed.

Lemma HasSuffix_inv (s q : string) :
  HasSuffix s q = true → s = take (len s - len q) s +:+ q.
Proof.
  unfold HasSuffix. intros [_ Heq%String.eqb_eq]%andb_true_iff.
  transitivity (take (len s - len q) s +:+ drop (len s - len q) s).
  - symmetry. apply take_drop.
  - by rewrite Heq.
Qed.

End StringFacts.

(** ** Dispatch *)

Section dispatch.
Context `{regexp.Engine}.

Lemma Router_ServeHTTP_calls (rtr : Router) (r : Request) :
  (Router_ServeHTTP rtr r).2 =
    match FixedRoutes rtr !! match_path rtr (Path r) with
    | Some f => [(f, run f r)]
    | None => serve_routes (Routes_ rtr) (NotFound rtr)
                           (match_path rtr (Path r)) r
    end.
Proof.
  unfold Router_ServeHTTP, match_path.
  destruct (stripped rtr (Path r)); simpl;
    by destruct (FixedRoutes rtr !! _).
Qed.

Lemma serve_routes_first (routes : Routes) (nf : HandlerFunc)
      (path : string) (r : Request) :
  ∃ h, serve_routes routes nf path r = [(h, run h r)]
       ∧ ((∃ pre rr post,
              routes = pre ++ rr :: post ∧ no_match path pre
              ∧ regexp.MatchString (Pattern rr) path = true ∧ h = Func rr)
          ∨ (no_match path routes ∧ h = nf)).
Proof.
  induction routes as [|rr routes IH]; simpl.
  - exists nf. split; [done|]. right. split; [constructor | done].
  - destruct (regexp.MatchString (Pattern rr) path) eqn:Hm.
    + exists (Func rr). split; [done|]. left.
      exists [], rr, routes. repeat split; [constructor | done].
    + destruct IH as (h & -> & [(pre & rr' & post & -> & Hpre & Hrr & ->) | [Hno ->]]).
      * exists (Func rr'). split; [done|]. left.
        exists (rr :: pre), rr', post. repeat split; [|done].
        by constructor.
      * exists nf. split; [done|]. right. split; [by constructor | done].
Qed.

Lemma first_match_unique (path : string) (pre pre' post post' : Routes)
      (rr rr' : Route) :
  pre ++ rr :: post = pre' ++ rr' :: post' →
  no_match path pre → regexp.MatchString (Pattern rr) path = true →
  no_match path pre' → regexp.MatchString (Pattern rr') path = true →
  rr = rr'.
Proof.
  revert pre'. induction pre as [|x pre IH]; intros [|x' pre'] Heq Hpre Hrr Hpre' Hrr';
    simplify_eq/=; try done.
  - apply Forall_cons in Hpre' as [? _]. congruence.
  - apply Forall_cons in Hpre as [? _]. congruence.
  - apply Forall_cons in Hpre as [_ ?]. apply Forall_cons in Hpre' as [_ ?].
    by eapply IH.
Qed.

Lemma resolves_unique (rtr : Router) (path : string) (h h' : HandlerFunc) :
  resolves rtr path h → resolves rtr path h' → h = h'.
Proof.
  unfold resolves. destruct (FixedRoutes rtr !! path); [congruence|].
  intros [(pre & rr & post & Heq & Hpre & Hrr & ->) | [Hno ->]]
         [(pre' & rr' & post' & Heq' & Hpre' & Hrr' & ->) | [Hno' ->]]; try done.
  - f_equal. apply (first_match_unique path pre pre' post post'); [congruence|done..].
  - rewrite Heq in Hno'. apply Forall_app in Hno' as [_ Hno'].
    apply Forall_cons in Hno' as [? _]. congruence.
  - rewrite Heq' in Hno. apply Forall_app in Hno as [_ Hno].
    apply Forall_cons in Hno as [? _]. congruence.
Qed.

Lemma dispatch_resolves (rtr : Router) (r : Request) :
  ∃ h, (Router_ServeHTTP rtr r).2 = [(h, run h r)]
       ∧ resolves rtr (match_path rtr (Path r)) h.
Proof.
  rewrite Router_ServeHTTP_calls. unfold resolves.
  destruct (FixedRoutes rtr !! match_path rtr (Path r)) as [f|]; [by exists f|].
  apply serve_routes_first.
Qed.

(** C5: every dispatch calls exactly one handler, and that handler is the
    one the resolution order designates for the path the router matches
    (the request path, stripped of its trailing separator when that
    applies): the fixed route, else the first matching pattern route in
    stored order, else the not-found handler. *)
Theorem dispatch_calls_the_resolved_handler (rtr : Router) (r : Request) :
  ∃ h, (Router_ServeHTTP rtr r).2 = [(h, run h r)]
       ∧ resolves rtr (match_path rtr (Path r)) h
       ∧ ∀ h', resolves rtr (match_path rtr (Path r)) h' → h' = h.
Proof.
  destruct (dispatch_resolves rtr r) as (h & Hc & Hr).
  exists h. repeat split; [done..|].
  intros h' Hr'. by eapply resolves_unique.
Qed.

End dispatch.

(** C6: with the option on, a path longer than the root that ends with the
    separator is matched without it, so that [/foo/] reaches the route
    registered as [/foo]; the root [/] is never stripped, no more than a
    path that does not end with the separator; with the option off, which
    is the default, the path is matched as it is. *)
Theorem trailing_separator_is_stripped `{regexp.Engine} :
  (∀ rtr p, Strip rtr = true → p ≠ "" → match_path rtr (p +:+ "/") = p)
  ∧ (∀ rtr, match_path rtr "/" = "/")
  ∧ (∀ rtr path, Strings.HasSuffix path "/" = false → match_path rtr path = path)
  ∧ (∀ rtr path, Strip rtr = false → match_path rtr path = path)
  ∧ Strip NewRouter = false
  ∧ (∀ rtr r f, Strip rtr = true → Path r = "/foo/" →
       FixedRoutes rtr !! "/foo" = Some f →
       (Router_ServeHTTP rtr r).2 = [(f, run f r)]).
Proof.
  assert (∀ rtr p, Strip rtr = true → p ≠ "" → match_path rtr (p +:+ "/") = p) as Hs.
  { intros rtr p Hstrip Hp. unfold match_path, stripped.
    rewrite Hstrip, StringFacts.HasSuffix_app, StringFacts.TrimSuffix_app.
    assert ((1 <? Strings.len (p +:+ "/")) = true) as ->; [|done].
    apply Nat.ltb_lt. rewrite StringFacts.len_app.
    destruct p; [done|]. unfold Strings.len. simpl. lia. }
  repeat split.
  - done.
  - intros rtr. unfold match_path, stripped. simpl. by rewrite andb_false_r.
  - intros rtr path Hsuf. unfold match_path, stripped. rewrite Hsuf.
    by rewrite andb_false_r.
  - intros rtr path Hstrip. unfold match_path, stripped. by rewrite Hstrip.
  - intros rtr r f Hstrip Hpath Hf. rewrite Router_ServeHTTP_calls, Hpath.
    change "/foo/" with ("/foo" +:+ "/"). rewrite Hs by done. by rewrite Hf.
Qed.

Lemma trailing_separator_is_stripped_witness :
  match_path (stripping NewRouter) "/a/b/" = "/a/b".
Proof.
  apply (proj1 (trailing_separator_is_stripped (H := RE2.engine))
               (stripping NewRouter) "/a/b"); done.
Defined.

(** ** Registration *)

Section registration.
Context `{regexp.Engine}.

Lemma addFixedRoute_present (rtr : Router) (pattern : string) (f : HandlerFunc) :
  is_Some (FixedRoutes rtr !! pattern) →
  addFixedRoute rtr pattern f = Returns (Some ("Key exists: " +:+ pattern)) rtr.
Proof. intros [f0 Hf0]. unfold addFixedRoute. by rewrite Hf0. Qed.

Lemma addFixedRoute_error (rtr rtr' : Router) (pattern msg : string)
      (f : HandlerFunc) :
  addFixedRoute rtr pattern f = Returns (Some msg) rtr' →
  rtr' = rtr ∧ is_Some (FixedRoutes rtr !! pattern).
Proof.
  unfold addFixedRoute. destruct (FixedRoutes rtr !! pattern) eqn:Hl; [|done].
  intros [= _ ->]. eauto.
Qed.

Lemma has_source_true (routes : Routes) (src : string) :
  has_source routes src = true ↔
  ∃ rr, rr ∈ routes ∧ regexp.String (Pattern rr) = src.
Proof.
  unfold has_source. rewrite existsb_exists. split.
  - intros (rr & Hin & Heq%String.eqb_eq). exists rr.
    by rewrite list_elem_of_In.
  - intros (rr & Hin & Heq). exists rr. rewrite <- list_elem_of_In.
    by rewrite String.eqb_eq.
Qed.

Lemma addRoute_present (rtr : Router) (pattern : string) (f : HandlerFunc) :
  regexp.compiles pattern = true →
  (∃ rr, rr ∈ Routes_ rtr ∧ regexp.String (Pattern rr) = pattern) →
  addRoute rtr pattern f = Returns (Some ("Key exists: " +:+ pattern)) rtr.
Proof.
  intros Hc Hdup%has_source_true. unfold addRoute, regexp.MustCompile.
  rewrite Hc. unfold has_source in Hdup. simpl. by rewrite Hdup.
Qed.

Lemma addRoute_error (rtr rtr' : Router) (pattern msg : string)
      (f : HandlerFunc) :
  addRoute rtr pattern f = Returns (Some msg) rtr' →
  rtr' = rtr ∧ ∃ rr, rr ∈ Routes_ rtr ∧ regexp.String (Pattern rr) = pattern.
Proof.
  unfold addRoute, regexp.MustCompile.
  destruct (regexp.compiles pattern); [|done]. simpl.
  destruct (existsb _ _) eqn:Hex; [|done].
  intros [= _ ->]. split; [done|]. by apply has_source_true.
Qed.

(** A duplicate registration through [HandleFunc] returns nothing and
    changes nothing; the only failure its caller can see is the panic of
    an expression that does not compile. *)
Lemma HandleFunc_duplicate (rtr : Router) (declaration : string)
      (f : HandlerFunc) :
  duplicate rtr declaration →
  HandleFunc rtr declaration f = Returns () rtr
  ∨ HandleFunc rtr declaration f = Panics.
Proof.
  unfold duplicate, compile, HandleFunc, addProcessedParameterRoute.
  destruct (Param.FindAllString declaration) as [|v vars] eqn:Hvars; simpl.
  - destruct (CheckRegexp rtr); simpl.
    + destruct (String.eqb _ _); simpl.
      * intros Hd. left. by rewrite addFixedRoute_present.
      * intros Hd. unfold addRoute, regexp.MustCompile.
        destruct (regexp.compiles declaration); [|by right]. left.
        apply has_source_true in Hd. unfold has_source in Hd. simpl.
        by rewrite Hd.
    + intros Hd. left. by rewrite addFixedRoute_present.
  - destruct (substitute declaration (v :: vars)) as [src varNames].
    intros Hd. unfold addRoute, regexp.MustCompile.
    destruct (regexp.compiles src); [|by right]. left.
    apply has_source_true in Hd. unfold has_source in Hd. simpl.
    by rewrite Hd.
Qed.

(** C8: a registration that fails on a duplicate leaves the router, and
    with it the fixed-route map and the pattern list, exactly as it
    was. *)
Theorem failed_registration_keeps_table (rtr rtr' : Router)
        (pattern : string) (f : HandlerFunc) :
  (∀ msg, addFixedRoute rtr pattern f = Returns (Some msg) rtr' → rtr' = rtr)
  ∧ (∀ msg, addRoute rtr pattern f = Returns (Some msg) rtr' → rtr' = rtr)
  ∧ (duplicate rtr pattern →
     HandleFunc rtr pattern f = Returns () rtr' → rtr' = rtr).
Proof.
  repeat split.
  - intros msg Hadd. by apply addFixedRoute_error in Hadd as [-> _].
  - intros msg Hadd. by apply addRoute_error in Hadd as [-> _].
  - intros Hd Hh. destruct (HandleFunc_duplicate rtr pattern f Hd) as [Hr|Hr];
      rewrite Hr in Hh; by simplify_eq.
Qed.

End registration.

Lemma failed_registration_keeps_table_witness :
  registered (H := RE2.engine) router_api "/api[/]*$" "second" = router_api.
Proof.
  apply (proj2 (proj2 (failed_registration_keeps_table
                         (H := RE2.engine) router_api
                         (registered (H := RE2.engine) router_api "/api[/]*$" "second")
                         "/api[/]*$" (UserFunc "second")))).
  - vm_compute. eexists. split; [apply list_elem_of_here | reflexivity].
  - vm_compute. reflexivity.
Defined.

(** C2, as the specification states it, fails: registering the literal
    [/a] a second time, or the pattern [/api[/]*$] a second time, through
    [HandleFunc] is a duplicate, and the caller sees no failure. *)
Lemma duplicate_is_not_reported :
  (duplicate router_a "/a"
   ∧ HandleFunc (H := RE2.engine) router_a "/a" (UserFunc "second")
     = Returns () router_a
   ∧ ¬ raises (HandleFunc (H := RE2.engine) router_a "/a" (UserFunc "second")))
  ∧ (duplicate router_api "/api[/]*$"
     ∧ HandleFunc (H := RE2.engine) router_api "/api[/]*$" (UserFunc "second")
       = Returns () router_api
     ∧ ¬ raises (HandleFunc (H := RE2.engine) router_api "/api[/]*$"
                            (UserFunc "second"))).
Proof.
  split; (split; [|split]).
  - vm_compute. eexists. reflexivity.
  - vm_compute. reflexivity.
  - unfold raises. vm_compute. discriminate.
  - vm_compute. eexists. split; [apply list_elem_of_here | reflexivity].
  - vm_compute. reflexivity.
  - unfold raises. vm_compute. discriminate.
Qed.

(** ** The variable carrier *)

Lemma add_vars_is_Some (form : url.Values) (varNames vars : list string) (i : nat) :
  i ≤ length vars →
  is_Some (add_vars form varNames vars i) ↔ i + length varNames ≤ length vars.
Proof.
  revert form i. induction varNames as [|vn varNames IH]; intros form i Hi; simpl.
  - split; [lia | eauto].
  - destruct (vars !! i) as [v|] eqn:Hv.
    + apply lookup_lt_Some in Hv. rewrite IH by lia. lia.
    + apply lookup_ge_None in Hv. split; [by intros [? ?] | lia].
Qed.

(** C9: [ParameterRoute.ServeHTTP] matches the path of the request it is
    given, which is the original one, and slices and indexes the result
    unguarded.  It faults when that path does not match or yields fewer
    groups than there are variable names, and goes on to the wrapped
    function otherwise, the path unchanged.  That the router selected the
    route on the stripped path does not make the original path match:
    with stripping on and the route [/u/<id>x$], the request [/u/ax/] is
    matched as [/u/ax], which selects the route, and the carrier
    panics. *)
Theorem carrier_matches_the_original_path :
  (∀ (E : regexp.Engine) pr r,
      regexp.MatchString (Regexp pr) (Path r) = false
      ∨ length (regexp.FindStringSubmatch (Regexp pr) (Path r))
        ≤ length (VarNames pr) →
      ParameterRoute_ServeHTTP pr r = Panicked)
  ∧ (∀ (E : regexp.Engine) pr r,
      regexp.MatchString (Regexp pr) (Path r) = true →
      length (VarNames pr)
      < length (regexp.FindStringSubmatch (Regexp pr) (Path r)) →
      ∃ r', Path r' = Path r
            ∧ ParameterRoute_ServeHTTP pr r = run (pr_Func pr) r')
  ∧ (∀ (E : regexp.Engine) rtr r,
      ∃ h, (Router_ServeHTTP rtr r).2 = [(h, run h r)]
           ∧ resolves rtr (match_path rtr (Path r)) h)
  ∧ (let r := request "/u/ax/" in
     let pr := Build_ParameterRoute (UserFunc "show") ["id"]
                 {| regexp.expr := "/u/([A-z0-9_].*?)x$" |} in
     match_path router_u (Path r) = "/u/ax"
     ∧ Routes_ router_u
       = [{| Pattern := {| regexp.expr := "/u/([A-z0-9_].*?)x$" |};
             Func := pr_ServeHTTP pr |}]
     ∧ regexp.MatchString (H := RE2.engine) (Regexp pr) "/u/ax" = true
     ∧ regexp.MatchString (H := RE2.engine) (Regexp pr) (Path r) = false
     ∧ Router_ServeHTTP (H := RE2.engine) router_u r
       = ([], [(pr_ServeHTTP pr, Panicked)])).
Proof.
  split; [|split; [|split]].
  - intros E [f names re] r; simpl. unfold regexp.MatchString.
    destruct (regexp.FindStringSubmatch re (Path r)) as [|m vars] eqn:Hm; [done|].
    intros [?|Hlen]; [done|]. simpl in Hlen.
    destruct (add_vars ∅ names vars 0) eqn:Ha; [|done].
    assert (is_Some (add_vars ∅ names vars 0)) as Hs by eauto.
    apply add_vars_is_Some in Hs; lia.
  - intros E [f names re] r; simpl. unfold regexp.MatchString.
    destruct (regexp.FindStringSubmatch re (Path r)) as [|m vars] eqn:Hm; [done|].
    intros _ Hlen. simpl in Hlen.
    destruct (add_vars_is_Some ∅ names vars 0) as [_ [form ->]]; [lia..|].
    by eexists {| Path := Path r |}.
  - intros E rtr r. apply dispatch_resolves.
  - vm_compute. by repeat split.
Qed.

Lemma carrier_matches_the_original_path_witness :
  ParameterRoute_ServeHTTP (H := RE2.engine)
    (Build_ParameterRoute (UserFunc "show") ["id"]
       {| regexp.expr := "/u/([A-z0-9_].*?)x$" |})
    (request "/u/ax/") = Panicked.
Proof.
  apply (proj1 carrier_matches_the_original_path RE2.engine).
  left. vm_compute. reflexivity.
Defined.

(** ** Reading the variables back *)

(** C4 at the inputs where the code departs from it.  [Parse] tests the
    length of the first value, a string, where the number of values is
    meant: a key with the single value [ab] is listed in the second map,
    with no values, and a key with the two values [a] and [b] is not
    listed.  The round trip of the specification comes out right, its
    first value being longer than one byte. *)
Theorem Parse_tests_the_length_of_the_first_value :
  (let r := {| Method := "GET"; Path := "/"; RawQuery := [("k", "ab")];
               PostForm := [] |} in
   ParseForm r !! "k" = Some ["ab"]
   ∧ (Parse r).1 !! "k" = Some "ab" ∧ (Parse r).2 !! "k" = Some [])
  ∧ (let r := {| Method := "GET"; Path := "/";
                 RawQuery := [("j", "a"); ("j", "b")]; PostForm := [] |} in
     ParseForm r !! "j" = Some ["a"; "b"]
     ∧ (Parse r).1 !! "j" = Some "a" ∧ (Parse r).2 !! "j" = None)
  ∧ (let r := {| Method := "GET"; Path := "/";
                 RawQuery := [("name", "alice"); ("name", "bob")];
                 PostForm := [] |} in
     (Parse r).1 !! "name" = Some "alice"
     ∧ (Parse r).2 !! "name" = Some ["bob"]).
Proof. vm_compute. by repeat split. Qed.

(** ** The tokens of a declaration *)

(** C7 at the input where the code departs from it.  The class of
    [ParamRegex] is written [A-z], which holds the six bytes between [Z]
    and [a]: [<a^b>] is taken as a variable token, and the declaration is
    registered as a variable pattern with the name [a^b]. *)
Theorem token_name_admits_punctuation :
  Param.FindAllString "/x/<a^b>" = ["<a^b>"]
  ∧ compile true "/x/<a^b>" = VariablePattern "/x/([A-z0-9_].*?)" ["a^b"]
  ∧ Routes_ (registered (H := RE2.engine) NewRouter "/x/<a^b>" "f")
    = [{| Pattern := {| regexp.expr := "/x/([A-z0-9_].*?)" |};
          Func := pr_ServeHTTP
                    (Build_ParameterRoute (UserFunc "f") ["a^b"]
                       {| regexp.expr := "/x/([A-z0-9_].*?)" |}) |}].
Proof. vm_compute. by repeat split. Qed.

(** ** The tokens of a declaration and their replacement *)

Module TokenFacts.
  Import Strings StringFacts.

Lemma HasPrefix_app (p q : string) : HasPrefix (p +:+ q) p = true.
Proof.
  induction p as [|c p IH]; [done|].
  rewrite app_cons. simpl. by rewrite Ascii.eqb_refl.
Qed.

Lemma HasPrefix_cons (d c : ascii) (s p : string) :
  HasPrefix (String d s) (String c p) = Ascii.eqb c d && HasPrefix s p.
Proof. reflexivity. Qed.

Lemma HasPrefix_inv (s p : string) :
  HasPrefix s p = true → s = p +:+ drop (len p) s.
Proof.
  revert s. induction p as [|c p IH]; intros [|d s]; simpl; try done.
  intros [->%Ascii.eqb_eq Hp]%andb_true_iff.
  rewrite app_cons. f_equal. by apply IH.
Qed.

Lemma Replace1_unfold (s old new : string) :
  Replace1 s old new =
    if HasPrefix s old then new +:+ drop (len old) s
    else match s with
         | EmptyString => EmptyString
         | String c s' => String c (Replace1 s' old new)
         end.
Proof. by destruct s. Qed.

Lemma Replace1_head (t rest new : string) :
  Replace1 (t +:+ rest) t new = new +:+ rest.
Proof. by rewrite Replace1_unfold, HasPrefix_app, drop_app. Qed.

Lemma token_cons (n : string) : Param.token n = String "<" (n +:+ ">").
Proof. reflexivity. Qed.

Lemma token_app (n rest : string) :
  Param.token n +:+ rest = String "<" (n +:+ String ">" rest).
Proof. by rewrite token_cons, app_cons, app_assoc. Qed.

Lemma slice_token (n : string) :
  slice (Param.token n) 1 (len (Param.token n) - 1) = n.
Proof.
  rewrite token_cons. unfold slice, len. simpl.
  replace (String.length (n +:+ ">") - 0 - 1) with (len n).
  - apply take_app.
  - change (String.length (n +:+ ">")) with (len (n +:+ ">")).
    rewrite len_app. unfold len. simpl. lia.
Qed.

Lemma class_not_gt (c : ascii) : Param.class c = true → Ascii.eqb c ">" = false.
Proof. destruct c as [[] [] [] [] [] [] [] []]; by vm_compute. Qed.

Lemma class_not_paren (c : ascii) :
  Param.class c = true → Ascii.eqb c "(" = false.
Proof. destruct c as [[] [] [] [] [] [] [] []]; by vm_compute. Qed.

Lemma name_at_app (n rest : string) :
  all_bytes Param.class n = true →
  Param.name_at (n +:+ String ">" rest) = Some (n, rest).
Proof.
  induction n as [|c n IH]; [done|].
  intros Hn. simpl in Hn. apply andb_true_iff in Hn as [Hc Hn].
  rewrite app_cons. simpl.
  by rewrite (class_not_gt c Hc), Hc, (IH Hn).
Qed.

Lemma name_at_Some (s n rest : string) :
  Param.name_at s = Some (n, rest) →
  s = n +:+ String ">" rest ∧ all_bytes Param.class n = true.
Proof.
  revert n. induction s as [|c s IH]; intros n; simpl; [done|].
  destruct (Ascii.eqb_spec c ">") as [->|Hne].
  - by intros [= <- <-].
  - destruct (Param.class c) eqn:Hc; [|done].
    destruct (Param.name_at s) as [[n' rest']|] eqn:Hs; [|done].
    intros [= <- <-]. destruct (IH n' eq_refl) as [-> Hn'].
    split; [done|]. simpl. by rewrite Hc.
Qed.

Lemma match_at_cons (c : ascii) (s : string) :
  Param.match_at (String c s) = if Ascii.eqb c "<" then Param.name_at s else None.
Proof. destruct c as [[] [] [] [] [] [] [] []]; reflexivity. Qed.

Lemma match_at_Some (s n rest : string) :
  Param.match_at s = Some (n, rest) →
  s = Param.token n +:+ rest ∧ all_bytes Param.class n = true.
Proof.
  destruct s as [|c s]; [done|]. rewrite match_at_cons.
  destruct (Ascii.eqb_spec c "<") as [->|]; [|done].
  intros [-> Hn]%name_at_Some. by rewrite token_app.
Qed.

Lemma match_at_token (n rest : string) :
  all_bytes Param.class n = true →
  Param.match_at (Param.token n +:+ rest) = Some (n, rest).
Proof. intros Hn. rewrite token_app, match_at_cons. simpl. by apply name_at_app. Qed.

Lemma match_at_None (s n : string) :
  Param.match_at s = None → all_bytes Param.class n = true →
  HasPrefix s (Param.token n) = false.
Proof.
  intros Hs Hn. destruct (HasPrefix s (Param.token n)) eqn:Hp; [|done].
  apply HasPrefix_inv in Hp. rewrite Hp, match_at_token in Hs; done.
Qed.

Lemma len_match_at (s n rest : string) :
  Param.match_at s = Some (n, rest) → len rest < len s.
Proof.
  intros [-> _]%match_at_Some. rewrite token_app. unfold len. simpl.
  change (String.length (n +:+ String ">" rest)) with (len (n +:+ String ">" rest)).
  rewrite len_app. unfold len. simpl. lia.
Qed.

Lemma token_not_paren (n : string) :
  all_bytes Param.class n = true → all_bytes not_paren (Param.token n) = true.
Proof.
  intros Hn. rewrite token_cons. simpl.
  induction n as [|c n IH]; [done|].
  simpl in Hn. apply andb_true_iff in Hn as [Hc Hn].
  rewrite app_cons. simpl. unfold not_paren at 1.
  by rewrite (class_not_paren c Hc), (IH Hn).
Qed.

Lemma HasPrefix_before_paren (x z y p : string) :
  all_bytes not_paren p = true →
  HasPrefix (x +:+ String "(" z) p = true → HasPrefix (x +:+ y) p = true.
Proof.
  revert p. induction x as [|d x IH]; intros [|c p]; try done.
  - rewrite app_nil_l. simpl. unfold not_paren.
    destruct (Ascii.eqb c "("); [done|]. by intros _ ?.
  - rewrite !app_cons. simpl.
    intros [_ Hp]%andb_true_iff [-> Hx]%andb_true_iff.
    by rewrite (IH p Hp Hx).
Qed.

Lemma token_free_app_cons (c : ascii) (done s : string) :
  token_free (String c done) s ↔
  (∀ n, all_bytes Param.class n = true →
        HasPrefix (String c done +:+ s) (Param.token n) = false)
  ∧ token_free done s.
Proof. reflexivity. Qed.

Lemma token_free_not_lt (done s : string) :
  all_bytes not_lt done = true → token_free done s.
Proof.
  induction done as [|c done IH]; [done|].
  intros Hd. simpl in Hd. apply andb_true_iff in Hd as [Hc Hd].
  apply token_free_app_cons. split; [|by apply IH].
  intros n _. rewrite token_cons, app_cons, HasPrefix_cons.
  unfold not_lt in Hc. rewrite Ascii.eqb_sym. by destruct (Ascii.eqb c "<").
Qed.

(** A replaced token leaves no token behind. *)
Lemma token_free_replaced (done n rest : string) :
  token_free done (Param.token n +:+ rest) →
  token_free (done +:+ ParamMatch) rest.
Proof.
  induction done as [|d done IH].
  - intros _. rewrite app_nil_l. by apply token_free_not_lt.
  - rewrite app_cons, !token_free_app_cons. intros [Hd Hfree].
    split; [|by apply IH].
    intros n' Hn'.
    destruct (HasPrefix (String d (done +:+ ParamMatch) +:+ rest) (Param.token n'))
      eqn:Hp; [|done].
    rewrite <- (Hd n' Hn'). symmetry.
    rewrite <- app_cons, app_assoc in Hp.
    eapply HasPrefix_before_paren; [by apply token_not_paren | exact Hp].
Qed.

(** A byte at which no token starts can join what was read. *)
Lemma token_free_snoc (done : string) (c : ascii) (s : string) :
  token_free done (String c s) → Param.match_at (String c s) = None →
  token_free (done +:+ String c "") s.
Proof.
  intros Hfree Hm. induction done as [|d done IH].
  - rewrite app_nil_l, token_free_app_cons. split; [|done].
    intros n Hn. by apply match_at_None.
  - rewrite app_cons, token_free_app_cons.
    apply token_free_app_cons in Hfree as [Hd Hfree]. split; [|by apply IH].
    intros n Hn. rewrite <- app_cons, app_assoc. by apply Hd.
Qed.

Lemma Replace1_token_free (done s n new : string) :
  token_free done s → all_bytes Param.class n = true →
  Replace1 (done +:+ s) (Param.token n) new
  = done +:+ Replace1 s (Param.token n) new.
Proof.
  intros Hfree Hn. induction done as [|d done IH]; [done|].
  apply token_free_app_cons in Hfree as [Hd Hfree].
  rewrite Replace1_unfold, (Hd n Hn), !app_cons. by rewrite IH.
Qed.

(** The loop of the code and the single pass of the specification. *)
Lemma substitute_from (fuel : nat) (s done : string) (acc : list string) :
  len s < fuel → token_free done s →
  fold_left substitute_step (Param.FindAllString_from fuel s) (done +:+ s, acc)
  = (done +:+ Spec.replace_tokens_from fuel s,
     acc ++ Spec.token_names_from fuel s).
Proof.
  revert s done acc. induction fuel as [|fuel IH]; intros s done acc Hlen Hfree;
    [lia|].
  simpl. destruct (Param.match_at s) as [[n rest]|] eqn:Hm.
  - pose proof (len_match_at _ _ _ Hm) as Hrest.
    apply match_at_Some in Hm as [-> Hn]. simpl.
    rewrite Replace1_token_free, Replace1_head, slice_token by done.
    rewrite <- app_assoc, IH; [|lia|by eapply token_free_replaced].
    by rewrite !app_assoc, <- (assoc_L (++)).
  - destruct s as [|c s].
    + simpl. by rewrite (right_id_L [] (++)).
    + replace (done +:+ String c s) with ((done +:+ String c "") +:+ s)
        by by rewrite app_assoc.
      rewrite IH; [|unfold len in *; simpl in *; lia|by apply token_free_snoc].
      by rewrite app_assoc.
Qed.

Lemma substitute_replace_tokens (declaration : string) :
  substitute declaration (Param.FindAllString declaration)
  = (Spec.replace_tokens declaration, Spec.token_names declaration).
Proof.
  exact (substitute_from (S (len declaration)) declaration "" []
                         (Nat.lt_succ_diag_r _) I).
Qed.

Lemma FindAllString_names (fuel : nat) (s : string) :
  Param.FindAllString_from fuel s = Param.token <$> Spec.token_names_from fuel s.
Proof.
  revert s. induction fuel as [|fuel IH]; intros s; [done|]. simpl.
  destruct (Param.match_at s) as [[n rest]|]; [by rewrite fmap_cons, IH|].
  destruct s; [done | apply IH].
Qed.

Lemma pieces_length (fuel : nat) (s : string) :
  length (Spec.pieces_from fuel s).1 = length (Spec.token_names_from fuel s).
Proof.
  revert s. induction fuel as [|fuel IH]; intros s; [done|]. simpl.
  destruct (Param.match_at s) as [[n rest]|].
  - specialize (IH rest). destruct (Spec.pieces_from fuel rest). simpl in *. lia.
  - destruct s as [|c s]; [done|]. specialize (IH s).
    by destruct (Spec.pieces_from fuel s) as [[|p ps] tl].
Qed.

(** The single pass puts the wildcard between the pieces. *)
Lemma replace_tokens_assemble (fuel : nat) (s : string) :
  len s < fuel →
  Spec.replace_tokens_from fuel s
  = Spec.assemble ParamMatch (Spec.pieces_from fuel s).
Proof.
  revert s. induction fuel as [|fuel IH]; intros s Hlen; [lia|]. simpl.
  destruct (Param.match_at s) as [[n rest]|] eqn:Hm.
  - apply len_match_at in Hm. rewrite IH by lia.
    by destruct (Spec.pieces_from fuel rest).
  - destruct s as [|c s]; [done|].
    rewrite IH by (unfold len in *; simpl in *; lia).
    by destruct (Spec.pieces_from fuel s) as [[|p ps] tl].
Qed.

(** The bound on the positions tried is never met. *)
Lemma FindAllString_from_fuel (fuel fuel' : nat) (s : string) :
  len s < fuel → len s < fuel' →
  Param.FindAllString_from fuel s = Param.FindAllString_from fuel' s.
Proof.
  revert fuel' s. induction fuel as [|fuel IH]; intros [|fuel'] s Hf Hf'; try lia.
  simpl. destruct (Param.match_at s) as [[n rest]|] eqn:Hm.
  - apply len_match_at in Hm. f_equal. apply IH; lia.
  - destruct s as [|c s]; [done|]. apply IH; unfold len in *; simpl in *; lia.
Qed.

(** A declaration is its pieces with its tokens between them. *)
Lemma declaration_weave (fuel : nat) (s : string) :
  len s < fuel →
  s = Spec.weave (Spec.pieces_from fuel s).1
                 (Param.token <$> Spec.token_names_from fuel s)
                 (Spec.pieces_from fuel s).2.
Proof.
  revert s. induction fuel as [|fuel IH]; intros s Hlen; [lia|].
  cbn [Spec.pieces_from Spec.token_names_from].
  destruct (Param.match_at s) as [[n rest]|] eqn:Hm.
  - pose proof (len_match_at _ _ _ Hm) as Hrest.
    apply match_at_Some in Hm as [-> _].
    specialize (IH rest ltac:(lia)).
    destruct (Spec.pieces_from fuel rest) as [ps tl].
    cbn [fst snd] in *. rewrite fmap_cons. cbn [Spec.weave].
    by rewrite app_nil_l, <- IH.
  - destruct s as [|c s]; [done|].
    specialize (IH s ltac:(unfold len in *; simpl in *; lia)).
    destruct (Spec.pieces_from fuel s) as [[|p ps] tl]; cbn [fst snd] in *.
    + cbn [Spec.weave] in *. by rewrite <- IH.
    + destruct (Spec.token_names_from fuel s) as [|n ns];
        [rewrite fmap_nil in * | rewrite fmap_cons in *];
        cbn [Spec.weave] in *; by rewrite app_cons, <- IH.
Qed.

Lemma assemble_weave (filler : string) (ps : list string) (tl : string) :
  Spec.assemble filler (ps, tl)
  = Spec.weave ps (replicate (length ps) filler) tl.
Proof.
  unfold Spec.assemble. simpl.
  induction ps as [|p ps IH]; [done|]. simpl. by rewrite IH.
Qed.

End TokenFacts.

(** ** [sort.Sort] sorts *)

Section sorting.
Context {A : Type} `{Inhabited A} (key : A → Z).
Context (I : sort.Interface (list A)).
Hypothesis Len_length : ∀ d, sort.Len d = length d.
Hypothesis Swap_swap : ∀ d i j, sort.Swap d i j = swap d i j.
Hypothesis Less_key :
  ∀ d i j, sort.Less d i j = bool_decide (key (d !!! i) < key (d !!! j))%Z.

Local Notation "d @ i" := (key (d !!! i)) (at level 20).

(** The instances of a hypothesis on two indices whose premises [lia]
    proves. *)
Local Ltac premises K :=
  lazymatch type of K with
  | ?P → _ =>
      let HP := fresh in
      assert P as HP by lia; specialize (K HP); clear HP; premises K
  | _ => idtac
  end.
Local Ltac inst H x y :=
  try (let K := fresh "K" in pose proof (H x y) as K; premises K).
Local Ltac on2 H x y := inst H x x; inst H x y; inst H y x; inst H y y.
Local Ltac on3 H x y z :=
  on2 H x y; inst H x z; inst H y z; inst H z x; inst H z y; inst H z z.
Local Ltac on4 H x y z w :=
  on3 H x y z; inst H x w; inst H y w; inst H z w;
  inst H w x; inst H w y; inst H w z; inst H w w.

(** *** Exchanges *)

Lemma length_swap (d : list A) (i j : nat) : length (swap d i j) = length d.
Proof. unfold swap. by rewrite !length_insert. Qed.

Lemma swap_lookup (d : list A) (i j k : nat) :
  i < length d → j < length d →
  swap d i j !!! k =
    if decide (k = j) then d !!! i else if decide (k = i) then d !!! j else d !!! k.
Proof.
  intros Hi Hj. unfold swap. rewrite !list_lookup_total_insert, !length_insert.
  repeat case_decide; try done; lia.
Qed.

Lemma swap_Permutation (d : list A) (i j : nat) :
  i < length d → j < length d → swap d i j ≡ₚ d.
Proof.
  intros Hi Hj. unfold swap.
  apply Permutation_insert_swap; by apply list_lookup_lookup_total_lt.
Qed.

(** *** Rearrangements *)

Lemma rearranged_trans (a b : nat) (d1 d2 d3 : list A) :
  rearranged a b d1 d2 → rearranged a b d2 d3 → rearranged a b d1 d3.
Proof.
  induction 1 as [|d d' i j Hi Hj Hb Hr IH]; [done|]. intros H3.
  apply (rearranged_swap a b d d3 i j); [done..|]. by apply IH.
Qed.

Lemma rearranged_length (a b : nat) (d d' : list A) :
  rearranged a b d d' → length d' = length d.
Proof. induction 1; [done|]. by rewrite length_swap in *. Qed.

Lemma rearranged_one (a b : nat) (d : list A) (i j : nat) :
  a ≤ i < b → a ≤ j < b → b ≤ length d → rearranged a b d (swap d i j).
Proof. intros. apply (rearranged_swap a b d _ i j); [done..|constructor]. Qed.

Lemma rearranged_mono (a b a' b' : nat) (d d' : list A) :
  rearranged a b d d' → a' ≤ a → b ≤ b' → b' ≤ length d →
  rearranged a' b' d d'.
Proof.
  induction 1 as [|d d' i j Hi Hj Hb Hr IH]; [constructor|]. intros.
  apply (rearranged_swap a' b' d d' i j); [lia..|].
  apply IH; [done..|]. by rewrite length_swap.
Qed.

Lemma rearranged_outside (a b : nat) (d d' : list A) (k : nat) :
  rearranged a b d d' → k < a ∨ b ≤ k → d' !!! k = d !!! k.
Proof.
  induction 1; [done|]. intros Hk. rewrite IHrearranged by done.
  rewrite swap_lookup by lia. repeat case_decide; try done; lia.
Qed.

Lemma rearranged_Permutation (a b : nat) (d d' : list A) :
  rearranged a b d d' → d' ≡ₚ d.
Proof.
  induction 1; [done|]. rewrite IHrearranged. apply swap_Permutation; lia.
Qed.

(** What holds of every element of the range still does. *)
Lemma rearranged_all (a b : nat) (d d' : list A) (P : A → Prop) :
  rearranged a b d d' →
  (∀ k, a ≤ k → k < b → P (d !!! k)) → ∀ k, a ≤ k → k < b → P (d' !!! k).
Proof.
  induction 1 as [|d d' i j Hi Hj Hb Hr IH]; [done|]. intros HP. apply IH.
  intros k ? ?. rewrite swap_lookup by lia. repeat case_decide; apply HP; lia.
Qed.

Lemma sorted_range_outside (a b : nat) (d d' : list A) (lo hi : nat) :
  rearranged a b d d' → hi ≤ a ∨ b ≤ lo →
  sorted_range key d lo hi → sorted_range key d' lo hi.
Proof.
  intros Hr Hout Hs i j ? ? ?.
  rewrite !(rearranged_outside a b d d') by (done || lia). by apply Hs.
Qed.

Lemma sorted_range_small (d : list A) (a b : nat) :
  b ≤ a + 1 → sorted_range key d a b.
Proof. intros ? i j ? ? ?. by replace j with i by lia. Qed.

Lemma Less_lt (d : list A) (i j : nat) :
  sort.Less d i j = true ↔ (d @ i < d @ j)%Z.
Proof. rewrite Less_key. apply bool_decide_eq_true. Qed.

Lemma Less_ge (d : list A) (i j : nat) :
  sort.Less d i j = false ↔ (d @ j ≤ d @ i)%Z.
Proof. rewrite Less_key, bool_decide_eq_false. lia. Qed.

(** *** [insertionSort] *)

Lemma insertionSort_shift_spec (a J : nat) (j : nat) (d : list A) :
  a ≤ j → j ≤ J → J < length d →
  sorted_range key d a j → sorted_range key d j (S J) →
  (∀ i k, a ≤ i → i < j → j < k → k ≤ J → (d @ i ≤ d @ k)%Z) →
  rearranged a (S J) d (sort.insertionSort_shift d a j)
  ∧ sorted_range key (sort.insertionSort_shift d a j) a (S J).
Proof.
  unfold sorted_range.
  revert d. induction j as [|j IH]; intros d Ha HJ Hlen Hlow Hhigh Hcross.
  - simpl. split; [constructor|]. by replace a with 0 by lia.
  - simpl. destruct (a <? S j) eqn:Haj; simpl.
    + apply Nat.ltb_lt in Haj. destruct (sort.Less d (S j) j) eqn:Hless.
      * apply Less_lt in Hless. rewrite Swap_swap.
        destruct (IH (swap d (S j) j)) as [Hr Hs]; try lia.
        -- by rewrite length_swap.
        -- intros i k ? ? ?. rewrite !swap_lookup by lia.
           repeat case_decide; try lia. apply Hlow; lia.
        -- intros i k ? ? ?. rewrite !swap_lookup by lia.
           repeat case_decide; try lia;
             on4 Hhigh i k j (S j); on4 Hcross i k j (S j); lia.
        -- intros i k ? ? ? ?. rewrite !swap_lookup by lia.
           repeat case_decide; try lia;
             on4 Hlow i k j (S j); on4 Hcross i k j (S j); lia.
        -- split; [|done].
           apply (rearranged_swap a (S J) d _ (S j) j); [lia..|exact Hr].
      * apply Less_ge in Hless. split; [constructor|].
        intros i k ? ? ?.
        destruct (decide (k < S j)); [apply Hlow; lia|].
        destruct (decide (S j ≤ i)); [apply Hhigh; lia|].
        on4 Hlow i k j (S j); on4 Hhigh i k j (S j); lia.
    + apply Nat.ltb_ge in Haj. split; [constructor|].
      intros i k ? ? ?. apply Hhigh; lia.
Qed.

Lemma insertionSort_loop_spec (a b n i : nat) (d : list A) :
  a < i → i + n ≤ b → b ≤ length d → sorted_range key d a i →
  let d' := fold_left (λ data i, sort.insertionSort_shift data a i) (seq i n) d in
  rearranged a b d d' ∧ sorted_range key d' a (i + n).
Proof.
  revert i d. induction n as [|n IH]; intros i d Hi Hn Hb Hs; simpl.
  - split; [constructor|]. by rewrite Nat.add_0_r.
  - destruct (insertionSort_shift_spec a i i d) as [Hr Hs']; try lia; try done.
    { apply sorted_range_small. lia. }
    destruct (IH (S i) (sort.insertionSort_shift d a i)) as [Hr' Hs'']; try lia.
    { by rewrite (rearranged_length _ _ _ _ Hr). }
    { done. }
    split.
    + eapply rearranged_trans; [|exact Hr'].
      eapply rearranged_mono; [exact Hr|lia..].
    + by replace (i + S n) with (S i + n) by lia.
Qed.

Lemma insertionSort_spec (d : list A) (a b : nat) :
  b ≤ length d →
  rearranged a b d (sort.insertionSort d a b)
  ∧ sorted_range key (sort.insertionSort d a b) a b.
Proof.
  intros Hb. unfold sort.insertionSort.
  destruct (decide (b ≤ a + 1)) as [Hsmall|Hbig].
  - replace (b - (a + 1)) with 0 by lia. simpl.
    split; [constructor | by apply sorted_range_small].
  - destruct (insertionSort_loop_spec a b (b - (a + 1)) (a + 1) d) as [Hr Hs];
      try lia.
    { apply sorted_range_small. lia. }
    split; [done|]. by replace (a + 1 + (b - (a + 1))) with b in Hs by lia.
Qed.

Lemma sorted_range_glue (d : list A) (a mid b : nat) :
  sorted_range key d a mid → sorted_range key d (S mid) b →
  (∀ i, a ≤ i → i < mid → (d @ i ≤ d @ mid)%Z) →
  (∀ k, mid < k → k < b → (d @ mid ≤ d @ k)%Z) →
  sorted_range key d a b.
Proof.
  unfold sorted_range. intros Hl Hr Hlo Hhi i k ? ? ?.
  destruct (decide (k < mid)); [apply Hl; lia|].
  destruct (decide (mid < i)); [apply Hr; lia|].
  assert (d @ i ≤ d @ mid)%Z
    by (destruct (decide (i = mid)) as [->|]; [lia | apply Hlo; lia]).
  assert (d @ mid ≤ d @ k)%Z
    by (destruct (decide (k = mid)) as [->|]; [lia | apply Hhi; lia]).
  lia.
Qed.

(** *** The two scans *)

Lemma scan_up_spec (fuel : nat) (p : nat → bool) (i j : nat) :
  S j - i ≤ fuel →
  let i' := sort.scan_up fuel p i j in
  i ≤ i' ∧ (i' ≤ S j ∨ i' = i) ∧ (∀ k, i ≤ k → k < i' → p k = true)
  ∧ (i' ≤ j → p i' = false).
Proof.
  revert i. induction fuel as [|fuel IH]; intros i Hfuel; simpl.
  - repeat split; try lia; intros; lia.
  - destruct (i <=? j) eqn:Hij; simpl.
    + apply Nat.leb_le in Hij. destruct (p i) eqn:Hp.
      * destruct (IH (S i)) as (? & ? & Hall & Hstop); [lia|].
        repeat split; try lia; [|done].
        intros k ? ?. destruct (decide (k = i)) as [->|]; [done|].
        apply Hall; lia.
      * repeat split; try lia; done.
    + apply Nat.leb_gt in Hij. repeat split; try lia; intros; lia.
Qed.

Lemma scan_down_spec (p : nat → bool) (i j : nat) :
  1 ≤ i →
  let j' := sort.scan_down p i j in
  j' ≤ j ∧ (i ≤ S j → i ≤ S j') ∧ (∀ k, j' < k → k ≤ j → p k = true)
  ∧ (i ≤ j' → p j' = false).
Proof.
  intros Hi. induction j as [|j IH]; simpl.
  - repeat split; try lia; intros; lia.
  - destruct (i <=? S j) eqn:Hij; simpl.
    + apply Nat.leb_le in Hij. destruct (p (S j)) eqn:Hp.
      * destruct IH as (? & ? & Hall & Hstop).
        repeat split; try lia; [|done].
        intros k ? ?. destruct (decide (k = S j)) as [->|]; [done|].
        apply Hall; lia.
      * repeat split; try lia; done.
    + apply Nat.leb_gt in Hij. repeat split; try lia; intros; lia.
Qed.

(** *** [partition] *)

Lemma partition_loop_spec (fuel : nat) (d : list A) (a b i j : nat) (P : Z) :
  a < i → j < b → b ≤ length d → i ≤ S j → S j - i < fuel → d @ a = P →
  (∀ k, a < k → k < i → (d @ k < P)%Z) →
  (∀ k, j < k → k < b → (P ≤ d @ k)%Z) →
  let d' := (sort.partition_loop fuel d a i j).1 in
  let j' := (sort.partition_loop fuel d a i j).2 in
  rearranged (S a) b d d' ∧ a ≤ j' ∧ j' < b
  ∧ (∀ k, a < k → k ≤ j' → (d' @ k < P)%Z)
  ∧ (∀ k, j' < k → k < b → (P ≤ d' @ k)%Z).
Proof.
  revert d i j. induction fuel as [|fuel IH];
    intros d i j Hi Hj Hb Hij Hfuel HP Hlow Hhigh; [lia|].
  simpl.
  destruct (scan_up_spec (S j - i) (λ i, sort.Less d i a) i j)
    as (Hi1 & Hi2 & Hup & Hupstop); [lia|].
  set (i' := sort.scan_up (S j - i) (λ i, sort.Less d i a) i j) in *.
  destruct (scan_down_spec (λ j, negb (sort.Less d j a)) i' j)
    as (Hj1 & Hj2 & Hdown & Hdownstop); [lia|].
  set (j' := sort.scan_down (λ j, negb (sort.Less d j a)) i' j) in *.
  assert (∀ k, a < k → k < i' → (d @ k < P)%Z) as Hlow'.
  { intros k ? ?. destruct (decide (k < i)); [by apply Hlow|].
    rewrite <- HP. apply Less_lt, Hup; lia. }
  assert (∀ k, j' < k → k < b → (P ≤ d @ k)%Z) as Hhigh'.
  { intros k ? ?. destruct (decide (j < k)); [by apply Hhigh|].
    rewrite <- HP. apply Less_ge. apply negb_true_iff, Hdown; lia. }
  destruct (j' <? i') eqn:Hji; simpl.
  - apply Nat.ltb_lt in Hji. split; [constructor|].
    repeat split; try lia; [|done]. intros k ? ?. apply Hlow'; lia.
  - apply Nat.ltb_ge in Hji.
    assert (P ≤ d @ i')%Z as Hi'.
    { rewrite <- HP. apply Less_ge, Hupstop. lia. }
    assert (d @ j' < P)%Z as Hj'.
    { rewrite <- HP. apply Less_lt. specialize (Hdownstop Hji).
      by apply negb_false_iff in Hdownstop. }
    assert (i' < j') by (destruct (decide (i' = j')) as [Heq|]; [rewrite Heq in *|]; lia).
    rewrite Swap_swap.
    destruct (IH (swap d i' j') (S i') (j' - 1)) as (Hr & ? & ? & Hl & Hh);
      try lia.
    + by rewrite length_swap.
    + rewrite swap_lookup by lia. repeat case_decide; try lia; try done.
    + intros k ? ?. rewrite swap_lookup by lia.
      repeat case_decide; subst; try lia. apply Hlow'; lia.
    + intros k ? ?. rewrite swap_lookup by lia.
      repeat case_decide; subst; try lia. apply Hhigh'; lia.
    + split; [|done].
      apply (rearranged_swap (S a) b d _ i' j'); [lia..|done].
Qed.

Lemma partition_unfold (d : list A) (a b pivot : nat) :
  (sort.partition d a b pivot).1 =
    let r := sort.partition_loop (S (b - a)) (sort.Swap d a pivot) a (a + 1) (b - 1) in
    (sort.Swap r.1 r.2 a, r.2).
Proof.
  unfold sort.partition. simpl.
  destruct (_ <? _); [done|]. by destruct (sort.partition_loop _ _ _ _ _).
Qed.

Lemma partition_spec (d : list A) (a b pivot : nat) :
  a ≤ pivot → pivot < b → b ≤ length d →
  let d' := (sort.partition d a b pivot).1.1 in
  let mid := (sort.partition d a b pivot).1.2 in
  rearranged a b d d' ∧ a ≤ mid ∧ mid < b
  ∧ (∀ k, a ≤ k → k < mid → (d' @ k < d' @ mid)%Z)
  ∧ (∀ k, mid < k → k < b → (d' @ mid ≤ d' @ k)%Z).
Proof.
  intros Ha Hp Hb. rewrite partition_unfold. cbv zeta. rewrite !Swap_swap.
  pose proof (partition_loop_spec (S (b - a)) (swap d a pivot) a b (a + 1)
                (b - 1) (swap d a pivot @ a)) as Hspec.
  destruct (sort.partition_loop _ _ _ _ _) as [d1 j1]. cbn [fst snd] in *.
  destruct Hspec as (Hr & ? & ? & Hl & Hh);
    [lia | lia | by rewrite length_swap | lia | lia | done
     | intros; lia | intros; lia |].
  assert (length d1 = length d) as Hlen.
  { by rewrite (rearranged_length _ _ _ _ Hr), length_swap. }
  assert (d1 @ a = swap d a pivot @ a) as Hra.
  { by rewrite (rearranged_outside _ _ _ _ a Hr) by lia. }
  split; [|repeat split; try lia].
  - apply (rearranged_trans _ _ _ (swap d a pivot)); [apply rearranged_one; lia|].
    apply (rearranged_trans _ _ _ d1).
    + eapply rearranged_mono; [exact Hr|try lia..]. by rewrite length_swap.
    + apply rearranged_one; lia.
  - intros k ? ?. rewrite !swap_lookup by lia.
    repeat case_decide; subst; try lia; rewrite Hra; apply Hl; lia.
  - intros k ? ?. rewrite !swap_lookup by lia.
    repeat case_decide; subst; try lia; rewrite Hra; apply Hh; lia.
Qed.

(** *** [partitionEqual] *)

Lemma partitionEqual_loop_spec (fuel : nat) (d : list A) (a b i j : nat) (P : Z) :
  a < i → j < b → b ≤ length d → i ≤ S j → S j - i < fuel → d @ a = P →
  (∀ k, a < k → k < i → (d @ k ≤ P)%Z) →
  (∀ k, j < k → k < b → (P < d @ k)%Z) →
  let d' := (sort.partitionEqual_loop fuel d a i j).1 in
  let i' := (sort.partitionEqual_loop fuel d a i j).2 in
  rearranged (S a) b d d' ∧ a < i' ∧ i' ≤ b
  ∧ (∀ k, a < k → k < i' → (d' @ k ≤ P)%Z)
  ∧ (∀ k, i' ≤ k → k < b → (P < d' @ k)%Z).
Proof.
  revert d i j. induction fuel as [|fuel IH];
    intros d i j Hi Hj Hb Hij Hfuel HP Hlow Hhigh; [lia|].
  simpl.
  destruct (scan_up_spec (S j - i) (λ i, negb (sort.Less d a i)) i j)
    as (Hi1 & Hi2 & Hup & Hupstop); [lia|].
  set (i' := sort.scan_up (S j - i) (λ i, negb (sort.Less d a i)) i j) in *.
  destruct (scan_down_spec (λ j, sort.Less d a j) i' j)
    as (Hj1 & Hj2 & Hdown & Hdownstop); [lia|].
  set (j' := sort.scan_down (λ j, sort.Less d a j) i' j) in *.
  assert (∀ k, a < k → k < i' → (d @ k ≤ P)%Z) as Hlow'.
  { intros k ? ?. destruct (decide (k < i)); [by apply Hlow|].
    rewrite <- HP. apply Less_ge. apply negb_true_iff, Hup; lia. }
  assert (∀ k, j' < k → k < b → (P < d @ k)%Z) as Hhigh'.
  { intros k ? ?. destruct (decide (j < k)); [by apply Hhigh|].
    rewrite <- HP. apply Less_lt, Hdown; lia. }
  destruct (j' <? i') eqn:Hji; simpl.
  - apply Nat.ltb_lt in Hji. split; [constructor|].
    repeat split; try lia; [done|]. intros k ? ?. apply Hhigh'; lia.
  - apply Nat.ltb_ge in Hji.
    assert (P < d @ i')%Z as Hi'.
    { rewrite <- HP. apply Less_lt. specialize (Hupstop ltac:(lia)).
      by apply negb_false_iff in Hupstop. }
    assert (d @ j' ≤ P)%Z as Hj'.
    { rewrite <- HP. apply Less_ge. by apply Hdownstop. }
    assert (i' < j') by (destruct (decide (i' = j')) as [Heq|]; [rewrite Heq in *|]; lia).
    rewrite Swap_swap.
    destruct (IH (swap d i' j') (S i') (j' - 1)) as (Hr & ? & ? & Hl & Hh);
      try lia.
    + by rewrite length_swap.
    + rewrite swap_lookup by lia. repeat case_decide; try lia; try done.
    + intros k ? ?. rewrite swap_lookup by lia.
      repeat case_decide; subst; try lia. apply Hlow'; lia.
    + intros k ? ?. rewrite swap_lookup by lia.
      repeat case_decide; subst; try lia. apply Hhigh'; lia.
    + split; [|done].
      apply (rearranged_swap (S a) b d _ i' j'); [lia..|done].
Qed.

Lemma partitionEqual_spec (d : list A) (a b pivot : nat) :
  a ≤ pivot → pivot < b → b ≤ length d →
  let d' := (sort.partitionEqual d a b pivot).1 in
  let mid := (sort.partitionEqual d a b pivot).2 in
  rearranged a b d d' ∧ a < mid ∧ mid ≤ b
  ∧ (∀ k, a ≤ k → k < mid → (d' @ k ≤ d @ pivot)%Z)
  ∧ (∀ k, mid ≤ k → k < b → (d @ pivot < d' @ k)%Z).
Proof.
  intros Ha Hp Hb. unfold sort.partitionEqual. rewrite Swap_swap.
  assert (swap d a pivot @ a = d @ pivot) as HP.
  { rewrite swap_lookup by lia. by repeat case_decide; subst. }
  pose proof (partitionEqual_loop_spec (b - a) (swap d a pivot) a b (a + 1)
                (b - 1) (d @ pivot)) as Hspec.
  destruct (sort.partitionEqual_loop _ _ _ _ _) as [d1 i1]. cbn [fst snd] in *.
  destruct Hspec as (Hr & ? & ? & Hl & Hh);
    [lia | lia | by rewrite length_swap | lia | lia | done
     | intros; lia | intros; lia |].
  split; [|repeat split; try lia; try done].
  - apply (rearranged_trans _ _ _ (swap d a pivot)); [apply rearranged_one; lia|].
    eapply rearranged_mono; [exact Hr|try lia..]. by rewrite length_swap.
  - intros k ? ?. destruct (decide (k = a)) as [->|]; [|apply Hl; lia].
    rewrite (rearranged_outside _ _ _ _ a Hr) by lia. lia.
Qed.

(** *** [reverseRange], [breakPatterns], [choosePivot] *)

Lemma reverseRange_loop_spec (fuel : nat) (d : list A) (a b i j : nat) :
  (i < j → a ≤ i ∧ j < b) → b ≤ length d →
  rearranged a b d (sort.reverseRange_loop fuel d i j).
Proof.
  revert d i j. induction fuel as [|fuel IH]; intros d i j Hij Hb; simpl;
    [constructor|].
  destruct (i <? j) eqn:Hlt; [|constructor]. apply Nat.ltb_lt in Hlt.
  rewrite Swap_swap. apply (rearranged_swap a b d _ i j); [lia..|].
  apply IH; [lia | by rewrite length_swap].
Qed.

Lemma reverseRange_spec (d : list A) (a b : nat) :
  b ≤ length d → rearranged a b d (sort.reverseRange d a b).
Proof. intros. apply reverseRange_loop_spec; [lia | done]. Qed.

Lemma bits_Len_bound (n : nat) :
  0 < n → (2 ^ Z.of_nat (sort.bits_Len n) ≤ 2 * Z.of_nat n)%Z.
Proof.
  intros Hn. unfold sort.bits_Len. destruct n as [|n]; [lia|].
  destruct (Nat.log2_spec (S n)) as [Hlo _]; [lia|].
  rewrite Nat2Z.inj_succ, Z.pow_succ_r by lia.
  apply Nat2Z.inj_le in Hlo. rewrite Nat2Z.inj_pow in Hlo. simpl in Hlo. lia.
Qed.

Lemma breakPatterns_other (length : nat) (random : Z) :
  0 < length →
  let other :=
    Z.to_nat (Z.land random (sort.nextPowerOfTwo length - 1)) in
  (if length <=? other then other - length else other) < length.
Proof.
  intros Hlen. unfold sort.nextPowerOfTwo. rewrite Z.shiftl_1_l.
  pose proof (bits_Len_bound length Hlen) as Hb.
  assert (0 < 2 ^ Z.of_nat (sort.bits_Len length))%Z by (apply Z.pow_pos_nonneg; lia).
  rewrite Z.sub_1_r, <- Z.ones_equiv, Z.land_ones by lia.
  pose proof (Z.mod_pos_bound random (2 ^ Z.of_nat (sort.bits_Len length))).
  cbv zeta. destruct (_ <=? _) eqn:Hle.
  - apply Nat.leb_le in Hle. lia.
  - apply Nat.leb_gt in Hle. lia.
Qed.

Lemma breakPatterns_spec (d : list A) (a b : nat) :
  b ≤ length d → rearranged a b d (sort.breakPatterns d a b).
Proof.
  intros Hb. unfold sort.breakPatterns. cbv zeta.
  destruct (8 <=? b - a) eqn:Hlen; [|constructor]. apply Nat.leb_le in Hlen.
  pose proof (Nat.div_mod_eq (b - a) 4) as Hdiv.
  pose proof (Nat.mod_upper_bound (b - a) 4 ltac:(lia)) as Hmod.
  set (q := (b - a) / 4) in *.
  match goal with |- context [fold_left ?f _ _] => set (step := f) end.
  assert (∀ (st : list A * Z) (i : nat),
            i ≤ 2 → length st.1 = length d →
            rearranged a b st.1 (step st i).1
            ∧ length (step st i).1 = length d) as Hstep.
  { intros [data random] i Hi Hl. unfold step. cbn [fst snd] in *.
    pose proof (breakPatterns_other (b - a) (sort.xorshift_Next random)
                  ltac:(lia)) as Ho.
    cbv zeta in Ho. rewrite Swap_swap, length_swap. split; [|done].
    apply rearranged_one; lia. }
  change (seq 0 3) with [0; 1; 2]. cbn [fold_left].
  destruct (Hstep (d, Z.of_nat (b - a)) 0) as [H0 L0]; [lia|done|].
  destruct (Hstep (step (d, Z.of_nat (b - a)) 0) 1) as [H1 L1]; [lia|done|].
  destruct (Hstep (step (step (d, Z.of_nat (b - a)) 0) 1) 2) as [H2 L2];
    [lia|done|].
  eapply rearranged_trans; [exact H0|].
  eapply rearranged_trans; [exact H1|exact H2].
Qed.

Lemma order2_spec (d : list A) (x y sw : nat) :
  let r := sort.order2 d x y sw in
  (r.1.1 = x ∧ r.1.2 = y) ∨ (r.1.1 = y ∧ r.1.2 = x).
Proof. unfold sort.order2. destruct (sort.Less d y x); cbn [fst snd]; auto. Qed.

Lemma median_spec (d : list A) (x y z sw : nat) :
  let m := (sort.median d x y z sw).1 in m = x ∨ m = y ∨ m = z.
Proof.
  unfold sort.median.
  pose proof (order2_spec d x y sw) as H1.
  destruct (sort.order2 d x y sw) as [[x1 y1] sw1]. cbn [fst snd] in H1.
  pose proof (order2_spec d y1 z sw1) as H2.
  destruct (sort.order2 d y1 z sw1) as [[y2 z2] sw2]. cbn [fst snd] in H2.
  pose proof (order2_spec d x1 y2 sw2) as H3.
  destruct (sort.order2 d x1 y2 sw2) as [[x3 y3] sw3]. cbn [fst snd] in *.
  lia.
Qed.

Lemma choosePivot_spec (d : list A) (a b : nat) :
  8 ≤ b - a →
  a ≤ (sort.choosePivot d a b).1 ∧ (sort.choosePivot d a b).1 < b.
Proof.
  intros Hlen. unfold sort.choosePivot. cbv zeta.
  pose proof (Nat.div_mod_eq (b - a) 4) as Hdiv.
  pose proof (Nat.mod_upper_bound (b - a) 4 ltac:(lia)) as Hmod.
  set (q := (b - a) / 4) in *.
  destruct (8 <=? b - a) eqn:H8; [|apply Nat.leb_gt in H8; lia].
  destruct (sort.shortestNinther <=? b - a) eqn:H50.
  - apply Nat.leb_le in H50. unfold sort.shortestNinther in H50.
    unfold sort.medianAdjacent.
    pose proof (median_spec d (a + q * 1 - 1) (a + q * 1) (a + q * 1 + 1) 0) as Hi.
    destruct (sort.median d (a + q * 1 - 1) _ _ 0) as [i sw1]. cbn [fst snd] in Hi.
    pose proof (median_spec d (a + q * 2 - 1) (a + q * 2) (a + q * 2 + 1) sw1) as Hj.
    destruct (sort.median d (a + q * 2 - 1) _ _ sw1) as [j sw2]. cbn [fst snd] in Hj.
    pose proof (median_spec d (a + q * 3 - 1) (a + q * 3) (a + q * 3 + 1) sw2) as Hk.
    destruct (sort.median d (a + q * 3 - 1) _ _ sw2) as [k sw3]. cbn [fst snd] in Hk.
    pose proof (median_spec d i j k sw3) as Hm.
    destruct (sort.median d i j k sw3) as [m sw4]. cbn [fst snd] in Hm.
    destruct (sw4 =? 0); [cbn [fst snd]; lia|].
    destruct (sw4 =? sort.maxSwaps); cbn [fst snd]; lia.
  - pose proof (median_spec d (a + q * 1) (a + q * 2) (a + q * 3) 0) as Hm.
    destruct (sort.median d _ _ _ 0) as [m sw]. cbn [fst snd] in Hm.
    destruct (sw =? 0); [cbn [fst snd]; lia|].
    destruct (sw =? sort.maxSwaps); cbn [fst snd]; lia.
Qed.

(** *** [partialInsertionSort] *)

Lemma bounded_below_rearranged (d d' : list A) (a b : nat) :
  rearranged a b d d' → bounded_below key d a b → bounded_below key d' a b.
Proof.
  intros Hr Hl Ha. rewrite (rearranged_outside _ _ _ _ (a - 1) Hr) by lia.
  apply (rearranged_all a b d d' (λ x, (d @ (a - 1)%nat ≤ key x)%Z) Hr).
  by apply Hl.
Qed.

Lemma shift_left_insertionSort_shift (d : list A) (a j : nat) :
  a ≤ j → j < length d → (0 < a → (d @ (a - 1)%nat ≤ d @ j)%Z) →
  sort.shift_left d j = sort.insertionSort_shift d a j.
Proof.
  revert d. induction j as [|j IH]; intros d Ha Hlen Hlow; [done|]. simpl.
  destruct (sort.Less d (S j) j) eqn:Hless; simpl.
  - apply Less_lt in Hless. destruct (a <? S j) eqn:Haj; simpl.
    + apply Nat.ltb_lt in Haj. rewrite Swap_swap. apply IH; try lia.
      * rewrite length_swap. lia.
      * intros ?. rewrite !swap_lookup by lia.
        repeat case_decide; try lia; apply Hlow; lia.
    + apply Nat.ltb_ge in Haj. replace a with (S j) in * by lia.
      simpl in Hlow. rewrite Nat.sub_0_r in Hlow. lia.
  - by rewrite andb_false_r.
Qed.

Lemma shift_right_spec (fuel : nat) (d : list A) (lo j b : nat) :
  lo < j → b ≤ length d →
  rearranged lo b d (sort.shift_right fuel d j b).
Proof.
  revert d j. induction fuel as [|fuel IH]; intros d j Hj Hb; simpl;
    [constructor|].
  destruct (j <? b) eqn:Hjb; [|constructor]. apply Nat.ltb_lt in Hjb.
  destruct (sort.Less d j (j - 1)); simpl; [|constructor].
  rewrite Swap_swap. apply (rearranged_swap lo b d _ j (j - 1)); [lia..|].
  apply IH; [lia | by rewrite length_swap].
Qed.

Lemma sorted_range_extend (d : list A) (a i i' : nat) :
  a < i → sorted_range key d a i →
  (∀ k, i ≤ k → k < i' → (d @ (k - 1)%nat ≤ d @ k)%Z) →
  sorted_range key d a i'.
Proof.
  unfold sorted_range. intros Ha Hs Hstep.
  induction i' as [|i' IH]; [intros; lia|].
  intros x y ? ? ?.
  destruct (decide (S i' ≤ i)); [apply Hs; lia|].
  assert (∀ x y, a ≤ x → x ≤ y → y < i' → (d @ x ≤ d @ y)%Z) as IH'.
  { apply IH. intros k ? ?. apply Hstep; lia. }
  destruct (decide (y < i')); [apply IH'; lia|].
  replace y with i' in * by lia.
  destruct (decide (x = i')) as [->|]; [lia|].
  pose proof (Hstep i'). pose proof (IH' x (i' - 1)).
  replace (i' - 1) with (i' - 1) in * by lia.
  destruct (decide (i' - 1 < a)); [lia|].
  destruct (decide (i ≤ i')); [|lia]. lia.
Qed.

Lemma partialInsertionSort_loop_spec (steps : nat) (d : list A) (a b i : nat) :
  a < i → i ≤ b → b ≤ length d → sorted_range key d a i →
  bounded_below key d a b →
  let d' := (sort.partialInsertionSort_loop steps d a b i).1 in
  let ok := (sort.partialInsertionSort_loop steps d a b i).2 in
  rearranged a b d d' ∧ (ok = true → sorted_range key d' a b).
Proof.
  revert d i. induction steps as [|steps IH]; intros d i Hi Hib Hb Hs Hlow; simpl.
  - split; [constructor | done].
  - destruct (scan_up_spec (b - i) (λ i, negb (sort.Less d i (i - 1))) i (b - 1))
      as (Hi1 & Hi2 & Hup & Hstop); [lia|].
    set (i' := sort.scan_up _ _ i (b - 1)) in *.
    assert (sorted_range key d a i') as Hs'.
    { apply (sorted_range_extend d a i i'); [done..|].
      intros k ? ?. apply Less_ge. apply negb_true_iff, Hup; lia. }
    destruct (i' =? b) eqn:Hib'; simpl.
    { apply Nat.eqb_eq in Hib'. split; [constructor|]. by rewrite <- Hib'. }
    apply Nat.eqb_neq in Hib'.
    destruct (b - a <? sort.shortestShifting); simpl; [split; [constructor|done]|].
    assert (i' < b) by lia.
    assert (d @ i' < d @ (i' - 1)%nat)%Z as Hinv.
    { apply Less_lt. specialize (Hstop ltac:(lia)).
      by apply negb_false_iff in Hstop. }
    rewrite Swap_swap.
    set (d1 := swap d i' (i' - 1)).
    assert (rearranged a b d d1) as Hr1 by (apply rearranged_one; lia).
    assert (length d1 = length d) as Hl1 by apply length_swap.
    assert (bounded_below key d1 a b) as Hlow1 by by eapply bounded_below_rearranged.
    set (d2 := if 2 <=? i' - a then sort.shift_left d1 (i' - 1) else d1).
    assert (rearranged a b d1 d2 ∧ sorted_range key d2 a i') as [Hr2 Hs2].
    { unfold d2. destruct (2 <=? i' - a) eqn:H2.
      - apply Nat.leb_le in H2.
        rewrite (shift_left_insertionSort_shift d1 a (i' - 1)); try lia.
        + destruct (insertionSort_shift_spec a (i' - 1) (i' - 1) d1)
            as [Hr Hsr]; [lia | lia | lia | | | intros; lia |].
          * intros x y ? ? ?. unfold d1. rewrite !swap_lookup by lia.
            repeat case_decide; try lia; apply Hs'; lia.
          * apply sorted_range_small. lia.
          * replace (S (i' - 1)) with i' in * by lia. split; [|done].
            eapply rearranged_mono; [exact Hr|lia..].
        + intros ?. apply Hlow1; lia.
      - apply Nat.leb_gt in H2. split; [constructor|].
        apply sorted_range_small. lia. }
    set (d3 := if 2 <=? b - i' then sort.shift_right (b - i') d2 (i' + 1) b else d2).
    assert (length d2 = length d) as Hl2.
    { by rewrite (rearranged_length _ _ _ _ Hr2). }
    assert (rearranged i' b d2 d3) as Hr3.
    { unfold d3. destruct (2 <=? b - i'); [|constructor].
      apply shift_right_spec; lia. }
    assert (rearranged a b d d3) as Hr.
    { eapply rearranged_trans; [exact Hr1|].
      eapply rearranged_trans; [exact Hr2|].
      eapply rearranged_mono; [exact Hr3|lia..]. }
    destruct (IH d3 i') as [Hr' Hok]; try lia.
    + by rewrite (rearranged_length _ _ _ _ Hr).
    + eapply sorted_range_outside; [exact Hr3|lia|done].
    + by eapply bounded_below_rearranged.
    + split; [|done]. by eapply rearranged_trans.
Qed.

Lemma partialInsertionSort_spec (d : list A) (a b : nat) :
  a < b → b ≤ length d → bounded_below key d a b →
  let d' := (sort.partialInsertionSort d a b).1 in
  let ok := (sort.partialInsertionSort d a b).2 in
  rearranged a b d d' ∧ (ok = true → sorted_range key d' a b).
Proof.
  intros. apply partialInsertionSort_loop_spec; try done; try lia.
  apply sorted_range_small. lia.
Qed.

(** *** [heapSort] *)

Lemma swap_l (d : list A) (i j : nat) :
  i < length d → j < length d → swap d i j !!! i = d !!! j.
Proof. intros. rewrite swap_lookup by done. by repeat case_decide; subst. Qed.

Lemma swap_r (d : list A) (i j : nat) :
  i < length d → j < length d → swap d i j !!! j = d !!! i.
Proof. intros. rewrite swap_lookup by done. by repeat case_decide; subst. Qed.

Lemma swap_ne (d : list A) (i j k : nat) :
  k ≠ i → k ≠ j → swap d i j !!! k = d !!! k.
Proof. intros. unfold swap. by rewrite !list_lookup_total_insert_ne. Qed.

Lemma siftDown_loop_unfold (fuel : nat) (d : list A) (root hi first : nat) :
  sort.siftDown_loop (S fuel) d root hi first =
    if hi <=? 2 * root + 1 then d
    else
      let child :=
        if (2 * root + 1 + 1 <? hi)
           && sort.Less d (first + (2 * root + 1)) (first + (2 * root + 1) + 1)
        then 2 * root + 1 + 1 else 2 * root + 1 in
      if negb (sort.Less d (first + root) (first + child)) then d
      else sort.siftDown_loop fuel (sort.Swap d (first + root) (first + child))
                              child hi first.
Proof. reflexivity. Qed.

Lemma siftDown_loop_spec (fuel : nat) (d : list A) (root lo hi first : nat) :
  lo ≤ root → hi - root ≤ fuel → first + hi ≤ length d →
  (∀ k c, lo ≤ k → k ≠ root → c = 2 * k + 1 ∨ c = 2 * k + 2 → c < hi →
          (d @ (first + c)%nat ≤ d @ (first + k)%nat)%Z) →
  (∀ k c, lo ≤ k → root = 2 * k + 1 ∨ root = 2 * k + 2 →
          c = 2 * root + 1 ∨ c = 2 * root + 2 → c < hi →
          (d @ (first + c)%nat ≤ d @ (first + k)%nat)%Z) →
  rearranged first (first + hi) d (sort.siftDown_loop fuel d root hi first)
  ∧ heap_from key (sort.siftDown_loop fuel d root hi first) first lo hi.
Proof.
  revert d root. induction fuel as [|fuel IH];
    intros d root Hlo Hfuel Hlen Hheap Hgrand.
  { split; [constructor|]. intros k c ? ? ?. apply Hheap; lia. }
  rewrite siftDown_loop_unfold.
  destruct (hi <=? 2 * root + 1) eqn:E1.
  { apply Nat.leb_le in E1. split; [constructor|].
    intros k c ? ? ?. apply Hheap; lia. }
  apply Nat.leb_gt in E1. cbv zeta.
  set (cs := if (2 * root + 1 + 1 <? hi)
                && sort.Less d (first + (2 * root + 1)) (first + (2 * root + 1) + 1)
             then 2 * root + 1 + 1 else 2 * root + 1).
  assert ((cs = 2 * root + 1 ∨ cs = 2 * root + 2) ∧ cs < hi
          ∧ ∀ c, c = 2 * root + 1 ∨ c = 2 * root + 2 → c < hi →
                 (d @ (first + c)%nat ≤ d @ (first + cs)%nat)%Z)
    as (Hcs1 & Hcs2 & Hcs3).
  { unfold cs. destruct (2 * root + 1 + 1 <? hi) eqn:E2; cbn [andb].
    - apply Nat.ltb_lt in E2.
      destruct (sort.Less d _ _) eqn:E3.
      + apply Less_lt in E3. rewrite <- Nat.add_assoc in E3.
        repeat split; [lia..|]. intros c [->| ->] ?; [lia|].
        replace (2 * root + 2) with (2 * root + 1 + 1) by lia. lia.
      + apply Less_ge in E3. rewrite <- Nat.add_assoc in E3.
        repeat split; [lia..|]. intros c [->| ->] ?; [lia|].
        replace (2 * root + 2) with (2 * root + 1 + 1) by lia. lia.
    - apply Nat.ltb_ge in E2. repeat split; [lia..|].
      intros c [->| ->] ?; lia. }
  clearbody cs.
  destruct (sort.Less d (first + root) (first + cs)) eqn:E4; cbn [negb].
  - apply Less_lt in E4. rewrite Swap_swap.
    destruct (IH (swap d (first + root) (first + cs)) cs) as [Hr Hh];
      [lia | lia | by rewrite length_swap | | |].
    + intros k c Hk Hne Hc Hchi.
      destruct (decide (k = root)) as [->|Hkr].
      * rewrite (swap_l d (first + root)) by lia.
        destruct (decide (c = cs)) as [->|Hccs].
        -- rewrite swap_r by lia. lia.
        -- rewrite swap_ne by lia. by apply Hcs3.
      * rewrite (swap_ne d _ _ (first + k)) by lia.
        destruct (decide (c = root)) as [->|Hcr].
        -- rewrite swap_l by lia. apply Hgrand; [lia..|done].
        -- rewrite swap_ne by lia. by apply Hheap.
    + intros k c Hk Hcsk Hc Hchi.
      assert (k = root) as -> by lia.
      rewrite swap_l by lia. rewrite swap_ne by lia.
      apply Hheap; lia.
    + split; [|done].
      apply (rearranged_swap _ _ d _ (first + root) (first + cs)); [lia..|done].
  - apply Less_ge in E4. split; [constructor|].
    intros k c ? ? ?. destruct (decide (k = root)) as [->|]; [|by apply Hheap].
    pose proof (Hcs3 c). lia.
Qed.

Lemma siftDown_spec (d : list A) (lo hi first : nat) :
  first + hi ≤ length d → heap_from key d first (S lo) hi →
  rearranged first (first + hi) d (sort.siftDown d lo hi first)
  ∧ heap_from key (sort.siftDown d lo hi first) first lo hi.
Proof.
  intros Hlen Hheap. apply siftDown_loop_spec; [lia | lia | done | |].
  - intros k c ? ? ? ?. apply Hheap; lia.
  - intros k c ? ? ? ?. lia.
Qed.

(** The root of a heap is its greatest element. *)
Lemma heap_root (d : list A) (first hi : nat) :
  heap_from key d first 0 hi →
  ∀ k, k < hi → (d @ (first + k)%nat ≤ d @ (first + 0)%nat)%Z.
Proof.
  intros Hheap k. induction (lt_wf k) as [k _ IH]. intros Hk.
  destruct k as [|k]; [lia|].
  pose proof (Nat.div_mod_eq k 2) as Hdiv.
  pose proof (Nat.mod_upper_bound k 2 ltac:(lia)) as Hmod.
  set (p := k / 2) in *.
  pose proof (IH p ltac:(lia) ltac:(lia)).
  pose proof (Hheap p (S k) ltac:(lia) ltac:(lia) ltac:(lia)). lia.
Qed.

Lemma rev_seq_S (n : nat) : rev (seq 0 (S n)) = n :: rev (seq 0 n).
Proof. by rewrite seq_S, rev_app_distr. Qed.

Lemma heapSort_build (n : nat) (d : list A) (first hi : nat) :
  first + hi ≤ length d → heap_from key d first n hi →
  let d' := fold_left (λ data i, sort.siftDown data i hi first) (rev (seq 0 n)) d in
  rearranged first (first + hi) d d' ∧ heap_from key d' first 0 hi.
Proof.
  revert d. induction n as [|n IH]; intros d Hlen Hheap.
  { split; [constructor | done]. }
  rewrite rev_seq_S. cbn [fold_left].
  destruct (siftDown_spec d n hi first) as [Hr Hh]; [done..|].
  destruct (IH (sort.siftDown d n hi first)) as [Hr' Hh'];
    [by rewrite (rearranged_length _ _ _ _ Hr) | done |].
  split; [by eapply rearranged_trans | done].
Qed.

Lemma heapSort_pop (n : nat) (d : list A) (first hi : nat) :
  n ≤ hi → first + hi ≤ length d → heap_from key d first 0 n →
  sorted_range key d (first + n) (first + hi) →
  (∀ x y, first ≤ x → x < first + n → first + n ≤ y → y < first + hi →
          (d @ x ≤ d @ y)%Z) →
  let d' := fold_left (λ data i, sort.siftDown (sort.Swap data first (first + i)) 0 i first)
                      (rev (seq 0 n)) d in
  rearranged first (first + hi) d d' ∧ sorted_range key d' first (first + hi).
Proof.
  revert d. induction n as [|n IH]; intros d Hn Hlen Hheap Hsorted Hcross.
  { split; [constructor|]. by rewrite Nat.add_0_r in Hsorted. }
  rewrite rev_seq_S. cbn [fold_left]. rewrite Swap_swap.
  assert (∀ x, first ≤ x → x < first + S n → (d @ x ≤ d @ first)%Z) as Hmax.
  { intros x ? ?. pose proof (heap_root d first (S n) Hheap (x - first) ltac:(lia)) as Hx.
    replace (first + (x - first)) with x in Hx by lia.
    by rewrite Nat.add_0_r in Hx. }
  set (d1 := swap d first (first + n)).
  assert (length d1 = length d) as Hl1 by apply length_swap.
  assert (d1 @ (first + n)%nat = d @ first) as Htop.
  { unfold d1. by rewrite swap_r by lia. }
  assert (∀ x, first ≤ x → x < first + n → (d1 @ x ≤ d @ first)%Z) as Hmax1.
  { intros x ? ?. unfold d1. rewrite swap_lookup by lia.
    repeat case_decide; try lia; apply Hmax; lia. }
  assert (∀ y, first + n < y → d1 !!! y = d !!! y) as Hhigh1.
  { intros y ?. unfold d1. by rewrite swap_ne by lia. }
  destruct (siftDown_spec d1 0 n first) as [Hr2 Hh2]; [lia| |].
  { intros k c ? ? ?. unfold d1. rewrite !swap_ne by lia. apply Hheap; lia. }
  set (d2 := sort.siftDown d1 0 n first) in *.
  assert (length d2 = length d) as Hl2.
  { by rewrite (rearranged_length _ _ _ _ Hr2). }
  assert (∀ y, first + n ≤ y → d2 !!! y = d1 !!! y) as Hout2.
  { intros y ?. by rewrite (rearranged_outside _ _ _ _ y Hr2) by lia. }
  destruct (IH d2) as [Hr3 Hs3]; [lia | lia | done | | |].
  - intros x y ? ? ?. rewrite !Hout2 by lia.
    destruct (decide (x = first + n)) as [->|].
    + rewrite Htop. destruct (decide (y = first + n)) as [->|]; [by rewrite Htop|].
      rewrite Hhigh1 by lia. apply Hcross; lia.
    + rewrite !Hhigh1 by lia. apply Hsorted; lia.
  - intros x y Hx1 Hx2 Hy1 Hy2. rewrite (Hout2 y) by lia.
    revert x Hx1 Hx2.
    apply (rearranged_all first (first + n) d1 d2
             (λ e, (key e ≤ d1 @ y)%Z) Hr2).
    intros x ? ?. destruct (decide (y = first + n)) as [->|].
    + rewrite Htop. by apply Hmax1.
    + rewrite (Hhigh1 y) by lia. unfold d1. rewrite swap_lookup by lia.
      repeat case_decide; try lia; apply Hcross; lia.
  - split; [|done].
    apply (rearranged_trans _ _ _ d1); [apply rearranged_one; lia|].
    apply (rearranged_trans _ _ _ d2); [|done].
    eapply rearranged_mono; [exact Hr2|lia..].
Qed.

Lemma heapSort_spec (d : list A) (a b : nat) :
  a ≤ b → b ≤ length d →
  rearranged a b d (sort.heapSort d a b)
  ∧ sorted_range key (sort.heapSort d a b) a b.
Proof.
  intros Hab Hb. unfold sort.heapSort. cbv zeta.
  pose proof (Nat.div_mod_eq (b - a - 1) 2) as Hdiv.
  pose proof (Nat.mod_upper_bound (b - a - 1) 2 ltac:(lia)) as Hmod.
  set (q := (b - a - 1) / 2) in *.
  destruct (heapSort_build (S q) d a (b - a)) as [Hr1 Hh1]; [lia| |].
  { intros k c ? ? ?. lia. }
  set (d1 := fold_left _ (rev (seq 0 (S q))) d) in *.
  destruct (heapSort_pop (b - a) d1 a (b - a)) as [Hr2 Hs2];
    [lia | by rewrite (rearranged_length _ _ _ _ Hr1); lia | done | | |].
  { apply sorted_range_small. lia. }
  { intros; lia. }
  replace (a + (b - a)) with b in * by lia.
  split; [by eapply rearranged_trans | done].
Qed.

(** *** [pdqsort] and [Sort] *)

Lemma pdqsort_unfold (fuel : nat) (d : list A) (a b limit : nat)
      (wasBalanced wasPartitioned : bool) :
  sort.pdqsort (S fuel) d a b limit wasBalanced wasPartitioned =
    if b - a <=? sort.maxInsertion then sort.insertionSort d a b
    else if limit =? 0 then sort.heapSort d a b
    else
      let d0 := if negb wasBalanced then sort.breakPatterns d a b else d in
      let limit0 := if negb wasBalanced then limit - 1 else limit in
      let cp := sort.choosePivot d0 a b in
      let dec := sort.sortedHint_eqb cp.2 sort.decreasingHint in
      let d1 := if dec then sort.reverseRange d0 a b else d0 in
      let pivot1 := if dec then (b - 1) - (cp.1 - a) else cp.1 in
      let hint1 := if dec then sort.increasingHint else cp.2 in
      let try := wasBalanced && wasPartitioned
                 && sort.sortedHint_eqb hint1 sort.increasingHint in
      let pis := sort.partialInsertionSort d1 a b in
      let d2 := if try then pis.1 else d1 in
      let done := if try then pis.2 else false in
      if done then d2
      else if (0 <? a) && negb (sort.Less d2 (a - 1) pivot1) then
        let pe := sort.partitionEqual d2 a b pivot1 in
        sort.pdqsort fuel pe.1 pe.2 b limit0 wasBalanced wasPartitioned
      else
        let pt := sort.partition d2 a b pivot1 in
        let mid := pt.1.2 in
        if mid - a <? b - mid then
          sort.pdqsort fuel (sort.pdqsort fuel pt.1.1 a mid limit0 true true)
                       (mid + 1) b limit0 ((b - a) / 8 <=? mid - a) pt.2
        else
          sort.pdqsort fuel (sort.pdqsort fuel pt.1.1 (mid + 1) b limit0 true true)
                       a mid limit0 ((b - a) / 8 <=? b - mid) pt.2.
Proof.
  cbn [sort.pdqsort]. cbv zeta.
  destruct (b - a <=? sort.maxInsertion); [done|].
  destruct (limit =? 0); [done|].
  destruct wasBalanced; cbn [negb andb];
    destruct (sort.choosePivot _ a b) as [p h]; cbn [fst snd];
    destruct h; cbn [sort.sortedHint_eqb];
    destruct wasPartitioned; cbn [andb];
    try destruct (sort.partialInsertionSort _ a b) as [dd []]; cbn [fst snd];
    try done;
    destruct (_ && _); try done;
    try (by destruct (sort.partitionEqual _ _ _ _));
    by destruct (sort.partition _ _ _ _) as [[? ?] ?].
Qed.

Lemma bounded_below_sub (d : list A) (a b b' : nat) :
  b' ≤ b → bounded_below key d a b → bounded_below key d a b'.
Proof. intros ? Hl ? k ? ?. apply Hl; lia. Qed.

Lemma pdqsort_spec (fuel : nat) (d : list A) (a b limit : nat)
      (wasBalanced wasPartitioned : bool) :
  b - a < fuel → a ≤ b → b ≤ length d → bounded_below key d a b →
  rearranged a b d (sort.pdqsort fuel d a b limit wasBalanced wasPartitioned)
  ∧ sorted_range key
      (sort.pdqsort fuel d a b limit wasBalanced wasPartitioned) a b.
Proof.
  revert d a b limit wasBalanced wasPartitioned.
  induction fuel as [|fuel IH]; intros d a b limit wb wp Hfuel Hab Hb Hlow; [lia|].
  rewrite pdqsort_unfold.
  destruct (b - a <=? sort.maxInsertion) eqn:Hsmall; [by apply insertionSort_spec|].
  apply Nat.leb_gt in Hsmall. unfold sort.maxInsertion in Hsmall.
  destruct (limit =? 0); [by apply heapSort_spec|].
  cbv zeta.
(* breakPatterns *)
  set (d0 := if negb wb then sort.breakPatterns d a b else d).
  assert (rearranged a b d d0) as Hr0.
  { unfold d0. destruct (negb wb); [by apply breakPatterns_spec | constructor]. }
  assert (length d0 = length d) as Hl0 by by rewrite (rearranged_length _ _ _ _ Hr0).
  set (limit0 := if negb wb then limit - 1 else limit). clearbody d0 limit0.
(* choosePivot *)
  destruct (choosePivot_spec d0 a b) as [Hp1 Hp2]; [lia|].
  set (cp := sort.choosePivot d0 a b) in *.
  set (dec := sort.sortedHint_eqb cp.2 sort.decreasingHint).
  set (d1 := if dec then sort.reverseRange d0 a b else d0).
  assert (rearranged a b d0 d1) as Hr1.
  { unfold d1. destruct dec; [apply reverseRange_spec; lia | constructor]. }
  assert (length d1 = length d) as Hl1 by by rewrite (rearranged_length _ _ _ _ Hr1).
  set (pivot1 := if dec then b - 1 - (cp.1 - a) else cp.1).
  assert (a ≤ pivot1 ∧ pivot1 < b) as [Hpv1 Hpv2].
  { unfold pivot1. destruct dec; lia. }
  set (hint1 := if dec then sort.increasingHint else cp.2).
  clearbody d1 pivot1 hint1. clear dec.
(* partialInsertionSort *)
  set (try := wb && wp && sort.sortedHint_eqb hint1 sort.increasingHint).
  set (d2 := if try then (sort.partialInsertionSort d1 a b).1 else d1).
  set (done := if try then (sort.partialInsertionSort d1 a b).2 else false).
  assert (bounded_below key d1 a b) as Hlow1.
  { eapply bounded_below_rearranged; [exact Hr1|].
    by eapply bounded_below_rearranged. }
  assert (rearranged a b d1 d2 ∧ (done = true → sorted_range key d2 a b))
    as [Hr2 Hdone].
  { unfold d2, done. destruct try; [|split; [constructor | done]].
    apply partialInsertionSort_spec; [lia | lia | done]. }
  assert (rearranged a b d d2) as Hrd2.
  { eapply rearranged_trans; [exact Hr0|]. by eapply rearranged_trans. }
  assert (length d2 = length d) as Hl2 by by rewrite (rearranged_length _ _ _ _ Hrd2).
  assert (bounded_below key d2 a b) as Hlow2 by by eapply bounded_below_rearranged.
  clearbody d2 done. clear try.
  destruct done; [by split; [|apply Hdone]|]. clear Hdone.
  destruct ((0 <? a) && negb (sort.Less d2 (a - 1) pivot1)) eqn:Heq.
  - (* partitionEqual *)
    apply andb_true_iff in Heq as [Ha%Nat.ltb_lt Hge%negb_true_iff].
    apply Less_ge in Hge.
    destruct (partitionEqual_spec d2 a b pivot1) as (Hr3 & Hm1 & Hm2 & Hle & Hgt);
      [lia..|].
    set (d3 := (sort.partitionEqual d2 a b pivot1).1) in *.
    set (mid := (sort.partitionEqual d2 a b pivot1).2) in *.
    clearbody d3 mid.
    assert (length d3 = length d) as Hl3 by by rewrite (rearranged_length _ _ _ _ Hr3).
    assert (∀ k, a ≤ k → k < b → (d2 @ pivot1 ≤ d3 @ k)%Z) as Hall.
    { apply (rearranged_all a b d2 d3 (λ e, (d2 @ pivot1 ≤ key e)%Z) Hr3).
      intros k ? ?. pose proof (Hlow2 Ha k). lia. }
    destruct (IH d3 mid b limit0 wb wp) as [Hr4 Hs4]; [lia | lia | lia | |].
    { intros ? k ? ?. pose proof (Hle (mid - 1)). pose proof (Hgt k). lia. }
    set (d4 := sort.pdqsort fuel d3 mid b limit0 wb wp) in *. clearbody d4.
    split.
    + eapply rearranged_trans; [exact Hrd2|].
      eapply rearranged_trans; [exact Hr3|].
      eapply rearranged_mono; [exact Hr4|lia..].
    + intros i j ? ? ?.
      destruct (decide (mid ≤ i)); [apply Hs4; lia|].
      rewrite (rearranged_outside _ _ _ _ i Hr4) by lia.
      pose proof (Hle i). pose proof (Hall i).
      destruct (decide (j < mid)).
      * rewrite (rearranged_outside _ _ _ _ j Hr4) by lia.
        pose proof (Hle j). pose proof (Hall j). lia.
      * pose proof (rearranged_all mid b d3 d4 (λ e, (d2 @ pivot1 < key e)%Z)
                      Hr4 Hgt j). lia.
  - (* partition *)
    clear Heq.
    destruct (partition_spec d2 a b pivot1) as (Hr3 & Hm1 & Hm2 & Hlt & Hge);
      [lia..|].
    set (pt := sort.partition d2 a b pivot1) in *.
    set (d3 := pt.1.1) in *. set (mid := pt.1.2) in *.
    generalize (pt.2). intros ap. clearbody d3 mid. clear pt.
    assert (length d3 = length d) as Hl3 by by rewrite (rearranged_length _ _ _ _ Hr3).
    assert (bounded_below key d3 a b) as Hlow3 by by eapply bounded_below_rearranged.
    destruct (mid - a <? b - mid).
    + destruct (IH d3 a mid limit0 true true) as [Hr4 Hs4];
        [lia | lia | lia | by eapply bounded_below_sub; [|done]; lia |].
      set (d4 := sort.pdqsort fuel d3 a mid limit0 true true) in *. clearbody d4.
      assert (length d4 = length d) as Hl4
          by by rewrite (rearranged_length _ _ _ _ Hr4).
      assert (∀ k, mid ≤ k → d4 !!! k = d3 !!! k) as Hout4.
      { intros k ?. by rewrite (rearranged_outside _ _ _ _ k Hr4) by lia. }
      destruct (IH d4 (mid + 1) b limit0 ((b - a) / 8 <=? mid - a) ap)
        as [Hr5 Hs5]; [lia | lia | lia | |].
      { intros ? k ? ?. replace (mid + 1 - 1) with mid by lia.
        rewrite !Hout4 by lia. apply Hge; lia. }
      set (d5 := sort.pdqsort fuel d4 _ b limit0 _ ap) in *. clearbody d5.
      assert (∀ k, k ≤ mid → d5 !!! k = d4 !!! k) as Hout5.
      { intros k ?. by rewrite (rearranged_outside _ _ _ _ k Hr5) by lia. }
      split.
      * eapply rearranged_trans; [exact Hrd2|].
        eapply rearranged_trans; [exact Hr3|].
        apply (rearranged_trans _ _ _ d4).
        -- eapply rearranged_mono; [exact Hr4|lia..].
        -- eapply rearranged_mono; [exact Hr5|lia..].
      * apply (sorted_range_glue d5 a mid b).
        -- eapply sorted_range_outside; [exact Hr5|lia|done].
        -- by rewrite <- Nat.add_1_r.
        -- intros i ? ?. rewrite !Hout5, (Hout4 mid) by lia.
           pose proof (rearranged_all a mid d3 d4 (λ e, (key e < d3 @ mid)%Z)
                         Hr4 Hlt i). lia.
        -- intros k ? ?. rewrite (Hout5 mid), (Hout4 mid) by lia.
           apply (rearranged_all (mid + 1) b d4 d5 (λ e, (d3 @ mid ≤ key e)%Z) Hr5);
             [|lia..].
           intros k' ? ?. rewrite Hout4 by lia. apply Hge; lia.
    + destruct (IH d3 (mid + 1) b limit0 true true) as [Hr4 Hs4];
        [lia | lia | lia | |].
      { intros ? k ? ?. replace (mid + 1 - 1) with mid by lia. apply Hge; lia. }
      set (d4 := sort.pdqsort fuel d3 (mid + 1) b limit0 true true) in *.
      clearbody d4.
      assert (length d4 = length d) as Hl4
          by by rewrite (rearranged_length _ _ _ _ Hr4).
      assert (∀ k, k ≤ mid → d4 !!! k = d3 !!! k) as Hout4.
      { intros k ?. by rewrite (rearranged_outside _ _ _ _ k Hr4) by lia. }
      destruct (IH d4 a mid limit0 ((b - a) / 8 <=? b - mid) ap)
        as [Hr5 Hs5]; [lia | lia | lia | |].
      { intros ? k ? ?. rewrite !Hout4 by lia. apply Hlow3; lia. }
      set (d5 := sort.pdqsort fuel d4 a mid limit0 _ ap) in *. clearbody d5.
      assert (∀ k, mid ≤ k → d5 !!! k = d4 !!! k) as Hout5.
      { intros k ?. by rewrite (rearranged_outside _ _ _ _ k Hr5) by lia. }
      split.
      * eapply rearranged_trans; [exact Hrd2|].
        eapply rearranged_trans; [exact Hr3|].
        apply (rearranged_trans _ _ _ d4).
        -- eapply rearranged_mono; [exact Hr4|lia..].
        -- eapply rearranged_mono; [exact Hr5|lia..].
      * apply (sorted_range_glue d5 a mid b).
        -- done.
        -- eapply sorted_range_outside; [exact Hr5|lia|].
           by rewrite <- Nat.add_1_r.
        -- intros i ? ?. rewrite (Hout5 mid), (Hout4 mid) by lia.
           apply (rearranged_all a mid d4 d5 (λ e, (key e ≤ d3 @ mid)%Z) Hr5);
             [|lia..].
           intros k' ? ?. rewrite Hout4 by lia. pose proof (Hlt k'). lia.
        -- intros k ? ?. rewrite !Hout5, (Hout4 mid) by lia.
           apply (rearranged_all (mid + 1) b d3 d4 (λ e, (d3 @ mid ≤ key e)%Z) Hr4);
             [|lia..].
           intros k' ? ?. apply Hge; lia.
Qed.

(** [sort.Sort] returns a permutation of its argument in ascending order
    of the key. *)
Theorem Sort_spec (d : list A) :
  sort.Sort d ≡ₚ d ∧ sorted_range key (sort.Sort d) 0 (length d).
Proof.
  unfold sort.Sort. rewrite Len_length.
  destruct (length d <=? 1) eqn:Hn.
  - apply Nat.leb_le in Hn. split; [done | apply sorted_range_small; lia].
  - destruct (pdqsort_spec (S (length d)) d 0 (length d)
                (sort.bits_Len (length d)) true true) as [Hr Hs];
      [lia | lia | lia | intros ?; lia |].
    split; [by eapply rearranged_Permutation | done].
Qed.

End sorting.

(** ** The pattern list *)

Lemma Routes_Less_key (r : Routes) (i j : nat) :
  Routes_Less r i j
  = bool_decide (Routes_key (r !!! i) < Routes_key (r !!! j))%Z.
Proof.
  unfold Routes_Less, Routes_key.
  destruct (Nat.ltb_spec (Strings.len (regexp.String (Pattern (r !!! j))))
                         (Strings.len (regexp.String (Pattern (r !!! i)))));
    case_bool_decide; (done || lia).
Qed.

Lemma Routes_Sort (r : Routes) : sort.Sort r ≡ₚ r ∧ descending (sort.Sort r).
Proof.
  destruct (Sort_spec Routes_key Routes_Interface
              (λ _, eq_refl) (λ _ _ _, eq_refl) Routes_Less_key r) as [Hp Hs].
  split; [done|]. intros i j x y Hij Hx Hy.
  assert (j < length r).
  { rewrite <- (Permutation_length Hp). by eapply lookup_lt_Some. }
  specialize (Hs i j ltac:(lia) Hij ltac:(lia)).
  rewrite (list_lookup_total_correct _ _ _ Hx),
          (list_lookup_total_correct _ _ _ Hy) in Hs.
  unfold Routes_key in Hs. lia.
Qed.

Section pattern_list.
Context `{regexp.Engine}.

Lemma addRoute_new (rtr rtr' : Router) (pattern : string) (f : HandlerFunc) :
  addRoute rtr pattern f = Returns None rtr' →
  regexp.compiles pattern = true
  ∧ has_source (Routes_ rtr) pattern = false
  ∧ FixedRoutes rtr' = FixedRoutes rtr
  ∧ Routes_ rtr'
    = sort.Sort (Routes_ rtr
                 ++ [{| Pattern := {| regexp.expr := pattern |}; Func := f |}]).
Proof.
  unfold addRoute, regexp.MustCompile, has_source.
  destruct (regexp.compiles pattern); [|done]. simpl.
  destruct (existsb _ _); [done|]. by intros [= <-].
Qed.

Lemma addRoute_fresh (rtr : Router) (pattern : string) (f : HandlerFunc) :
  regexp.compiles pattern = true →
  has_source (Routes_ rtr) pattern = false →
  ∃ rtr', addRoute rtr pattern f = Returns None rtr'.
Proof.
  intros Hc Hs. unfold addRoute, regexp.MustCompile, has_source in *.
  rewrite Hc. simpl. rewrite Hs. eauto.
Qed.

Lemma addRoute_descending (rtr rtr' : Router) (pattern : string)
      (f : HandlerFunc) (e : error) :
  descending (Routes_ rtr) → addRoute rtr pattern f = Returns e rtr' →
  descending (Routes_ rtr').
Proof.
  intros Hd Hadd. destruct e as [msg|].
  - by apply addRoute_error in Hadd as [-> _].
  - apply addRoute_new in Hadd as (_ & _ & _ & ->). apply Routes_Sort.
Qed.

Lemma HandleFunc_descending (rtr rtr' : Router) (pattern : string)
      (f : HandlerFunc) :
  descending (Routes_ rtr) → HandleFunc rtr pattern f = Returns () rtr' →
  descending (Routes_ rtr').
Proof.
  intros Hd. unfold HandleFunc, addProcessedParameterRoute.
  assert (∀ p g, drop_error (addFixedRoute rtr p g) = Returns () rtr' →
                 descending (Routes_ rtr')) as Hfixed.
  { intros p g. unfold addFixedRoute.
    destruct (FixedRoutes rtr !! p); simpl; by intros [= <-]. }
  assert (∀ p g, drop_error (addRoute rtr p g) = Returns () rtr' →
                 descending (Routes_ rtr')) as Hpat.
  { intros p g. destruct (addRoute rtr p g) as [|e r] eqn:Hadd; [done|].
    simpl. intros [= <-]. by eapply addRoute_descending. }
  destruct (0 <? length (Param.FindAllString pattern)).
  - destruct (substitute pattern _) as [src names].
    destruct (regexp.MustCompile src); [|done].
    apply Hpat.
  - destruct (CheckRegexp rtr); [|apply Hfixed].
    destruct (String.eqb _ _); [apply Hfixed | apply Hpat].
Qed.

(** C1, as the code has it: a call of [addRoute] that stores its route
    leaves the pattern list a permutation of the list before with the
    new route, in descending order of the length of the sources; so the
    list is in that order after every sequence of registrations from
    [NewRouter].  [sort.Sort] is what orders the list, and it promises
    nothing about entries of equal length. *)
Theorem pattern_list_is_in_descending_length :
  (∀ rtr rtr' pattern f,
      addRoute rtr pattern f = Returns None rtr' →
      descending (Routes_ rtr')
      ∧ Routes_ rtr'
        ≡ₚ Routes_ rtr
           ++ [{| Pattern := {| regexp.expr := pattern |}; Func := f |}])
  ∧ (∀ rtr, reaches NewRouter rtr → descending (Routes_ rtr)).
Proof.
  split.
  - intros rtr rtr' pattern f (_ & _ & _ & ->)%addRoute_new. split; apply Routes_Sort.
  - assert (∀ rtr rtr', reaches rtr rtr' → descending (Routes_ rtr) →
                        descending (Routes_ rtr')) as Hreach.
    { induction 1 as [|rtr rtr1 rtr2 pattern f e Hadd _ IH
                      |rtr rtr1 rtr2 pattern f Hh _ IH]; [done|..]; intros Hd.
      - apply IH. by eapply addRoute_descending.
      - apply IH. by eapply HandleFunc_descending. }
    intros rtr Hr. apply (Hreach _ _ Hr). intros i j x y _ Hx. done.
Qed.

End pattern_list.

Lemma pattern_list_is_in_descending_length_witness :
  descending (Routes_ router_13).
Proof.
  apply (proj1 (pattern_list_is_in_descending_length (H := RE2.engine))
               router_12 router_13 "^/mm$" (UserFunc "^/mm$")).
  vm_compute. reflexivity.
Defined.

(** C1, as the specification states it, fails on the order of entries of
    equal length: twelve patterns of four bytes are in the list in the
    order of their registration, and registering a thirteenth, longer one
    leaves the seventh in front of the others and the first behind the
    sixth. *)
Lemma equal_length_entries_are_reordered :
  addRoute (H := RE2.engine) router_12 "^/mm$" (UserFunc "^/mm$")
  = Returns None router_13
  ∧ regexp.String ∘ Pattern <$> Routes_ router_12 = twelve_patterns
  ∧ regexp.String ∘ Pattern <$> Routes_ router_13
    = ["^/mm$"; "^/g$"; "^/c$"; "^/d$"; "^/e$"; "^/f$"; "^/a$";
       "^/h$"; "^/i$"; "^/j$"; "^/k$"; "^/l$"; "^/b$"]
  ∧ ¬ same_order_among_equals
        (Routes_ router_12
         ++ [{| Pattern := {| regexp.expr := "^/mm$" |};
                Func := UserFunc "^/mm$" |}])
        (Routes_ router_13).
Proof.
  split; [vm_compute; reflexivity|].
  split; [vm_compute; reflexivity|].
  split; [vm_compute; reflexivity|].
  intros Hsame. specialize (Hsame 4). vm_compute in Hsame. discriminate.
Qed.

(** ** Variable declarations *)

Lemma compile_variable (checkRegexp : bool) (declaration : string) :
  Param.FindAllString declaration ≠ [] →
  compile checkRegexp declaration
  = VariablePattern (Spec.replace_tokens declaration)
                    (Spec.token_names declaration).
Proof.
  intros Hvars. unfold compile.
  destruct (Param.FindAllString declaration) as [|v vars] eqn:Hfind; [done|].
  by rewrite <- Hfind, TokenFacts.substitute_replace_tokens.
Qed.

Lemma pieces_replace_tokens (d1 d2 : string) :
  Spec.pieces d1 = Spec.pieces d2 →
  Spec.replace_tokens d1 = Spec.replace_tokens d2
  ∧ length (Spec.token_names d1) = length (Spec.token_names d2).
Proof.
  intros Hp. unfold Spec.replace_tokens, Spec.token_names.
  rewrite !TokenFacts.replace_tokens_assemble by lia.
  rewrite <- !TokenFacts.pieces_length.
  unfold Spec.pieces in Hp. by rewrite Hp.
Qed.

Lemma FindAllString_token_names (declaration : string) :
  Param.FindAllString declaration = Param.token <$> Spec.token_names declaration.
Proof. apply TokenFacts.FindAllString_names. Qed.

(** C3, as the code has it: the source of the compiled matcher is the
    declaration with every variable token replaced, from the left, by the
    text [ParamMatch], a capturing group that takes a first byte of a
    class and then, lazily, any bytes but a newline; the names are those
    of the tokens in the same order, one name for each group put in.  The
    groups that the declaration itself writes are left where they are. *)
Theorem matcher_has_ParamMatch_for_each_token (declaration : string) :
  let ps := Spec.pieces declaration in
  let names := Spec.token_names declaration in
  substitute declaration (Param.FindAllString declaration)
  = (Spec.replace_tokens declaration, names)
  ∧ Param.FindAllString declaration = Param.token <$> names
  ∧ length names = length ps.1
  ∧ declaration = Spec.weave ps.1 (Param.token <$> names) ps.2
  ∧ Spec.replace_tokens declaration
    = Spec.weave ps.1 (replicate (length names) ParamMatch) ps.2
  ∧ (∀ checkRegexp,
        Param.FindAllString declaration ≠ [] →
        compile checkRegexp declaration
        = VariablePattern (Spec.replace_tokens declaration) names)
  ∧ RE2.parse ParamMatch
    = Some (RE2.Concat
              (RE2.Capture 1
                 (RE2.Concat
                    (RE2.CharClass false
                       [("A"%char, "z"%char); ("0"%char, "9"%char);
                        ("_"%char, "_"%char)])
                    (RE2.Concat (RE2.Star false RE2.AnyCharNotNL) RE2.Empty)))
              RE2.Empty,
            1).
Proof.
  cbv zeta.
  assert (length (Spec.token_names declaration)
          = length (Spec.pieces declaration).1) as Hlen
      by (symmetry; apply TokenFacts.pieces_length).
  split; [apply TokenFacts.substitute_replace_tokens|].
  split; [apply FindAllString_token_names|].
  split; [done|].
  split; [apply TokenFacts.declaration_weave; lia|].
  split.
  { unfold Spec.replace_tokens.
    rewrite TokenFacts.replace_tokens_assemble by lia.
    fold (Spec.pieces declaration). rewrite Hlen.
    destruct (Spec.pieces declaration) as [ps tl].
    apply TokenFacts.assemble_weave. }
  split; [intros; by apply compile_variable | reflexivity].
Qed.

Lemma matcher_has_ParamMatch_for_each_token_witness :
  compile true "/hello/<first_name>/<last_name>$"
  = VariablePattern "/hello/([A-z0-9_].*?)/([A-z0-9_].*?)$"
                    ["first_name"; "last_name"].
Proof.
  apply (proj1 (proj2 (proj2 (proj2 (proj2 (proj2
           (matcher_has_ParamMatch_for_each_token
              "/hello/<first_name>/<last_name>$"))))))).
  vm_compute. discriminate.
Defined.

(** C3, as the specification states it, fails twice.  The group is not
    one or more of any character: [/x/-] matches [/x/(.+?)] and not the
    matcher of [/x/<id>].  And the groups are not always as many as the
    names: the matcher of [/(a|b)/<id>$] has two groups for one name, and
    the first group, which the carrier binds to [id], is not the
    variable. *)
Lemma ParamMatch_is_narrower_and_groups_shift :
  (compile true "/x/<id>" = VariablePattern "/x/([A-z0-9_].*?)" ["id"]
   ∧ RE2.submatch "/x/(.+?)" "/x/-" = ["/x/-"; "-"]
   ∧ RE2.submatch "/x/([A-z0-9_].*?)" "/x/-" = [])
  ∧ (compile true "/(a|b)/<id>$"
     = VariablePattern "/(a|b)/([A-z0-9_].*?)$" ["id"]
     ∧ RE2_NumSubexp "/(a|b)/([A-z0-9_].*?)$" = 2
     ∧ RE2.submatch "/(a|b)/([A-z0-9_].*?)$" "/a/7" = ["/a/7"; "a"; "7"]
     ∧ run (H := RE2.engine) (Func (variable_route "/(a|b)/<id>$" (UserFunc "show")))
           (request "/a/7")
       = Ran "show" {| Method := "GET"; Path := "/a/7";
                       RawQuery := [("id", "a")]; PostForm := [] |}).
Proof. vm_compute. by repeat split. Qed.

Section variable_declarations.
Context `{regexp.Engine}.

Lemma HandleFunc_variable (rtr : Router) (declaration : string) (f : HandlerFunc) :
  Param.FindAllString declaration ≠ [] →
  regexp.compiles (Spec.replace_tokens declaration) = true →
  HandleFunc rtr declaration f
  = drop_error (addRoute rtr (Spec.replace_tokens declaration)
                         (Func (variable_route declaration f))).
Proof.
  intros Hvars Hc. unfold HandleFunc, addProcessedParameterRoute.
  destruct (Param.FindAllString declaration) as [|v vars] eqn:Hfind; [done|].
  rewrite <- Hfind, TokenFacts.substitute_replace_tokens. rewrite Hfind. simpl.
  unfold regexp.MustCompile at 1. rewrite Hc.
  by destruct (addRoute _ _ _).
Qed.

(** C10: two variable declarations that differ only in the names of
    their variables have the same compiled source.  Once the first is
    stored, the second is a duplicate: [addRoute] returns its error,
    [HandleFunc] drops it and returns with the router unchanged, and the
    one route of that source keeps the handler and the names of the
    first declaration. *)
Theorem same_pieces_register_once (rtr : Router) (d1 d2 : string)
        (f1 f2 : HandlerFunc) :
  Param.FindAllString d1 ≠ [] →
  Spec.pieces d1 = Spec.pieces d2 →
  regexp.compiles (Spec.replace_tokens d1) = true →
  has_source (Routes_ rtr) (Spec.replace_tokens d1) = false →
  ∃ rtr1,
    HandleFunc rtr d1 f1 = Returns () rtr1
    ∧ Spec.replace_tokens d2 = Spec.replace_tokens d1
    ∧ duplicate rtr1 d2
    ∧ addRoute rtr1 (Spec.replace_tokens d2) (Func (variable_route d2 f2))
      = Returns (Some ("Key exists: " +:+ Spec.replace_tokens d2)) rtr1
    ∧ HandleFunc rtr1 d2 f2 = Returns () rtr1
    ∧ ∀ rr, rr ∈ Routes_ rtr1 →
            regexp.String (Pattern rr) = Spec.replace_tokens d1 →
            rr = variable_route d1 f1.
Proof.
  intros Hvars Hpieces Hc Hfresh.
  destruct (pieces_replace_tokens d1 d2 Hpieces) as [Hsrc Hlen].
  assert (Param.FindAllString d2 ≠ []) as Hvars2.
  { rewrite FindAllString_token_names in *.
    destruct (Spec.token_names d1), (Spec.token_names d2); done. }
  destruct (addRoute_fresh rtr (Spec.replace_tokens d1)
              (Func (variable_route d1 f1)) Hc Hfresh) as [rtr1 Hadd].
  pose proof Hadd as (_ & _ & _ & Hroutes)%addRoute_new.
  assert (Routes_ rtr1 ≡ₚ Routes_ rtr ++ [variable_route d1 f1]) as Hperm.
  { rewrite Hroutes. apply Routes_Sort. }
  assert (∃ rr, rr ∈ Routes_ rtr1
                ∧ regexp.String (Pattern rr) = Spec.replace_tokens d2) as Hdup.
  { exists (variable_route d1 f1). split; [|by rewrite <- Hsrc].
    rewrite Hperm. apply elem_of_app. right. apply list_elem_of_here. }
  assert (addRoute rtr1 (Spec.replace_tokens d2) (Func (variable_route d2 f2))
          = Returns (Some ("Key exists: " +:+ Spec.replace_tokens d2)) rtr1)
    as Hadd2.
  { apply addRoute_present; [by rewrite <- Hsrc | done]. }
  exists rtr1. split; [|split; [|split; [|split; [|split]]]].
  - rewrite HandleFunc_variable by done. by rewrite Hadd.
  - done.
  - unfold duplicate. by rewrite compile_variable.
  - done.
  - rewrite HandleFunc_variable by (done || by rewrite <- Hsrc).
    by rewrite Hadd2.
  - intros rr Hin Hrr. rewrite Hperm in Hin.
    apply elem_of_app in Hin as [Hin|Hin%list_elem_of_singleton]; [|done].
    assert (has_source (Routes_ rtr) (Spec.replace_tokens d1) = true) as Hs.
    { apply has_source_true. eauto. }
    congruence.
Qed.

End variable_declarations.

Lemma same_pieces_register_once_witness :
  HandleFunc (H := RE2.engine)
    (registered (H := RE2.engine) NewRouter "/x/<a>$" "first")
    "/x/<b>$" (UserFunc "second")
  = Returns () (registered (H := RE2.engine) NewRouter "/x/<a>$" "first")
  ∧ Router_ServeHTTP (H := RE2.engine) router_x (request "/x/7")
    = ([], [(Func (variable_route "/x/<a>$" (UserFunc "first")),
             Ran "first" {| Method := "GET"; Path := "/x/7";
                            RawQuery := [("a", "7")]; PostForm := [] |})]).
Proof.
  split; [|vm_compute; reflexivity].
  destruct (same_pieces_register_once (H := RE2.engine) NewRouter
              "/x/<a>$" "/x/<b>$" (UserFunc "first") (UserFunc "second"))
    as (rtr1 & H1 & _ & _ & _ & H2 & _);
    [vm_compute; discriminate | vm_compute; reflexivity
     | vm_compute; reflexivity | vm_compute; reflexivity |].
  unfold registered. rewrite H1. exact H2.
Defined.

(** * Further properties *)

(** ** Queries *)

Module UrlFacts.

Lemma values_of_cons (k : string) (kv : string * string) q :
  values_of k (kv :: q)
  = if decide (kv.1 = k) then kv.2 :: values_of k q else values_of k q.
Proof.
  unfold values_of. rewrite filter_cons. by destruct (decide (kv.1 = k)).
Qed.

Lemma values_of_app (k : string) q1 q2 :
  values_of k (q1 ++ q2) = values_of k q1 ++ values_of k q2.
Proof. unfold values_of. by rewrite filter_app, fmap_app. Qed.

Lemma values_Add (v : url.Values) (key value k : string) :
  url.values (url.Add v key value) k
  = if decide (key = k) then url.values v k ++ [value] else url.values v k.
Proof.
  unfold url.Add, url.values. destruct (decide (key = k)) as [->|Hne].
  - by rewrite lookup_insert_eq.
  - by rewrite lookup_insert_ne.
Qed.

Lemma is_Some_Add (v : url.Values) (key value k : string) :
  is_Some (url.Add v key value !! k) ↔ key = k ∨ is_Some (v !! k).
Proof.
  unfold url.Add. destruct (decide (key = k)) as [->|Hne].
  - rewrite lookup_insert_eq. split; eauto.
  - rewrite lookup_insert_ne by done. split; [eauto | by intros [?|?]].
Qed.

Lemma fold_Add_values (q : list (string * string)) (v : url.Values) (k : string) :
  url.values (fold_left (λ v kv, url.Add v kv.1 kv.2) q v) k
  = url.values v k ++ values_of k q.
Proof.
  revert v. induction q as [|kv q IH]; intros v; simpl.
  - by rewrite app_nil_r.
  - rewrite IH, values_Add, values_of_cons.
    destruct (decide (kv.1 = k)); [by rewrite <- app_assoc | done].
Qed.

Lemma fold_Add_is_Some (q : list (string * string)) (v : url.Values) (k : string) :
  is_Some (fold_left (λ v kv, url.Add v kv.1 kv.2) q v !! k)
  ↔ is_Some (v !! k) ∨ values_of k q ≠ [].
Proof.
  revert v. induction q as [|kv q IH]; intros v; simpl.
  - split; [eauto | by intros [?|?]].
  - rewrite IH, is_Some_Add, values_of_cons.
    destruct (decide (kv.1 = k)); [split; eauto | tauto].
Qed.

Lemma values_ParseQuery (q : list (string * string)) (k : string) :
  url.values (url.ParseQuery q) k = values_of k q.
Proof. unfold url.ParseQuery. by rewrite fold_Add_values. Qed.

Lemma ParseQuery_lookup (q : list (string * string)) (k : string) :
  url.ParseQuery q !! k
  = match values_of k q with [] => None | l => Some l end.
Proof.
  pose proof (values_ParseQuery q k) as Hv.
  pose proof (fold_Add_is_Some q ∅ k) as Hs. fold (url.ParseQuery q) in Hs.
  rewrite lookup_empty in Hs. unfold url.values in Hv.
  destruct (url.ParseQuery q !! k) as [l|] eqn:Hl; simpl in Hv.
  - subst l. destruct (values_of k q); [|done].
    destruct Hs as [[Hs|Hs] _]; [eauto | by destruct Hs | done].
  - rewrite <- Hv. done.
Qed.

Lemma values_copyValues (dst src : url.Values) (k : string) :
  url.values (url.copyValues dst src) k = url.values dst k ++ url.values src k.
Proof.
  unfold url.copyValues, url.values. rewrite lookup_union_with.
  destruct (dst !! k), (src !! k); simpl; by rewrite ?app_nil_r.
Qed.

Lemma values_of_other (k k' : string) (vs : list string) :
  k' ≠ k → values_of k ((λ x, (k', x)) <$> vs) = [].
Proof.
  intros Hne. induction vs as [|x vs IH]; [done|].
  rewrite fmap_cons, values_of_cons. cbn [fst]. by rewrite decide_False.
Qed.

Lemma values_of_same (k : string) (vs : list string) :
  values_of k ((λ x, (k, x)) <$> vs) = vs.
Proof.
  induction vs as [|x vs IH]; [done|].
  rewrite fmap_cons, values_of_cons. cbn [fst snd].
  rewrite decide_True by done. by rewrite IH.
Qed.

Lemma values_of_keys (v : url.Values) (k : string) (ks : list string) :
  NoDup ks →
  values_of k (ks ≫= (λ k', (λ x, (k', x)) <$> url.values v k'))
  = if decide (k ∈ ks) then url.values v k else [].
Proof.
  induction ks as [|k' ks IH]; [done|].
  intros [Hk' Hnd]%NoDup_cons. rewrite bind_cons, values_of_app, IH by done.
  destruct (decide (k' = k)) as [->|Hne].
  - rewrite values_of_same, decide_False by done.
    rewrite decide_True by apply list_elem_of_here. apply app_nil_r.
  - rewrite values_of_other by done. cbn [app].
    destruct (decide (k ∈ ks)) as [Hin|Hout].
    + rewrite decide_True; [done|]. by apply list_elem_of_further.
    + rewrite decide_False; [done|]. by intros [?|?]%elem_of_cons.
Qed.

Lemma values_of_Encode (v : url.Values) (k : string) :
  values_of k (url.Encode v) = url.values v k.
Proof.
  unfold url.Encode. rewrite values_of_keys.
  - destruct (decide (k ∈ _)) as [Hin|Hout]; [done|].
    unfold url.values. destruct (v !! k) as [vs|] eqn:Hk; [|done].
    destruct Hout. rewrite merge_sort_Permutation.
    apply list_elem_of_fmap. exists (k, vs). split; [done|].
    by apply elem_of_map_to_list.
  - rewrite merge_sort_Permutation. apply NoDup_fst_map_to_list.
Qed.

Lemma add_vars_values (names vars : list string) (form form' : url.Values)
      (i : nat) (k : string) :
  add_vars form names vars i = Some form' →
  url.values form' k
  = url.values form k ++ values_of k (zip names (drop i vars)).
Proof.
  revert form i. induction names as [|vn names IH]; intros form i; simpl.
  - intros [= <-]. by rewrite app_nil_r.
  - destruct (vars !! i) as [v|] eqn:Hv; [|done]. intros Hadd.
    rewrite (IH _ _ Hadd), values_Add, (drop_S _ _ _ Hv). simpl.
    rewrite values_of_cons. simpl.
    destruct (decide (vn = k)); [by rewrite <- app_assoc | done].
Qed.

End UrlFacts.

Module ParseFacts.
Import UrlFacts.

Lemma Parse_first (r : Request) (k : string) :
  (Parse r).1 !! k = head (values_of k (RawQuery r)).
Proof.
  unfold Parse, URL_Query. cbn [fst]. rewrite lookup_fmap, ParseQuery_lookup.
  by destruct (values_of k (RawQuery r)).
Qed.

Lemma ParseForm_lookup (r : Request) (k : string) :
  ParseForm r !! k
  = match body_values r k ++ values_of k (RawQuery r) with
    | [] => None
    | l => Some l
    end.
Proof.
  unfold ParseForm, body_values, has_body, url.copyValues.
  rewrite lookup_union_with, ParseQuery_lookup.
  destruct (_ || _).
  - rewrite ParseQuery_lookup.
    destruct (values_of k (PostForm r)), (values_of k (RawQuery r));
      simpl; by rewrite ?app_nil_r.
  - rewrite lookup_empty. by destruct (values_of k (RawQuery r)).
Qed.

Lemma Parse_second (r : Request) (k : string) :
  (Parse r).2 !! k
  = match ParseForm r !! k with
    | None => None
    | Some values =>
        match (Parse r).1 !! k with
        | None => Some values
        | Some x =>
            if 1 <? Strings.len x then without_first x values else None
        end
    end.
Proof.
  unfold Parse. cbn [fst snd]. rewrite map_lookup_imap.
  by destruct (ParseForm r !! k).
Qed.

Lemma without_first_split (x : string) (values : list string) :
  x ∈ values →
  ∃ pre post, values = pre ++ x :: post ∧ (x ∉ pre)
              ∧ without_first x values = Some (pre ++ post).
Proof.
  intros Hin. unfold without_first.
  destruct (list_find (λ v, x = v) values) as [[i y]|] eqn:Hf.
  - apply list_find_Some in Hf as [Hi [<- Hbefore]].
    exists (take i values), (drop (S i) values). split; [|split; [|done]].
    + by rewrite <- (drop_S _ _ _ Hi), take_drop.
    + intros Hpre. apply list_elem_of_lookup in Hpre as [j Hj].
      pose proof (lookup_lt_Some _ _ _ Hj) as Hlt. rewrite length_take in Hlt.
      rewrite lookup_take_lt in Hj by lia.
      by apply (Hbefore j x); [|lia|].
  - apply list_find_None in Hf. rewrite Forall_forall in Hf.
    by destruct (Hf x Hin).
Qed.

End ParseFacts.

Import UrlFacts ParseFacts.

(** ** [Parse] *)

(** X1: the first map of [Parse] gives a key of the query string the
    first of its values there, and holds no other key. *)
Theorem Parse_first_map_holds_the_first_values (r : Request) (k : string) :
  (Parse r).1 !! k = head (values_of k (RawQuery r))
  ∧ (is_Some ((Parse r).1 !! k) ↔ k ∈ (RawQuery r).*1).
Proof.
  split; [apply Parse_first|]. rewrite Parse_first.
  unfold values_of. induction (RawQuery r) as [|[k' v] q IH].
  - split; [by intros [? ?] | by intros ?%elem_of_nil].
  - rewrite filter_cons, fmap_cons, elem_of_cons. cbn [fst].
    destruct (decide (k' = k)) as [->|Hne].
    + split; [by left | by eexists].
    + rewrite IH. split; [by right | by intros [?|?]].
Qed.

Lemma Parse_first_map_holds_the_first_values_witness :
  (Parse {| Method := "GET"; Path := "/u/alice";
            RawQuery := [("id", "alice"); ("id", "bob")];
            PostForm := [] |}).1 !! "id" = Some "alice".
Proof.
  rewrite (proj1 (Parse_first_map_holds_the_first_values _ "id")). reflexivity.
Defined.

(** X2: on a request whose body is not read (its method is none of
    POST, PUT and PATCH), the second map of [Parse] lists a key exactly
    when the first value of the key in the query string is longer than
    one byte, with the values that follow that first one. *)
Theorem Parse_second_map_of_a_query (r : Request) (k : string) :
  has_body r = false →
  (Parse r).2 !! k
  = match values_of k (RawQuery r) with
    | [] => None
    | x :: rest => if 1 <? Strings.len x then Some rest else None
    end.
Proof.
  intros Hb. rewrite Parse_second, ParseForm_lookup, Parse_first.
  unfold body_values. rewrite Hb. cbn [app].
  destruct (values_of k (RawQuery r)) as [|x rest]; [done|]. cbn [head].
  destruct (1 <? Strings.len x); [|done].
  unfold without_first. cbn [list_find]. by rewrite decide_True.
Qed.

Lemma Parse_second_map_of_a_query_witness :
  (Parse {| Method := "GET"; Path := "/u/alice";
            RawQuery := [("id", "alice"); ("id", "bob"); ("n", "1"); ("n", "22")];
            PostForm := [] |}).2 !! "id" = Some ["bob"].
Proof.
  rewrite (Parse_second_map_of_a_query
             {| Method := "GET"; Path := "/u/alice";
                RawQuery := [("id", "alice"); ("id", "bob"); ("n", "1"); ("n", "22")];
                PostForm := [] |} "id"); reflexivity.
Defined.

(** X3: the second map of [Parse], key by key.  A key that the query
    string does not have keeps all its values of [r.Form].  A key whose
    value in the first map is longer than one byte is listed with its
    values of [r.Form] less the first occurrence of that value.  A key
    whose value in the first map is at most one byte long is not
    listed. *)
Theorem Parse_second_map_key_by_key (r : Request) (k : string) :
  ((Parse r).1 !! k = None → (Parse r).2 !! k = ParseForm r !! k)
  ∧ (∀ x, (Parse r).1 !! k = Some x → 1 < Strings.len x →
       ∃ pre post, ParseForm r !! k = Some (pre ++ x :: post) ∧ (x ∉ pre)
                   ∧ (Parse r).2 !! k = Some (pre ++ post))
  ∧ (∀ x, (Parse r).1 !! k = Some x → Strings.len x ≤ 1 →
       (Parse r).2 !! k = None).
Proof.
  split; [|split].
  - intros Hm. rewrite Parse_second, Hm. by destruct (ParseForm r !! k).
  - intros x Hm Hlen. rewrite Parse_second, Hm.
    apply Nat.ltb_lt in Hlen. rewrite Hlen.
    rewrite Parse_first in Hm. rewrite ParseForm_lookup.
    destruct (values_of k (RawQuery r)) as [|y rest] eqn:Hq; [done|].
    simplify_eq/=.
    destruct (without_first_split x (body_values r k ++ x :: rest))
      as (pre & post & Heq & Hpre & Hw).
    { apply elem_of_app. right. apply list_elem_of_here. }
    exists pre, post. rewrite <- Heq.
    by destruct (body_values r k ++ x :: rest) eqn:Hv;
      [destruct (body_values r k)|].
  - intros x Hm Hlen. rewrite Parse_second, Hm.
    apply Nat.ltb_ge in Hlen. rewrite Hlen. by destruct (ParseForm r !! k).
Qed.

Lemma Parse_second_map_key_by_key_witness :
  let r := {| Method := "POST"; Path := "/u/alice";
              RawQuery := [("id", "alice"); ("q", "x")];
              PostForm := [("id", "carol"); ("id", "alice"); ("t", "1")] |} in
  (Parse r).2 !! "t" = ParseForm r !! "t"
  ∧ (∃ pre post, ParseForm r !! "id" = Some (pre ++ "alice" :: post)
                 ∧ ("alice" ∉ pre) ∧ (Parse r).2 !! "id" = Some (pre ++ post))
  ∧ (Parse r).2 !! "q" = None.
Proof.
  intros r.
  pose proof (Parse_second_map_key_by_key r "t") as (Ht & _ & _).
  pose proof (Parse_second_map_key_by_key r "id") as (_ & Hid & _).
  pose proof (Parse_second_map_key_by_key r "q") as (_ & _ & Hq).
  split; [apply Ht; reflexivity|].
  split; [apply (Hid "alice"); [reflexivity | vm_compute; lia]|].
  apply (Hq "x"); [reflexivity | vm_compute; lia].
Defined.

Lemma append_upto (a : list string) (n i : nat) :
  n ≤ length a → i < n →
  let values := {| slice.array := a; slice.len := n |} in
  let front := slice.upto values i in
  let back := drop (S i) (slice.elems values) in
  slice.fits front back = true
  ∧ slice.elems (slice.append front back)
    = take i (take n a) ++ drop (S i) (take n a)
  ∧ take n (slice.array (slice.append front back))
    = (take i (take n a) ++ drop (S i) (take n a)) ++ take 1 (drop (n - 1) a).
Proof.
  intros Hn Hi values front back.
  assert (length back = n - S i) as Hback.
  { unfold back, slice.elems. simpl. rewrite length_drop, length_take. lia. }
  assert (slice.fits front back = true) as Hfits.
  { unfold slice.fits, slice.cap. simpl. apply Nat.leb_le. lia. }
  split; [done|]. unfold slice.append. rewrite Hfits.
  unfold slice.elems. cbn [slice.array slice.len front slice.upto values].
  fold (slice.elems values) in back. fold back.
  assert (take i (take n a) = take i a) as Hti by (rewrite take_take; f_equal; lia).
  assert (length (take i a) = i) as Hli by (rewrite length_take; lia).
  rewrite Hti. change (drop (S i) (take n a)) with back.
  replace (i + length back) with (n - 1) by lia.
  split.
  - rewrite app_assoc. rewrite take_app_length'; [done|].
    rewrite length_app. lia.
  - rewrite app_assoc. replace n with (n - 1 + 1) at 1 by lia.
    rewrite take_app_add'; [done|]. rewrite length_app. lia.
Qed.

(** X4: the removal branch of [Parse] writes into the array of the slice
    that [r.Form] holds.  For a key whose value in the first map is longer
    than one byte, [form[k]] is stored in the array of [r.Form[k]], and
    [r.Form[k]], which keeps its length, afterwards reads as [form[k]]
    followed by its former last value.  For any other key [r.Form[k]]
    is left as it was. *)
Theorem Parse_leaves_the_form_shifted (r : Request) (k : string)
        (values : slice.t) :
  slice.len values ≤ slice.cap values →
  ParseForm r !! k = Some (slice.elems values) →
  let '(set, after) := Parse_key (Parse r).1 k values in
  slice.elems <$> set = (Parse r).2 !! k
  ∧ slice.len after = slice.len values
  ∧ match (Parse r).1 !! k with
    | Some x =>
        if 1 <? Strings.len x then
          ∃ l z, set = Some l ∧ last (slice.elems values) = Some z
                 ∧ slice.array after = slice.array l
                 ∧ slice.elems after = slice.elems l ++ [z]
        else after = values
    | None => after = values
    end.
Proof.
  intros Hcap Hform. unfold Parse_key.
  rewrite Parse_second, Hform.
  destruct ((Parse r).1 !! k) as [x|] eqn:Hm; [|done].
  destruct (1 <? Strings.len x) eqn:Hlen; [|done].
  assert (x ∈ slice.elems values) as Hin.
  { rewrite Parse_first in Hm. rewrite ParseForm_lookup in Hform.
    destruct (values_of k (RawQuery r)) as [|y rest]; [done|]. simplify_eq/=.
    destruct (body_values r k ++ x :: rest) as [|z l] eqn:Hv;
      [by destruct (body_values r k)|].
    injection Hform as Hform. rewrite <- Hform, <- Hv.
    apply elem_of_app. right. apply list_elem_of_here. }
  unfold without_first.
  destruct (list_find (λ v, x = v) (slice.elems values)) as [[i y]|] eqn:Hf.
  2:{ apply list_find_None in Hf. rewrite Forall_forall in Hf.
      by destruct (Hf x Hin). }
  apply list_find_Some in Hf as [Hi _].
  pose proof (lookup_lt_Some _ _ _ Hi) as Hlt.
  destruct values as [a n]. unfold slice.cap in Hcap. simpl in Hcap.
  unfold slice.elems in Hlt, Hi. simpl in Hlt, Hi. rewrite length_take in Hlt.
  destruct (append_upto a n i Hcap ltac:(lia)) as (Hfits & Helems & Harr).
  cbv zeta in Hfits, Helems, Harr. rewrite Hfits.
  split; [|split; [done|]].
  - simpl. f_equal. rewrite Helems. done.
  - assert (is_Some (a !! (n - 1))) as [z Hz] by (apply lookup_lt_is_Some; lia).
    eexists _, z. split; [done|]. split; [|split; [done|]].
    + unfold slice.elems. simpl. rewrite last_lookup, length_take.
      replace (Init.Nat.pred (n `min` length a)) with (n - 1) by lia.
      rewrite lookup_take_lt by lia. done.
    + unfold slice.elems at 1. cbn [slice.array slice.len].
      rewrite Harr, Helems. f_equal.
      rewrite (drop_S _ _ _ Hz). done.
Qed.

Lemma Parse_leaves_the_form_shifted_witness :
  let r := {| Method := "GET"; Path := "/u/alice";
              RawQuery := [("id", "alice"); ("id", "bob"); ("id", "carol")];
              PostForm := [] |} in
  let values := {| slice.array := ["alice"; "bob"; "carol"; ""];
                   slice.len := 3 |} in
  let set := {| slice.array := ["bob"; "carol"; "carol"; ""]; slice.len := 2 |} in
  let after := {| slice.array := ["bob"; "carol"; "carol"; ""]; slice.len := 3 |} in
  Parse_key (Parse r).1 "id" values = (Some set, after)
  ∧ slice.elems <$> Some set = (Parse r).2 !! "id"
  ∧ slice.len after = slice.len values
  ∧ ∃ l z, Some set = Some l ∧ last (slice.elems values) = Some z
           ∧ slice.array after = slice.array l
           ∧ slice.elems after = slice.elems l ++ [z].
Proof.
  intros r values set after. split; [reflexivity|].
  apply (Parse_leaves_the_form_shifted r "id" values);
    [vm_compute; lia | reflexivity].
Defined.

(** ** The variables, from the carrier to [Parse] *)

Lemma values_of_zip_first (k v : string) (names vars : list string) (i : nat) :
  names !! i = Some k → vars !! i = Some v →
  (∀ j, j < i → names !! j ≠ Some k) →
  head (values_of k (zip names vars)) = Some v.
Proof.
  revert names vars. induction i as [|i IH]; intros [|n names] [|x vars] Hn Hv Hfirst;
    simplify_eq/=.
  - rewrite values_of_cons. cbn [fst snd]. by rewrite decide_True.
  - rewrite values_of_cons. cbn [fst snd].
    rewrite decide_False.
    + apply IH; [done..|]. intros j Hj. apply (Hfirst (S j)). lia.
    + intros ->. by apply (Hfirst 0); [lia|].
Qed.

Lemma values_of_zip_absent (k : string) (names vars : list string) :
  k ∉ names → values_of k (zip names vars) = [].
Proof.
  revert vars. induction names as [|n names IH]; intros [|x vars] Hk; try done.
  apply not_elem_of_cons in Hk as [Hne Hk]. simpl.
  rewrite values_of_cons. cbn [fst]. rewrite decide_False by done. by apply IH.
Qed.

Section carrier.
Context `{regexp.Engine}.

Lemma carrier_query (pr : ParameterRoute) (r : Request)
      (whole : string) (vars : list string) :
  regexp.FindStringSubmatch (Regexp pr) (Path r) = whole :: vars →
  length (VarNames pr) ≤ length vars →
  ∃ r', ParameterRoute_ServeHTTP pr r = run (pr_Func pr) r'
        ∧ Method r' = Method r ∧ Path r' = Path r ∧ PostForm r' = PostForm r
        ∧ ∀ k, values_of k (RawQuery r')
               = values_of k (zip (VarNames pr) vars)
                 ++ values_of k (RawQuery r).
Proof.
  destruct pr as [f names re]. simpl. intros -> Hlen.
  destruct (add_vars_is_Some ∅ names vars 0) as [_ [form Hform]]; [lia..|].
  rewrite Hform. eexists {| Method := Method r |}.
  split; [done|]. repeat split. intros k. simpl.
  rewrite values_of_app, values_of_Encode, (add_vars_values _ _ _ _ _ _ Hform).
  by rewrite drop_0.
Qed.

(** X5: [Parse], called on the request that the wrapped function is
    given, returns in its first map the value captured for each variable,
    the first one where a name stands more than once, whatever the query
    string of the request held for that name; a key that is no variable
    name has the value there that [Parse] gives it on the original
    request. *)
Theorem Parse_returns_the_path_variables (pr : ParameterRoute) (r : Request)
        (whole : string) (vars : list string) :
  regexp.FindStringSubmatch (Regexp pr) (Path r) = whole :: vars →
  length (VarNames pr) ≤ length vars →
  ∃ r', ParameterRoute_ServeHTTP pr r = run (pr_Func pr) r'
        ∧ (∀ i n v, VarNames pr !! i = Some n → vars !! i = Some v →
             (∀ j, j < i → VarNames pr !! j ≠ Some n) →
             (Parse r').1 !! n = Some v)
        ∧ (∀ k, k ∉ VarNames pr → (Parse r').1 !! k = (Parse r).1 !! k).
Proof.
  intros Hm Hlen.
  destruct (carrier_query pr r whole vars Hm Hlen) as (r' & Hrun & _ & _ & _ & Hq).
  exists r'. split; [done|]. split.
  - intros i n v Hn Hv Hfirst. rewrite Parse_first, Hq.
    pose proof (values_of_zip_first n v _ _ i Hn Hv Hfirst) as Hh.
    by destruct (values_of n (zip (VarNames pr) vars)).
  - intros k Hk. by rewrite !Parse_first, Hq, values_of_zip_absent.
Qed.

(** X6: where the path matches with a group for every variable name,
    [ParameterRoute.ServeHTTP] calls the wrapped function on a request
    with the method, the path and the body of the original.  In [r.Form]
    of that request, as the note on the method has it, the values
    captured for a variable stand in front of the values of the query
    string and, on a request whose body is read (POST, PUT, PATCH),
    behind the values of the body. *)
Theorem variables_in_the_form (pr : ParameterRoute) (r : Request)
        (whole : string) (vars : list string) :
  regexp.FindStringSubmatch (Regexp pr) (Path r) = whole :: vars →
  length (VarNames pr) ≤ length vars →
  ∃ r', ParameterRoute_ServeHTTP pr r = run (pr_Func pr) r'
        ∧ Method r' = Method r ∧ Path r' = Path r ∧ PostForm r' = PostForm r
        ∧ ∀ k, url.values (ParseForm r') k
               = (if has_body r then values_of k (PostForm r) else [])
                 ++ values_of k (zip (VarNames pr) vars)
                 ++ values_of k (RawQuery r).
Proof.
  intros Hm Hlen.
  destruct (carrier_query pr r whole vars Hm Hlen)
    as (r' & Hrun & Hmeth & Hpath & Hpost & Hq).
  exists r'. split_and!; try done. intros k.
  unfold url.values. rewrite ParseForm_lookup, Hq.
  unfold body_values, has_body. rewrite Hmeth, Hpost.
  by destruct (_ ++ _).
Qed.

End carrier.

Lemma Parse_returns_the_path_variables_witness :
  let pr := Build_ParameterRoute (UserFunc "show") ["id"; "tab"]
              {| regexp.expr := "/u/([A-z0-9_].*?)/([A-z0-9_].*?)$" |} in
  let r := {| Method := "GET"; Path := "/u/alice/posts";
              RawQuery := [("id", "bob"); ("page", "2")]; PostForm := [] |} in
  ∃ r', ParameterRoute_ServeHTTP (H := RE2.engine) pr r = Ran "show" r'
        ∧ (Parse r').1 !! "id" = Some "alice"
        ∧ (Parse r').1 !! "tab" = Some "posts"
        ∧ (Parse r').1 !! "page" = Some "2".
Proof.
  intros pr r.
  destruct (Parse_returns_the_path_variables (H := RE2.engine) pr r
              "/u/alice/posts" ["alice"; "posts"])
    as (r' & Hrun & Hvars & Hother); [vm_compute; reflexivity | simpl; lia |].
  exists r'. split; [exact Hrun|]. split; [|split].
  - apply (Hvars 0); [reflexivity | reflexivity | intros j Hj; lia].
  - apply (Hvars 1); [reflexivity | reflexivity |].
    intros [|j] Hj; [discriminate | lia].
  - rewrite Hother; [reflexivity|]. vm_compute. 
    intros Hin. repeat (apply elem_of_cons in Hin as [Hin|Hin]; [discriminate|]).
    by apply elem_of_nil in Hin.
Defined.

Lemma variables_in_the_form_witness :
  let pr := Build_ParameterRoute (UserFunc "save") ["id"]
              {| regexp.expr := "/u/([A-z0-9_].*?)$" |} in
  let r := {| Method := "POST"; Path := "/u/alice";
              RawQuery := [("id", "bob")]; PostForm := [("id", "carol")] |} in
  ∃ r', ParameterRoute_ServeHTTP (H := RE2.engine) pr r = Ran "save" r'
        ∧ url.values (ParseForm r') "id" = ["carol"; "alice"; "bob"].
Proof.
  intros pr r.
  destruct (variables_in_the_form (H := RE2.engine) pr r "/u/alice" ["alice"])
    as (r' & Hrun & _ & _ & _ & Hform); [vm_compute; reflexivity | simpl; lia |].
  exists r'. split; [exact Hrun|]. rewrite Hform. reflexivity.
Defined.

(** ** What registrations keep *)

Module QuoteMetaFacts.
Import Strings QuoteMeta.

Lemma len_QuoteMeta (s : string) : len s ≤ len (QuoteMeta s).
Proof.
  induction s as [|c s IH]; [done|]. unfold len in *. simpl.
  destruct (special c); simpl; lia.
Qed.

Lemma QuoteMeta_plain (s : string) :
  QuoteMeta s = s ↔ all_bytes plain s = true.
Proof.
  induction s as [|c s IH]; [done|]. simpl. unfold plain at 1.
  destruct (special c); simpl.
  - split; [|done]. intros Heq.
    pose proof (len_QuoteMeta s) as Hlen.
    apply (f_equal len) in Heq. unfold len in *. simpl in Heq. lia.
  - rewrite <- IH. split; [by intros [= ->] | by intros ->].
Qed.

Lemma QuoteMeta_eqb (s : string) :
  String.eqb (QuoteMeta s) s = all_bytes plain s.
Proof.
  destruct (all_bytes plain s) eqn:Hp.
  - apply String.eqb_eq. by apply QuoteMeta_plain.
  - apply String.eqb_neq. intros Heq%QuoteMeta_plain. congruence.
Qed.

End QuoteMetaFacts.

Section growth.
Context `{regexp.Engine}.

Lemma addRoute_Panics (rtr : Router) (pattern : string) (f : HandlerFunc) :
  addRoute rtr pattern f = Panics ↔ regexp.compiles pattern = false.
Proof.
  unfold addRoute, regexp.MustCompile.
  destruct (regexp.compiles pattern); [|done]. simpl.
  by destruct (existsb _ _).
Qed.

Lemma drop_error_Panics (o : outcome error) :
  drop_error o = Panics ↔ o = Panics.
Proof. by destruct o. Qed.

Lemma addFixedRoute_returns (rtr : Router) (pattern : string) (f : HandlerFunc) :
  ∃ rtr', drop_error (addFixedRoute rtr pattern f) = Returns () rtr'
          ∧ Routes_ rtr' = Routes_ rtr
          ∧ Strip rtr' = Strip rtr ∧ Log rtr' = Log rtr
          ∧ CheckRegexp rtr' = CheckRegexp rtr ∧ NotFound rtr' = NotFound rtr
          ∧ FixedRoutes rtr' !! pattern
            = Some (default f (FixedRoutes rtr !! pattern))
          ∧ ∀ k, k ≠ pattern → FixedRoutes rtr' !! k = FixedRoutes rtr !! k.
Proof.
  unfold addFixedRoute. destruct (FixedRoutes rtr !! pattern) as [f0|] eqn:Hf.
  - exists rtr. by rewrite Hf.
  - eexists. split; [done|]. simpl. repeat split.
    + by rewrite lookup_insert_eq.
    + intros k Hk. by rewrite lookup_insert_ne.
Qed.

(** [HandleFunc], its three ways written with the single pass of the
    tokens and the test of the bytes. *)
Lemma HandleFunc_unfold (rtr : Router) (p : string) (f : HandlerFunc) :
  HandleFunc rtr p f
  = match Param.FindAllString p with
    | _ :: _ =>
        if regexp.compiles (Spec.replace_tokens p)
        then drop_error (addRoute rtr (Spec.replace_tokens p)
                           (Func (variable_route p f)))
        else Panics
    | [] =>
        if CheckRegexp rtr && negb (all_bytes plain p)
        then drop_error (addRoute rtr p f)
        else drop_error (addFixedRoute rtr p f)
    end.
Proof.
  destruct (Param.FindAllString p) as [|v vars] eqn:Hvars.
  - unfold HandleFunc. rewrite Hvars. simpl.
    rewrite QuoteMetaFacts.QuoteMeta_eqb.
    by destruct (CheckRegexp rtr), (all_bytes plain p).
  - destruct (regexp.compiles (Spec.replace_tokens p)) eqn:Hc.
    + apply HandleFunc_variable; [by rewrite Hvars | done].
    + unfold HandleFunc, addProcessedParameterRoute. rewrite Hvars.
      rewrite <- Hvars, TokenFacts.substitute_replace_tokens, Hvars. simpl.
      unfold regexp.MustCompile. by rewrite Hc.
Qed.

Lemma extends_refl (rtr : Router) : extends rtr rtr.
Proof. by repeat split. Qed.

Lemma extends_trans (rtr1 rtr2 rtr3 : Router) :
  extends rtr1 rtr2 → extends rtr2 rtr3 → extends rtr1 rtr3.
Proof.
  intros (? & ? & ? & ? & Hf & Hr) (? & ? & ? & ? & Hf' & Hr').
  repeat split; try congruence; eauto.
Qed.

Lemma addFixedRoute_extends (rtr rtr' : Router) (p : string) (f : HandlerFunc) :
  drop_error (addFixedRoute rtr p f) = Returns () rtr' → extends rtr rtr'.
Proof.
  destruct (addFixedRoute_returns rtr p f)
    as (rtr1 & -> & Hr & ? & ? & ? & ? & Hp & Hk).
  intros [= <-]. repeat split; try done.
  - intros k h Hkh. destruct (decide (k = p)) as [->|Hne].
    + rewrite Hp, Hkh. done.
    + by rewrite Hk.
  - intros rr. by rewrite Hr.
Qed.

Lemma addRoute_extends (rtr rtr' : Router) (p : string) (f : HandlerFunc)
      (e : error) :
  addRoute rtr p f = Returns e rtr' → extends rtr rtr'.
Proof.
  destruct e as [msg|].
  - intros [-> _]%addRoute_error. apply extends_refl.
  - intros Hadd. pose proof Hadd as (_ & _ & Hf & Hr)%addRoute_new.
    unfold addRoute, regexp.MustCompile in Hadd.
    destruct (regexp.compiles p); [|done]. simpl in Hadd.
    destruct (existsb _ _); [done|]. injection Hadd as <-.
    unfold extends. simpl. split_and!; try done.
    intros rr Hin. rewrite (proj1 (Routes_Sort _)).
    apply elem_of_app. by left.
Qed.

Lemma HandleFunc_extends (rtr rtr' : Router) (p : string) (f : HandlerFunc) :
  HandleFunc rtr p f = Returns () rtr' → extends rtr rtr'.
Proof.
  rewrite HandleFunc_unfold.
  assert (∀ q g, drop_error (addRoute rtr q g) = Returns () rtr' →
                 extends rtr rtr') as Hpat.
  { intros q g. destruct (addRoute rtr q g) as [|e r] eqn:Hadd; [done|].
    intros [= <-]. by eapply addRoute_extends. }
  destruct (Param.FindAllString p).
  - destruct (_ && _); [apply Hpat | apply addFixedRoute_extends].
  - destruct (regexp.compiles _); [apply Hpat | done].
Qed.

Lemma reaches_extends (rtr rtr' : Router) :
  reaches rtr rtr' → extends rtr rtr'.
Proof.
  induction 1 as [|rtr rtr1 rtr2 p f e Hadd _ IH|rtr rtr1 rtr2 p f Hh _ IH].
  - apply extends_refl.
  - eapply extends_trans; [by eapply addRoute_extends | done].
  - eapply extends_trans; [by eapply HandleFunc_extends | done].
Qed.

(** X7: [HandleFunc] panics exactly when it has an expression compiled
    that does not compile: the declaration with [ParamMatch] for each of
    its tokens, or, when it has no token, the check of the regexp is on and it
    holds a byte that [QuoteMeta] escapes, the declaration itself.  With
    the check off, a declaration without tokens is never compiled. *)
Theorem HandleFunc_panics_on_the_compiled_source (rtr : Router) (p : string)
        (f : HandlerFunc) :
  HandleFunc rtr p f = Panics
  ↔ (Param.FindAllString p ≠ []
     ∧ regexp.compiles (Spec.replace_tokens p) = false)
    ∨ (Param.FindAllString p = [] ∧ CheckRegexp rtr = true
       ∧ all_bytes plain p = false ∧ regexp.compiles p = false).
Proof.
  rewrite HandleFunc_unfold. destruct (Param.FindAllString p) as [|v vars].
  - destruct (CheckRegexp rtr), (all_bytes plain p); simpl;
      rewrite drop_error_Panics.
    + destruct (addFixedRoute_returns rtr p f) as (rtr' & Hr & _).
      split; [|by intros [[? _]|(_ & _ & ? & _)]].
      intros Hp. rewrite Hp in Hr. done.
    + rewrite addRoute_Panics. split; [by right | by intros [[? _]|(_ & _ & _ & ?)]].
    + destruct (addFixedRoute_returns rtr p f) as (rtr' & Hr & _).
      split; [|by intros [[? _]|(_ & ? & _)]].
      intros Hp. rewrite Hp in Hr. done.
    + destruct (addFixedRoute_returns rtr p f) as (rtr' & Hr & _).
      split; [|by intros [[? _]|(_ & ? & _)]].
      intros Hp. rewrite Hp in Hr. done.
  - destruct (regexp.compiles (Spec.replace_tokens p)) eqn:Hc.
    + rewrite drop_error_Panics, addRoute_Panics. rewrite Hc.
      split; [done | by intros [[_ ?]|[? _]]].
    + split; [by left | done].
Qed.

(** X8: a declaration without tokens which holds none of the bytes
    [\.+*?()|[]{}^$], or any declaration without tokens when the check
    of the regexp is off, is registered as a fixed route: [HandleFunc] returns,
    the pattern list and the settings are as before, and so is the
    fixed-route table but for the declaration, which is bound to the
    function it was bound to, if it was bound, and to the given one
    otherwise. *)
Theorem literal_declaration_is_a_fixed_route (rtr : Router) (p : string)
        (f : HandlerFunc) :
  Param.FindAllString p = [] →
  CheckRegexp rtr = false ∨ all_bytes plain p = true →
  ∃ rtr', HandleFunc rtr p f = Returns () rtr'
          ∧ Routes_ rtr' = Routes_ rtr
          ∧ Strip rtr' = Strip rtr ∧ Log rtr' = Log rtr
          ∧ CheckRegexp rtr' = CheckRegexp rtr ∧ NotFound rtr' = NotFound rtr
          ∧ FixedRoutes rtr' !! p = Some (default f (FixedRoutes rtr !! p))
          ∧ ∀ k, k ≠ p → FixedRoutes rtr' !! k = FixedRoutes rtr !! k.
Proof.
  intros Hvars Hlit. rewrite HandleFunc_unfold, Hvars.
  assert (CheckRegexp rtr && negb (all_bytes plain p) = false) as ->.
  { destruct Hlit as [-> | ->]; [done | apply andb_false_r]. }
  apply addFixedRoute_returns.
Qed.

(** X9: registrations only add.  Whatever calls of [HandleFunc] and
    [addRoute] lead from a router to another, the settings are the same,
    every fixed route is still bound to the same function, and every
    entry of the pattern list is still in the list. *)
Theorem registrations_only_add (rtr rtr' : Router) :
  reaches rtr rtr' →
  Strip rtr' = Strip rtr ∧ Log rtr' = Log rtr
  ∧ CheckRegexp rtr' = CheckRegexp rtr ∧ NotFound rtr' = NotFound rtr
  ∧ (∀ k h, FixedRoutes rtr !! k = Some h → FixedRoutes rtr' !! k = Some h)
  ∧ (∀ rr, rr ∈ Routes_ rtr → rr ∈ Routes_ rtr').
Proof. apply reaches_extends. Qed.

(** X10: a fixed route is served for good: once a path is bound in the
    fixed-route table, every request that the router matches as that
    path runs the function bound then, whatever is registered later. *)
Theorem fixed_route_is_served_for_good (rtr rtr' : Router) (p : string)
        (f : HandlerFunc) (r : Request) :
  FixedRoutes rtr !! p = Some f → reaches rtr rtr' →
  match_path rtr' (Path r) = p →
  (Router_ServeHTTP rtr' r).2 = [(f, run f r)].
Proof.
  intros Hf (_ & _ & _ & _ & Hfixed & _)%reaches_extends Hp.
  rewrite Router_ServeHTTP_calls, Hp. by rewrite (Hfixed _ _ Hf).
Qed.

Lemma addRoute_sources (rtr rtr' : Router) (p : string) (f : HandlerFunc)
      (e : error) :
  NoDup (sources rtr) → addRoute rtr p f = Returns e rtr' →
  NoDup (sources rtr').
Proof.
  intros Hnd Hadd. destruct e as [msg|].
  - by apply addRoute_error in Hadd as [-> _].
  - apply addRoute_new in Hadd as (_ & Hfresh & _ & Hr).
    unfold sources. rewrite Hr.
    destruct (Routes_Sort (Routes_ rtr ++ [{| Pattern := {| regexp.expr := p |};
                                             Func := f |}])) as [Hp _].
    rewrite Hp, fmap_app, list_fmap_singleton. apply NoDup_app.
    split; [done|]. split; [|apply NoDup_singleton].
    intros src Hsrc ->%list_elem_of_singleton.
    apply list_elem_of_fmap in Hsrc as (rr & Hrr & Hin). simpl in Hrr.
    assert (has_source (Routes_ rtr) p = true) as Hs; [|congruence].
    apply has_source_true. by exists rr.
Qed.

Lemma HandleFunc_sources (rtr rtr' : Router) (p : string) (f : HandlerFunc) :
  NoDup (sources rtr) → HandleFunc rtr p f = Returns () rtr' →
  NoDup (sources rtr').
Proof.
  intros Hnd. rewrite HandleFunc_unfold.
  assert (∀ q g, drop_error (addRoute rtr q g) = Returns () rtr' →
                 NoDup (sources rtr')) as Hpat.
  { intros q g. destruct (addRoute rtr q g) as [|e r] eqn:Hadd; [done|].
    intros [= <-]. by eapply addRoute_sources. }
  assert (drop_error (addFixedRoute rtr p f) = Returns () rtr' →
          NoDup (sources rtr')) as Hfix.
  { destruct (addFixedRoute_returns rtr p f) as (rtr1 & -> & Hr & _).
    intros [= <-]. unfold sources. by rewrite Hr. }
  destruct (Param.FindAllString p).
  - by destruct (_ && _); [apply Hpat|].
  - destruct (regexp.compiles _); [apply Hpat | done].
Qed.

(** X11: the sources of the pattern list are pairwise distinct, after
    every sequence of registrations that starts from a list where they
    are, the empty list of [NewRouter] among them. *)
Theorem pattern_sources_are_distinct (rtr rtr' : Router) :
  NoDup (sources rtr) → reaches rtr rtr' → NoDup (sources rtr').
Proof.
  intros Hnd Hr.
  induction Hr as [|rtr rtr1 rtr2 p f e Hadd _ IH|rtr rtr1 rtr2 p f Hh _ IH].
  - done.
  - apply IH. by eapply addRoute_sources.
  - apply IH. by eapply HandleFunc_sources.
Qed.

Lemma reaches_descending (rtr rtr' : Router) :
  descending (Routes_ rtr) → reaches rtr rtr' → descending (Routes_ rtr').
Proof.
  intros Hd Hr.
  induction Hr as [|rtr rtr1 rtr2 p f e Hadd _ IH|rtr rtr1 rtr2 p f Hh _ IH].
  - done.
  - apply IH. by eapply addRoute_descending.
  - apply IH. by eapply HandleFunc_descending.
Qed.

(** X12: the longest matching pattern is served.  On a router whose
    pattern list came about by registrations from an empty list, a
    request whose path has no fixed route and is matched by some pattern
    runs the function of a pattern route that matches it and whose source
    is no shorter than the source of any pattern route that matches. *)
Theorem longest_matching_pattern_is_served (rtr0 rtr : Router) (r : Request)
        (rr : Route) :
  Routes_ rtr0 = [] → reaches rtr0 rtr →
  FixedRoutes rtr !! match_path rtr (Path r) = None →
  rr ∈ Routes_ rtr →
  regexp.MatchString (Pattern rr) (match_path rtr (Path r)) = true →
  ∃ rr0, rr0 ∈ Routes_ rtr
         ∧ regexp.MatchString (Pattern rr0) (match_path rtr (Path r)) = true
         ∧ (Router_ServeHTTP rtr r).2 = [(Func rr0, run (Func rr0) r)]
         ∧ ∀ rr', rr' ∈ Routes_ rtr →
                  regexp.MatchString (Pattern rr') (match_path rtr (Path r)) = true →
                  Strings.len (regexp.String (Pattern rr'))
                  ≤ Strings.len (regexp.String (Pattern rr0)).
Proof.
  intros Hempty Hreach Hfixed Hin Hm.
  assert (descending (Routes_ rtr)) as Hd.
  { apply (reaches_descending rtr0); [|done]. rewrite Hempty.
    intros i j x y _ Hx. done. }
  rewrite Router_ServeHTTP_calls, Hfixed.
  destruct (serve_routes_first (Routes_ rtr) (NotFound rtr)
              (match_path rtr (Path r)) r)
    as (h & -> & [(pre & rr0 & post & Heq & Hpre & Hrr0 & ->) | [Hno _]]).
  - exists rr0. split; [|split; [done|split; [done|]]].
    { rewrite Heq. apply elem_of_app. right. apply list_elem_of_here. }
    intros rr' Hin' Hm'. rewrite Heq in Hin'.
    apply list_elem_of_lookup in Hin' as [j Hj].
    assert (Routes_ rtr !! length pre = Some rr0) as Hi.
    { rewrite Heq. by rewrite list_lookup_middle. }
    destruct (decide (length pre ≤ j)) as [Hle|Hlt].
    + rewrite <- Heq in Hj. by apply (Hd (length pre) j rr0 rr').
    + rewrite lookup_app_l in Hj by lia.
      unfold no_match in Hpre. rewrite Forall_forall in Hpre.
      assert (rr' ∈ pre) as Hin' by (by eapply list_elem_of_lookup_2).
      specialize (Hpre rr' Hin'). congruence.
  - unfold no_match in Hno. rewrite Forall_forall in Hno.
    specialize (Hno rr Hin). congruence.
Qed.

End growth.

(** ** Duplicates *)

Section duplicates.
Context `{regexp.Engine}.

Lemma addRoute_sources_compile (rtr rtr' : Router) (p : string)
      (f : HandlerFunc) (e : error) :
  sources_compile rtr → addRoute rtr p f = Returns e rtr' →
  sources_compile rtr'.
Proof.
  intros Hc Hadd. destruct e as [msg|].
  - by apply addRoute_error in Hadd as [-> _].
  - apply addRoute_new in Hadd as (Hp & _ & _ & Hr).
    intros rr Hin. rewrite Hr, (proj1 (Routes_Sort _)) in Hin.
    apply elem_of_app in Hin as [Hin | ->%list_elem_of_singleton];
      [by apply Hc | done].
Qed.

Lemma HandleFunc_sources_compile (rtr rtr' : Router) (p : string)
      (f : HandlerFunc) :
  sources_compile rtr → HandleFunc rtr p f = Returns () rtr' →
  sources_compile rtr'.
Proof.
  intros Hc. rewrite HandleFunc_unfold.
  assert (∀ q g, drop_error (addRoute rtr q g) = Returns () rtr' →
                 sources_compile rtr') as Hpat.
  { intros q g. destruct (addRoute rtr q g) as [|e r] eqn:Hadd; [done|].
    intros [= <-]. by eapply addRoute_sources_compile. }
  assert (drop_error (addFixedRoute rtr p f) = Returns () rtr' →
          sources_compile rtr') as Hfix.
  { destruct (addFixedRoute_returns rtr p f) as (rtr1 & -> & Hr & _).
    intros [= <-]. unfold sources_compile. by rewrite Hr. }
  destruct (Param.FindAllString p).
  - by destruct (_ && _); [apply Hpat|].
  - destruct (regexp.compiles _); [apply Hpat | done].
Qed.

Lemma reaches_sources_compile (rtr rtr' : Router) :
  sources_compile rtr → reaches rtr rtr' → sources_compile rtr'.
Proof.
  intros Hc Hr.
  induction Hr as [|rtr rtr1 rtr2 p f e Hadd _ IH|rtr rtr1 rtr2 p f Hh _ IH].
  - done.
  - apply IH. by eapply addRoute_sources_compile.
  - apply IH. by eapply HandleFunc_sources_compile.
Qed.

(** What [HandleFunc] does on a duplicate, exactly. *)
Lemma HandleFunc_on_duplicate (rtr : Router) (p : string) (f : HandlerFunc) :
  duplicate rtr p →
  HandleFunc rtr p f
  = match compile (CheckRegexp rtr) p with
    | Literal _ => Returns () rtr
    | PlainPattern src | VariablePattern src _ =>
        if regexp.compiles src then Returns () rtr else Panics
    end.
Proof.
  unfold duplicate. rewrite HandleFunc_unfold.
  destruct (Param.FindAllString p) as [|t ts] eqn:Hvars.
  - unfold compile. rewrite Hvars, QuoteMetaFacts.QuoteMeta_eqb.
    destruct (CheckRegexp rtr && negb (all_bytes plain p)).
    + intros Hd. destruct (regexp.compiles p) eqn:Hc.
      * by rewrite addRoute_present.
      * by rewrite (proj2 (addRoute_Panics rtr p f) Hc).
    + intros Hd. by rewrite addFixedRoute_present.
  - rewrite compile_variable by (by rewrite Hvars).
    intros Hd. destruct (regexp.compiles _) eqn:Hc; [|done].
    by rewrite addRoute_present.
Qed.

(** C2, as the code has it: the two registration operations detect a
    duplicate and return the error [Key exists: ...] without touching
    the router; [HandleFunc], which has no result, drops that error.  On
    a duplicate literal it returns, the router unchanged; on a duplicate
    pattern it returns, the router unchanged, where the expression
    compiles, and panics where it does not.  On a router that
    registrations have built from [NewRouter] every source of the list
    compiles, so there a duplicate always returns, the router unchanged:
    the caller is not told. *)
Theorem duplicate_is_detected_then_dropped (rtr : Router)
        (pattern : string) (f : HandlerFunc) :
  (is_Some (FixedRoutes rtr !! pattern) →
   addFixedRoute rtr pattern f
   = Returns (Some ("Key exists: " +:+ pattern)) rtr)
  ∧ (regexp.compiles pattern = true →
     (∃ rr, rr ∈ Routes_ rtr ∧ regexp.String (Pattern rr) = pattern) →
     addRoute rtr pattern f
     = Returns (Some ("Key exists: " +:+ pattern)) rtr)
  ∧ (duplicate rtr pattern →
     HandleFunc rtr pattern f
     = match compile (CheckRegexp rtr) pattern with
       | Literal _ => Returns () rtr
       | PlainPattern src | VariablePattern src _ =>
           if regexp.compiles src then Returns () rtr else Panics
       end)
  ∧ (reaches NewRouter rtr → duplicate rtr pattern →
     HandleFunc rtr pattern f = Returns () rtr).
Proof.
  split; [apply addFixedRoute_present|].
  split; [apply addRoute_present|].
  split; [apply HandleFunc_on_duplicate|].
  intros Hreach Hd. rewrite HandleFunc_on_duplicate by done.
  assert (sources_compile rtr) as Hc.
  { apply (reaches_sources_compile NewRouter); [|done].
    intros rr Hin. by apply elem_of_nil in Hin. }
  unfold duplicate in Hd.
  destruct (compile (CheckRegexp rtr) pattern) as [path|src|src names];
    [done|..]; destruct Hd as (rr & Hin & <-); by rewrite (Hc rr Hin).
Qed.

End duplicates.

Lemma duplicate_is_detected_then_dropped_witness :
  HandleFunc (H := RE2.engine) router_api "/api[/]*$" (UserFunc "second")
  = Returns () router_api.
Proof.
  apply (proj2 (proj2 (proj2 (duplicate_is_detected_then_dropped
                                (H := RE2.engine) router_api "/api[/]*$"
                                (UserFunc "second"))))).
  - apply (reaches_HandleFunc NewRouter router_api _
             "/api[/]*$" (UserFunc "first"));
      [vm_compute; reflexivity | apply reaches_refl].
  - vm_compute. eexists. split; [apply list_elem_of_here | reflexivity].
Defined.

Lemma HandleFunc_panics_on_the_compiled_source_witness :
  HandleFunc (H := RE2.engine) NewRouter "/a(" (UserFunc "f") = Panics.
Proof.
  apply (proj2 (HandleFunc_panics_on_the_compiled_source (H := RE2.engine)
                  NewRouter "/a(" (UserFunc "f"))).
  right. repeat split; vm_compute; reflexivity.
Defined.

Lemma literal_declaration_is_a_fixed_route_witness :
  ∃ rtr', HandleFunc (H := RE2.engine) router_a "/a" (UserFunc "second")
          = Returns () rtr'
          ∧ Routes_ rtr' = Routes_ router_a
          ∧ Strip rtr' = Strip router_a ∧ Log rtr' = Log router_a
          ∧ CheckRegexp rtr' = CheckRegexp router_a
          ∧ NotFound rtr' = NotFound router_a
          ∧ FixedRoutes rtr' !! "/a"
            = Some (default (UserFunc "second") (FixedRoutes router_a !! "/a"))
          ∧ ∀ k, k ≠ "/a" → FixedRoutes rtr' !! k = FixedRoutes router_a !! k.
Proof.
  apply (literal_declaration_is_a_fixed_route (H := RE2.engine)
           router_a "/a" (UserFunc "second")); [reflexivity|].
  right. reflexivity.
Defined.

Lemma registrations_only_add_witness :
  FixedRoutes (registered (H := RE2.engine) router_a "/u/<id>$" "show") !! "/a"
  = Some (UserFunc "first").
Proof.
  destruct (registrations_only_add (H := RE2.engine) router_a
              (registered (H := RE2.engine) router_a "/u/<id>$" "show"))
    as (_ & _ & _ & _ & Hfixed & _).
  - apply (reaches_HandleFunc router_a
             (registered (H := RE2.engine) router_a "/u/<id>$" "show") _
             "/u/<id>$" (UserFunc "show"));
      [vm_compute; reflexivity | apply reaches_refl].
  - apply Hfixed. reflexivity.
Defined.

Lemma fixed_route_is_served_for_good_witness :
  (Router_ServeHTTP (H := RE2.engine)
     (registered (H := RE2.engine) router_a "/a.*" "other") (request "/a")).2
  = [(UserFunc "first", run (H := RE2.engine) (UserFunc "first") (request "/a"))].
Proof.
  apply (fixed_route_is_served_for_good (H := RE2.engine) router_a
           (registered (H := RE2.engine) router_a "/a.*" "other") "/a").
  - reflexivity.
  - apply (reaches_HandleFunc router_a
             (registered (H := RE2.engine) router_a "/a.*" "other") _
             "/a.*" (UserFunc "other"));
      [vm_compute; reflexivity | apply reaches_refl].
  - reflexivity.
Defined.

Lemma pattern_sources_are_distinct_witness :
  NoDup (sources router_x).
Proof.
  apply (pattern_sources_are_distinct (H := RE2.engine) NewRouter router_x).
  - apply NoDup_nil_2.
  - apply (reaches_HandleFunc _
             (registered (H := RE2.engine) NewRouter "/x/<a>$" "first") _
             "/x/<a>$" (UserFunc "first")); [vm_compute; reflexivity|].
    apply (reaches_HandleFunc _ router_x _ "/x/<b>$" (UserFunc "second"));
      [vm_compute; reflexivity | apply reaches_refl].
Defined.

Lemma longest_matching_pattern_is_served_witness :
  let rtr1 := registered (H := RE2.engine) NewRouter "/a.*" "short" in
  let rtr := registered (H := RE2.engine) rtr1 "/a/b.*" "long" in
  let r := request "/a/b/c" in
  ∃ rr0, rr0 ∈ Routes_ rtr
         ∧ regexp.MatchString (H := RE2.engine) (Pattern rr0)
             (match_path rtr (Path r)) = true
         ∧ (Router_ServeHTTP (H := RE2.engine) rtr r).2
           = [(Func rr0, run (H := RE2.engine) (Func rr0) r)]
         ∧ ∀ rr', rr' ∈ Routes_ rtr →
                  regexp.MatchString (H := RE2.engine) (Pattern rr')
                    (match_path rtr (Path r)) = true →
                  Strings.len (regexp.String (Pattern rr'))
                  ≤ Strings.len (regexp.String (Pattern rr0)).
Proof.
  intros rtr1 rtr r.
  apply (longest_matching_pattern_is_served (H := RE2.engine) NewRouter rtr r
           {| Pattern := {| regexp.expr := "/a.*" |}; Func := UserFunc "short" |}).
  - reflexivity.
  - apply (reaches_HandleFunc _ rtr1 _ "/a.*" (UserFunc "short"));
      [vm_compute; reflexivity|].
    apply (reaches_HandleFunc _ rtr _ "/a/b.*" (UserFunc "long"));
      [vm_compute; reflexivity | apply reaches_refl].
  - reflexivity.
  - vm_compute. apply list_elem_of_further, list_elem_of_here.
  - vm_compute. reflexivity.
Defined.

(** ** The trailing separator *)

Section trailing_separator.
Context `{regexp.Engine}.

Lemma match_path_app (rtr : Router) (p : string) :
  Strip rtr = true → p ≠ "" → match_path rtr (p +:+ "/") = p.
Proof.
  intros Hstrip Hp. unfold match_path, stripped.
  rewrite Hstrip, StringFacts.HasSuffix_app, StringFacts.TrimSuffix_app.
  assert ((1 <? Strings.len (p +:+ "/")) = true) as ->; [|done].
  apply Nat.ltb_lt. rewrite StringFacts.len_app.
  destruct p; [done|]. unfold Strings.len. simpl. lia.
Qed.

(** X13: the path the router matches is the request path, or the
    request path less one trailing separator; in that case stripping is
    on and what is left is not empty.  No more than one separator is
    taken off, and the router never matches a non-empty path as the
    empty one. *)
Theorem match_path_strips_one_separator (rtr : Router) (path : string) :
  match_path rtr path = path
  ∨ (Strip rtr = true ∧ path = match_path rtr path +:+ "/"
     ∧ match_path rtr path ≠ "").
Proof.
  unfold match_path. destruct (stripped rtr path) eqn:Hs; [right | by left].
  unfold stripped in Hs.
  apply andb_true_iff in Hs as [[Hstrip Hlen]%andb_true_iff Hsuf].
  apply Nat.ltb_lt in Hlen. unfold Strings.TrimSuffix. rewrite Hsuf.
  pose proof (StringFacts.HasSuffix_inv path "/" Hsuf) as Heq.
  split; [done|]. split; [done|]. intros Hempty.
  rewrite Hempty in Heq. rewrite Heq in Hlen. unfold Strings.len in Hlen.
  simpl in Hlen. lia.
Qed.

(** X14: with stripping on, a fixed route whose path ends with the
    separator is not served for its own path: the request for [q/] is
    matched as [q], and what is called is decided by the routes for [q]
    alone.  The route is served for the path with one separator more. *)
Theorem strip_hides_a_route_with_trailing_separator (rtr : Router)
        (q : string) (f : HandlerFunc) (r : Request) :
  Strip rtr = true → q ≠ "" → FixedRoutes rtr !! (q +:+ "/") = Some f →
  (Path r = q +:+ "/" →
   (Router_ServeHTTP rtr r).2
   = match FixedRoutes rtr !! q with
     | Some g => [(g, run g r)]
     | None => serve_routes (Routes_ rtr) (NotFound rtr) q r
     end)
  ∧ (Path r = (q +:+ "/") +:+ "/" →
     (Router_ServeHTTP rtr r).2 = [(f, run f r)]).
Proof.
  intros Hstrip Hq Hf. split; intros Hp; rewrite Router_ServeHTTP_calls, Hp.
  - by rewrite match_path_app.
  - rewrite match_path_app; [by rewrite Hf | done|].
    by destruct q.
Qed.

End trailing_separator.

Lemma strip_hides_a_route_with_trailing_separator_witness :
  let rtr := stripping (registered (H := RE2.engine) NewRouter "/docs/" "docs") in
  FixedRoutes rtr !! "/docs/" = Some (UserFunc "docs")
  ∧ (Router_ServeHTTP (H := RE2.engine) rtr (request "/docs/")).2
    = [(http_NotFound, Replied404)]
  ∧ (Router_ServeHTTP (H := RE2.engine) rtr (request "/docs//")).2
    = [(UserFunc "docs", Ran "docs" (request "/docs//"))].
Proof.
  intros rtr. split; [reflexivity|].
  pose proof (strip_hides_a_route_with_trailing_separator (H := RE2.engine)
                rtr "/docs" (UserFunc "docs")) as Hs.
  split.
  - destruct (Hs (request "/docs/")) as [Hown _]; [done..|].
    rewrite Hown; reflexivity.
  - destruct (Hs (request "/docs//")) as [_ Hmore]; [done..|].
    rewrite Hmore; reflexivity.
Defined.

(** X15: [Routes] meets what [sort.Sort] asks of a [sort.Interface].
    On indices of the list, [Less] is a strict weak ordering (it is
    irreflexive and transitive, and so is being unordered either way, which
    is having sources of the same length), and [Swap] exchanges the two
    entries, leaves the others and the length, and undoes itself. *)
Theorem Routes_meets_the_contract_of_sort (r : Routes) (i j k : nat) :
  i < Routes_Len r → j < Routes_Len r → k < Routes_Len r →
  Routes_Less r i i = false
  ∧ (Routes_Less r i j = true → Routes_Less r j k = true →
     Routes_Less r i k = true)
  ∧ (Routes_Less r i j = false → Routes_Less r j k = false →
     Routes_Less r i k = false)
  ∧ (Routes_Less r i j = false ∧ Routes_Less r j i = false
     ↔ Strings.len (regexp.String (Pattern (r !!! i)))
       = Strings.len (regexp.String (Pattern (r !!! j))))
  ∧ Routes_Swap r i j !! i = r !! j
  ∧ Routes_Swap r i j !! j = r !! i
  ∧ (k ≠ i → k ≠ j → Routes_Swap r i j !! k = r !! k)
  ∧ Routes_Len (Routes_Swap r i j) = Routes_Len r
  ∧ Routes_Swap r i j ≡ₚ r
  ∧ Routes_Swap (Routes_Swap r i j) i j = r.
Proof.
  unfold Routes_Len. intros Hi Hj Hk.
  assert (∀ a b, Routes_Less r a b = true
                 ↔ Strings.len (regexp.String (Pattern (r !!! b)))
                   < Strings.len (regexp.String (Pattern (r !!! a)))) as Hlt.
  { intros a b. unfold Routes_Less. apply Nat.ltb_lt. }
  assert (∀ a b, Routes_Less r a b = false
                 ↔ Strings.len (regexp.String (Pattern (r !!! a)))
                   ≤ Strings.len (regexp.String (Pattern (r !!! b)))) as Hge.
  { intros a b. unfold Routes_Less. apply Nat.ltb_ge. }
  assert (∀ n, n < length r →
            Routes_Swap r i j !! n
            = if decide (n = j) then r !! i
              else if decide (n = i) then r !! j else r !! n) as Hswap.
  { intros n Hn. unfold Routes_Swap.
    destruct (decide (n = j)) as [->|Hnj].
    - rewrite list_lookup_insert_eq by (by rewrite length_insert).
      by rewrite list_lookup_lookup_total_lt.
    - rewrite list_lookup_insert_ne by done.
      destruct (decide (n = i)) as [->|Hni].
      + rewrite list_lookup_insert_eq by done.
        by rewrite list_lookup_lookup_total_lt.
      + by rewrite list_lookup_insert_ne. }
  split_and!.
  - apply Hge. lia.
  - rewrite !Hlt. lia.
  - rewrite !Hge. lia.
  - rewrite !Hge. lia.
  - rewrite Hswap by done. destruct (decide (i = j)) as [->|]; [done|].
    by rewrite decide_True.
  - rewrite Hswap by done. by rewrite decide_True.
  - intros Hki Hkj. rewrite Hswap by done. by rewrite !decide_False.
  - unfold Routes_Swap. by rewrite !length_insert.
  - apply (swap_Permutation r i j Hi Hj).
  - apply list_eq. intros n.
    destruct (decide (n < length r)) as [Hn|Hn].
    + unfold Routes_Swap at 1.
      assert (length (Routes_Swap r i j) = length r) as Hlen.
      { unfold Routes_Swap. by rewrite !length_insert. }
      assert (∀ m, m < length r → Routes_Swap r i j !!! m
                = default inhabitant (Routes_Swap r i j !! m)) as Htot.
      { intros m Hm. by rewrite list_lookup_total_alt. }
      destruct (decide (n = j)) as [->|Hnj].
      * rewrite list_lookup_insert_eq by (rewrite length_insert; lia).
        rewrite Htot, Hswap by done.
        destruct (decide (i = j)) as [->|].
        -- by rewrite list_lookup_lookup_total_lt.
        -- rewrite decide_True by done. by rewrite list_lookup_lookup_total_lt.
      * rewrite list_lookup_insert_ne by done.
        destruct (decide (n = i)) as [->|Hni].
        -- rewrite list_lookup_insert_eq by lia.
           rewrite Htot, Hswap by done. rewrite decide_True by done.
           by rewrite list_lookup_lookup_total_lt.
        -- rewrite list_lookup_insert_ne by done. rewrite Hswap by done.
           by rewrite !decide_False.
    + rewrite !lookup_ge_None_2; [done|lia|].
      unfold Routes_Swap. rewrite !length_insert. lia.
Qed.

Lemma Routes_meets_the_contract_of_sort_witness :
  let r := Routes_ router_13 in
  Routes_Swap r 0 12 !! 0 = r !! 12 ∧ Routes_Swap r 0 12 !! 12 = r !! 0
  ∧ Routes_Swap (Routes_Swap r 0 12) 0 12 = r.
Proof.
  intros r.
  destruct (Routes_meets_the_contract_of_sort r 0 12 5)
    as (_ & _ & _ & _ & H0 & H12 & _ & _ & _ & Hback);
    [vm_compute; lia..|].
  by split_and!.
Defined.

(** ** Tokens and variable routes *)

Module FindFacts.
Import Strings StringFacts.

Lemma FindAllString_from_token (fuel : nat) (s : string) :
  Param.FindAllString_from fuel s ≠ [] →
  ∃ pre n rest, s = pre +:+ Param.token n +:+ rest
                ∧ all_bytes Param.class n = true.
Proof.
  revert s. induction fuel as [|fuel IH]; intros s; [done|]. simpl.
  destruct (Param.match_at s) as [[n rest]|] eqn:Hm.
  - intros _. apply TokenFacts.match_at_Some in Hm as [-> Hn].
    exists "", n, rest. by rewrite app_nil_l.
  - destruct s as [|c s]; [done|]. intros (pre & n & rest & -> & Hn)%IH.
    exists (String c pre), n, rest. by rewrite app_cons.
Qed.

Lemma token_FindAllString_from (pre n rest : string) (fuel : nat) :
  len (pre +:+ Param.token n +:+ rest) < fuel →
  all_bytes Param.class n = true →
  Param.FindAllString_from fuel (pre +:+ Param.token n +:+ rest) ≠ [].
Proof.
  intros Hfuel Hn. revert fuel Hfuel.
  induction pre as [|c pre IH]; intros [|fuel] Hfuel; try lia.
  - rewrite app_nil_l. cbn [Param.FindAllString_from].
    by rewrite TokenFacts.match_at_token.
  - rewrite app_cons in *. cbn [Param.FindAllString_from].
    destruct (Param.match_at _) as [[m rest']|]; [done|].
    apply IH. unfold len in *. simpl in Hfuel. lia.
Qed.

End FindFacts.

(** X18: [HandleFunc] takes a declaration for a variable declaration
    exactly when the declaration holds a token: a [<], then bytes of the
    class [[A-z0-9_]], which may be none, then a [>]. *)
Theorem declaration_is_variable_when_it_holds_a_token (s : string) :
  Param.FindAllString s ≠ []
  ↔ ∃ pre n rest, s = pre +:+ Param.token n +:+ rest
                  ∧ all_bytes Param.class n = true.
Proof.
  split.
  - apply FindFacts.FindAllString_from_token.
  - intros (pre & n & rest & -> & Hn).
    apply FindFacts.token_FindAllString_from; [lia | done].
Qed.

Lemma declaration_is_variable_when_it_holds_a_token_witness :
  Param.FindAllString "/files/<>/raw" ≠ [].
Proof.
  apply (proj2 (declaration_is_variable_when_it_holds_a_token "/files/<>/raw")).
  exists "/files/", "", "/raw". split; reflexivity.
Defined.

Section round_trip.
Context `{regexp.Engine}.

Lemma addRoute_stores (rtr : Router) (p : string) (f : HandlerFunc) :
  regexp.compiles p = true → has_source (Routes_ rtr) p = false →
  ∃ rtr', addRoute rtr p f = Returns None rtr'
          ∧ FixedRoutes rtr' = FixedRoutes rtr
          ∧ Strip rtr' = Strip rtr
          ∧ Routes_ rtr'
            ≡ₚ Routes_ rtr ++ [{| Pattern := {| regexp.expr := p |}; Func := f |}].
Proof.
  intros Hc Hs. unfold addRoute, regexp.MustCompile. rewrite Hc. simpl.
  unfold has_source in Hs. rewrite Hs. eexists. split; [done|].
  simpl. split; [done|]. split; [done|]. apply Routes_Sort.
Qed.

Lemma carrier_without_names (f : HandlerFunc) (re : regexp.Regexp) (r : Request) :
  regexp.MatchString re (Path r) = true →
  ParameterRoute_ServeHTTP (Build_ParameterRoute f [] re) r = run f r.
Proof.
  unfold regexp.MatchString. simpl.
  destruct (regexp.FindStringSubmatch re (Path r)); [done|]. intros _.
  unfold url.Encode. rewrite map_to_list_empty. simpl. by destruct r.
Qed.

(** X16: [addParameterRoute] does for a declaration with tokens what
    [HandleFunc] does.  A declaration without tokens it registers as a
    pattern route all the same, whatever its bytes and the check of the
    regexp: the source is the declaration, there is no variable name,
    and on a request whose path matches, the carrier calls the given
    function on the request with the query as it was. *)
Theorem addParameterRoute_without_tokens (rtr : Router) (p : string)
        (f : HandlerFunc) :
  (Param.FindAllString p ≠ [] →
   addParameterRoute rtr p f = HandleFunc rtr p f)
  ∧ (Param.FindAllString p = [] → regexp.compiles p = true →
     has_source (Routes_ rtr) p = false →
     let pr := Build_ParameterRoute f [] {| regexp.expr := p |} in
     ∃ rtr', addParameterRoute rtr p f = Returns () rtr'
             ∧ FixedRoutes rtr' = FixedRoutes rtr
             ∧ Routes_ rtr'
               ≡ₚ Routes_ rtr ++ [{| Pattern := {| regexp.expr := p |};
                                     Func := pr_ServeHTTP pr |}]
             ∧ ∀ r, regexp.MatchString (Regexp pr) (Path r) = true →
                    ParameterRoute_ServeHTTP pr r = run f r).
Proof.
  split.
  - intros Hvars. unfold addParameterRoute, HandleFunc.
    by destruct (Param.FindAllString p).
  - intros Hvars Hc Hs pr. unfold addParameterRoute, addProcessedParameterRoute.
    rewrite Hvars. simpl. unfold regexp.MustCompile at 1. rewrite Hc.
    destruct (addRoute_stores rtr p (pr_ServeHTTP pr) Hc Hs)
      as (rtr' & Hadd & Hf & _ & Hr).
    fold pr. rewrite Hadd. exists rtr'. split_and!; try done.
    intros r. apply carrier_without_names.
Qed.

(** X20: with the check of the regexp on, a declaration without tokens
    which holds one of the bytes [\.+*?()|[]{}^$] is registered as a
    pattern route: where it compiles and is not yet a source of the
    list, [HandleFunc] returns, the fixed-route table and the stripping
    are as before, and the pattern list is the list before with one more
    entry, whose source is the declaration as it is written and whose
    function is the given one. *)
Theorem pattern_declaration_is_a_pattern_route (rtr : Router) (p : string)
        (f : HandlerFunc) :
  Param.FindAllString p = [] → CheckRegexp rtr = true →
  all_bytes plain p = false →
  regexp.compiles p = true → has_source (Routes_ rtr) p = false →
  ∃ rtr', HandleFunc rtr p f = Returns () rtr'
          ∧ FixedRoutes rtr' = FixedRoutes rtr
          ∧ Strip rtr' = Strip rtr
          ∧ Routes_ rtr'
            ≡ₚ Routes_ rtr ++ [{| Pattern := {| regexp.expr := p |}; Func := f |}].
Proof.
  intros Hvars Hcheck Hplain Hc Hs.
  rewrite HandleFunc_unfold, Hvars, Hcheck, Hplain. simpl.
  destruct (addRoute_stores rtr p f Hc Hs) as (rtr' & Hadd & Hrest).
  rewrite Hadd. by exists rtr'.
Qed.

(** X17: a variable route, from its registration to [Parse].  After
    [HandleFunc] has stored a declaration with tokens, on a router that
    does not strip, take a request whose path has no fixed route, is
    matched by no pattern route that was there before, and is matched by
    the expression of the declaration with at least as many submatches
    as the declaration has tokens.  It runs the given function and
    nothing else; the request the function is given has the path of the
    original; and [Parse] returns on it, under the name of the i-th
    token, where that name does not stand earlier among the names, the
    i-th submatch, whatever the query string held for the name.  The
    names are bound by position: the submatches are those that
    [FindStringSubmatch] returns for all groups of the expression, a
    group written in the declaration itself counted with them. *)
Theorem variable_route_round_trip (rtr0 rtr : Router) (d name : string)
        (r : Request) (whole : string) (vars : list string) :
  Param.FindAllString d ≠ [] →
  has_source (Routes_ rtr0) (Spec.replace_tokens d) = false →
  HandleFunc rtr0 d (UserFunc name) = Returns () rtr →
  Strip rtr0 = false →
  FixedRoutes rtr0 !! Path r = None →
  no_match (Path r) (Routes_ rtr0) →
  regexp.submatch (Spec.replace_tokens d) (Path r) = whole :: vars →
  length (Spec.token_names d) ≤ length vars →
  ∃ r', (Router_ServeHTTP rtr r).2
        = [(Func (variable_route d (UserFunc name)), Ran name r')]
        ∧ Path r' = Path r
        ∧ ∀ i n v, Spec.token_names d !! i = Some n → vars !! i = Some v →
                   (∀ j, j < i → Spec.token_names d !! j ≠ Some n) →
                   (Parse r').1 !! n = Some v.
Proof.
  intros Hvars Hfresh Hh Hstrip Hfixed Hno Hm Hlen.
  rewrite HandleFunc_unfold in Hh.
  destruct (Param.FindAllString d) as [|t ts]; [done|].
  destruct (regexp.compiles (Spec.replace_tokens d)) eqn:Hc; [|done].
  destruct (addRoute_stores rtr0 (Spec.replace_tokens d)
              (Func (variable_route d (UserFunc name))) Hc Hfresh)
    as (rtr1 & Hadd & Hf & Hs & Hr).
  rewrite Hadd in Hh. injection Hh as <-.
  set (pr := Build_ParameterRoute (UserFunc name) (Spec.token_names d)
               {| regexp.expr := Spec.replace_tokens d |}).
  assert (regexp.FindStringSubmatch (Regexp pr) (Path r) = whole :: vars) as Hsub
    by done.
  destruct (carrier_query pr r whole vars Hsub Hlen)
    as (r' & Hrun & _ & Hpath & _ & Hq).
  assert (match_path rtr1 (Path r) = Path r) as Hmp.
  { unfold match_path, stripped. by rewrite Hs, Hstrip. }
  exists r'. split; [|split; [done|]].
  - rewrite Router_ServeHTTP_calls, Hmp, Hf, Hfixed.
    destruct (serve_routes_first (Routes_ rtr1) (NotFound rtr1) (Path r) r)
      as (h & -> & [(pre & rr & post & Heq & _ & Hrr & ->) | [Hnone _]]).
    + assert (rr ∈ Routes_ rtr1) as Hin.
      { rewrite Heq. apply elem_of_app. right. apply list_elem_of_here. }
      rewrite Hr in Hin.
      apply elem_of_app in Hin as [Hin | ->%list_elem_of_singleton].
      * unfold no_match in Hno. rewrite Forall_forall in Hno.
        specialize (Hno rr Hin). congruence.
      * do 2 f_equal. exact Hrun.
    + unfold no_match in Hnone. rewrite Forall_forall in Hnone.
      assert (variable_route d (UserFunc name) ∈ Routes_ rtr1) as Hin.
      { rewrite Hr. apply elem_of_app. right. apply list_elem_of_here. }
      specialize (Hnone _ Hin). unfold regexp.MatchString in Hnone.
      simpl in Hnone. unfold regexp.FindStringSubmatch in Hnone.
      simpl in Hnone. by rewrite Hm in Hnone.
  - intros i n v Hn Hv Hfirst. rewrite Parse_first, Hq.
    change (VarNames pr) with (Spec.token_names d).
    pose proof (values_of_zip_first n v _ _ i Hn Hv Hfirst) as Hh.
    by destruct (values_of n (zip (Spec.token_names d) vars)).
Qed.

End round_trip.

Lemma addParameterRoute_without_tokens_witness :
  let pr := Build_ParameterRoute (UserFunc "f") [] {| regexp.expr := "/about" |} in
  ∃ rtr', addParameterRoute (H := RE2.engine) NewRouter "/about" (UserFunc "f")
          = Returns () rtr'
          ∧ FixedRoutes rtr' = ∅
          ∧ Routes_ rtr'
            ≡ₚ [{| Pattern := {| regexp.expr := "/about" |};
                   Func := pr_ServeHTTP pr |}]
          ∧ ∀ r, regexp.MatchString (H := RE2.engine) (Regexp pr) (Path r) = true →
                 ParameterRoute_ServeHTTP (H := RE2.engine) pr r
                 = run (H := RE2.engine) (UserFunc "f") r.
Proof.
  apply (proj2 (addParameterRoute_without_tokens (H := RE2.engine)
                  NewRouter "/about" (UserFunc "f"))); reflexivity.
Defined.

Lemma variable_route_round_trip_witness :
  ∃ r', (Router_ServeHTTP (H := RE2.engine)
           (registered (H := RE2.engine) router_a "/u/<id>/<tab>$" "show")
           {| Method := "GET"; Path := "/u/alice/posts";
              RawQuery := [("id", "bob")]; PostForm := [] |}).2
        = [(Func (variable_route "/u/<id>/<tab>$" (UserFunc "show")),
            Ran "show" r')]
        ∧ (Parse r').1 !! "id" = Some "alice"
        ∧ (Parse r').1 !! "tab" = Some "posts".
Proof.
  destruct (variable_route_round_trip (H := RE2.engine) router_a
              (registered (H := RE2.engine) router_a "/u/<id>/<tab>$" "show")
              "/u/<id>/<tab>$" "show"
              {| Method := "GET"; Path := "/u/alice/posts";
                 RawQuery := [("id", "bob")]; PostForm := [] |}
              "/u/alice/posts" ["alice"; "posts"])
    as (r' & Hcall & _ & Hvars);
    [vm_compute; discriminate | vm_compute; reflexivity | vm_compute; reflexivity
     | reflexivity | reflexivity | vm_compute; constructor
     | vm_compute; reflexivity | vm_compute; lia |].
  exists r'. split; [exact Hcall|]. split.
  - apply (Hvars 0); [reflexivity | reflexivity | intros j Hj; lia].
  - apply (Hvars 1); [reflexivity | reflexivity |].
    intros [|j] Hj; [vm_compute; discriminate | lia].
Defined.

(** ** Dispatch *)

(** X19: what is called depends on the path alone: two requests with
    the same path are given to the same function, whatever their
    methods, their queries and their bodies. *)
Theorem dispatch_depends_on_the_path_alone `{regexp.Engine}
        (rtr : Router) (r1 r2 : Request) :
  Path r1 = Path r2 →
  ∃ h, (Router_ServeHTTP rtr r1).2 = [(h, run h r1)]
       ∧ (Router_ServeHTTP rtr r2).2 = [(h, run h r2)].
Proof.
  intros Hp.
  destruct (dispatch_resolves rtr r1) as (h1 & Hc1 & Hr1).
  destruct (dispatch_resolves rtr r2) as (h2 & Hc2 & Hr2).
  rewrite Hp in Hr1. rewrite (resolves_unique _ _ _ _ Hr1 Hr2) in Hc1.
  by exists h2.
Qed.

Lemma dispatch_depends_on_the_path_alone_witness :
  ∃ h, (Router_ServeHTTP (H := RE2.engine) router_a (request "/a")).2
       = [(h, run (H := RE2.engine) h (request "/a"))]
       ∧ (Router_ServeHTTP (H := RE2.engine) router_a
            {| Method := "DELETE"; Path := "/a"; RawQuery := [("x", "1")];
               PostForm := [] |}).2
         = [(h, run (H := RE2.engine) h
                  {| Method := "DELETE"; Path := "/a"; RawQuery := [("x", "1")];
                     PostForm := [] |})].
Proof.
  apply (dispatch_depends_on_the_path_alone (H := RE2.engine) router_a
           (request "/a")
           {| Method := "DELETE"; Path := "/a"; RawQuery := [("x", "1")];
              PostForm := [] |}).
  reflexivity.
Defined.

Lemma pattern_declaration_is_a_pattern_route_witness :
  ∃ rtr', HandleFunc (H := RE2.engine) router_a "/index.html" (UserFunc "index")
          = Returns () rtr'
          ∧ FixedRoutes rtr' = FixedRoutes router_a
          ∧ Strip rtr' = Strip router_a
          ∧ Routes_ rtr'
            ≡ₚ Routes_ router_a
               ++ [{| Pattern := {| regexp.expr := "/index.html" |};
                      Func := UserFunc "index" |}].
Proof.
  apply (pattern_declaration_is_a_pattern_route (H := RE2.engine)
           router_a "/index.html" (UserFunc "index")); reflexivity.
Defined.
